(** * Layout engine of the network diagram (src/app/page.tsx)

    A shallow embedding of the layout code of [src/app/page.tsx]: the
    drag-time collision resolver [detectAndResolveCollisions], the settle
    pass at the end of [updateNodesAndEdges], the placement priority of
    [updateNodesAndEdges], the position store ([saveNodePositions],
    [loadNodePositions]) and the edge attachment selector
    ([getHandleIndex]).

    Number model.  A JavaScript [number] is modelled as a real number of
    the Standard Library ([R]): [Math.sqrt] is [sqrt], [Math.cos] is [cos],
    [Math.PI] is [PI], and [<] is decided by [Rlt_dec].  Rounding, [NaN],
    infinities and signed zeros of IEEE doubles are outside this model.
    The concrete runs below use small integer coordinates, on which the
    double arithmetic of the source gives the values computed here.

    Arrays are lists with stdpp's indexed lookup [l !! i] and update
    [<[i:=v]> l]; every index the source uses is in range, which is where
    the two agree.  JavaScript objects used as maps ([Map], [Record<..>],
    [localStorage]) are [gmap]s keyed by strings. *)

From Stdlib Require Import Reals Lra Lia ZArith.
From stdpp Require Import gmap strings list pretty.

(** ** Data model *)

(** [{ x: number; y: number }] *)
Module XY.
Record t : Type := mk { x : R; y : R }.
End XY.

(** [Person] of src/lib/db.ts *)
Module Person.
Record t : Type := mk {
  id : string;
  user_id : string;
  name : string;
  role : option string;
  company : option string;
  introducer_id : option string;
  notes : option string;
  created_at : string
}.
End Person.

(** [PersonNodeData]; an absent optional field is [None]. *)
Module PersonNodeData.
Record t : Type := mk {
  label : string;
  person : option Person.t;
  isUser : option bool;
  gradientFrom : option string;
  gradientTo : option string
}.
End PersonNodeData.

(** [Node<PersonNodeData>] of React Flow, with the fields this program
    reads or writes. *)
Module Node.
Record t : Type := mk {
  id : string;
  type : option string;
  position : XY.t;
  data : PersonNodeData.t;
  draggable : option bool
}.

(** [{ ...n, position: p }] *)
Definition withPosition (n : t) (p : XY.t) : t :=
  mk (id n) (type n) p (data n) (draggable n).
End Node.

(** Decidable comparisons of numbers: the source's [a < b] and [a > b]. *)
#[global] Instance Rlt_decision : RelDecision Rlt := Rlt_dec.
#[global] Instance Rgt_decision : RelDecision Rgt := fun a b => Rlt_dec b a.

(** Truthiness of an optional boolean: [undefined] and [false] are falsy. *)
Definition truthy (b : option bool) : bool :=
  match b with Some true => true | _ => false end.

(** ** Collision resolver (drag time) *)

Definition NODE_RADIUS : R := 25.
Definition MIN_DISTANCE : R := NODE_RADIUS * 1.25.
Definition BOUNCE_FORCE : R := 5.
Definition maxIterations : nat := 10.

(** Euclidean distance between two centers, as the source computes it:
    [Math.sqrt(dx * dx + dy * dy)] with [dx = b.x - a.x]. *)
Definition distance (a b : XY.t) : R :=
  let dx := (XY.x b - XY.x a)%R in
  let dy := (XY.y b - XY.y a)%R in
  sqrt (dx * dx + dy * dy).

(** [id === "user-center" || id === "fallback-user-center"] *)
Definition isUserCenter (id : string) : bool :=
  String.eqb id "user-center" || String.eqb id "fallback-user-center".

(** [changedNodeId === id], where [changedNodeId] may be [undefined]. *)
Definition isChanged (changedNodeId : option string) (id : string) : bool :=
  match changedNodeId with
  | Some c => String.eqb c id
  | None => false
  end.

(** The collision test of the drag-time pass:
    [distance < MIN_DISTANCE && distance > 0.1]. *)
Definition collides (a b : XY.t) : bool :=
  bool_decide (distance a b < MIN_DISTANCE)%R && bool_decide (distance a b > 0.1)%R.

(** [pushA] and [pushB]: how [pushDistance] is shared between the pair. *)
Definition pushShares (changedNodeId : option string) (nodeA nodeB : Node.t)
    (pushDistance : R) : R * R :=
  let isAChanged := isChanged changedNodeId (Node.id nodeA) in
  let isBChanged := isChanged changedNodeId (Node.id nodeB) in
  let isAUserCenter := isUserCenter (Node.id nodeA) in
  let isBUserCenter := isUserCenter (Node.id nodeB) in
  if isAUserCenter then (0%R, pushDistance)
  else if isBUserCenter then (pushDistance, 0%R)
  else ((if isAChanged then pushDistance * 0.15 else pushDistance * 0.25)%R,
        (if isBChanged then pushDistance * 0.15 else pushDistance * 0.25)%R).

(** [updatedNodes[k] = { ...updatedNodes[k], position: f(updatedNodes[k].position) }] *)
Definition movePosition (k : nat) (f : XY.t -> XY.t) (nodes : list Node.t) : list Node.t :=
  match nodes !! k with
  | Some cur => <[k := Node.withPosition cur (f (Node.position cur))]> nodes
  | None => nodes
  end.

(** The body of the inner [for] loop for the pair [(i, j)].  [nodeA] is the
    object read from [updatedNodes[i]] when the outer iteration started: the
    distance and the unit vector are computed from it, while the push is
    applied to the current [updatedNodes[i]].  The result is [None] when
    the pair is skipped. *)
Definition collisionBody (changedNodeId : option string) (i j : nat)
    (nodeA nodeB : Node.t) (updatedNodes : list Node.t) : option (list Node.t) :=
  let dx := (XY.x (Node.position nodeB) - XY.x (Node.position nodeA))%R in
  let dy := (XY.y (Node.position nodeB) - XY.y (Node.position nodeA))%R in
  let distance := sqrt (dx * dx + dy * dy) in
  if bool_decide (distance < MIN_DISTANCE)%R && bool_decide (distance > 0.1)%R then
    let unitX := (dx / distance)%R in
    let unitY := (dy / distance)%R in
    let overlap := (MIN_DISTANCE - distance)%R in
    let pushDistance := (overlap + BOUNCE_FORCE)%R in
    let '(pushA, pushB) := pushShares changedNodeId nodeA nodeB pushDistance in
    let updatedNodes1 :=
      movePosition i (fun p => XY.mk (XY.x p - unitX * pushA) (XY.y p - unitY * pushA))
        updatedNodes in
    let updatedNodes2 :=
      movePosition j (fun p => XY.mk (XY.x p + unitX * pushB) (XY.y p + unitY * pushB))
        updatedNodes1 in
    Some updatedNodes2
  else None.

(** One step of the inner loop on the state [(updatedNodes, hasCollisions)]. *)
Definition innerStep (changedNodeId : option string) (i : nat) (nodeA : Node.t)
    (st : list Node.t * bool) (j : nat) : list Node.t * bool :=
  match st.1 !! j with
  | Some nodeB =>
      match collisionBody changedNodeId i j nodeA nodeB st.1 with
      | Some nodes' => (nodes', true)
      | None => st
      end
  | None => st
  end.

(** [for (let j = i + 1; j < updatedNodes.length; j++)] *)
Definition innerLoop (changedNodeId : option string) (i : nat) (nodeA : Node.t)
    (st : list Node.t * bool) : list Node.t * bool :=
  foldl (innerStep changedNodeId i nodeA) st (seq (S i) (length st.1 - S i)).

(** One step of the outer loop: read [nodeA], then run the inner loop. *)
Definition outerStep (changedNodeId : option string)
    (st : list Node.t * bool) (i : nat) : list Node.t * bool :=
  match st.1 !! i with
  | Some nodeA => innerLoop changedNodeId i nodeA st
  | None => st
  end.

(** One pass over all pairs: [hasCollisions = false] and the two [for]
    loops. *)
Definition pass (changedNodeId : option string) (nodes : list Node.t)
    : list Node.t * bool :=
  foldl (outerStep changedNodeId) (nodes, false) (seq 0 (length nodes)).

(** The state of the [while] loop. *)
Record LoopState : Type := mkLoopState {
  updatedNodes : list Node.t;
  hasCollisions : bool;
  iterations : nat
}.

(** [hasCollisions && iterations < maxIterations] *)
Definition loopCond (s : LoopState) : bool :=
  hasCollisions s && (iterations s <? maxIterations)%nat.

(** The body of a [while] loop whose pass over all pairs is [p]. *)
Definition loopBody (p : list Node.t -> list Node.t * bool) (s : LoopState)
    : LoopState :=
  let r := p (updatedNodes s) in
  mkLoopState r.1 r.2 (S (iterations s)).

(** The [while] loop, on a fuel that the loop never exhausts (see
    [whileLoop_exits]). *)
Fixpoint whileLoop (p : list Node.t -> list Node.t * bool) (fuel : nat)
    (s : LoopState) : LoopState :=
  match fuel with
  | O => s
  | S fuel' => if loopCond s then whileLoop p fuel' (loopBody p s) else s
  end.

(** The state in which the [while] loop of [detectAndResolveCollisions]
    ends.  [nodes.map((n) => ({ ...n }))] copies the array; a copied node
    is the same value. *)
Definition resolveState (nodes : list Node.t) (changedNodeId : option string)
    : LoopState :=
  whileLoop (pass changedNodeId) maxIterations
    (mkLoopState ((fun n => n) <$> nodes) true 0).

Definition detectAndResolveCollisions (nodes : list Node.t)
    (changedNodeId : option string) : list Node.t :=
  updatedNodes (resolveState nodes changedNodeId).

(** ** Settle pass of the initial layout (end of [updateNodesAndEdges])

    The source declares [NODE_RADIUS], [MIN_DISTANCE] and [BOUNCE_FORCE]
    again inside [updateNodesAndEdges], with the same values as above. *)

(** [n.id === "user-center" && !n.draggable]: the guard before [continue]. *)
Definition settleSkip (n : Node.t) : bool :=
  String.eqb (Node.id n) "user-center" && negb (truthy (Node.draggable n)).

(** The body of the inner loop of the settle pass.  Both new nodes are
    built from the objects [nodeA] and [nodeB] read at the start of the
    outer and of the inner iteration. *)
Definition settleBody (i j : nat) (nodeA nodeB : Node.t)
    (resolvedNodes : list Node.t) : option (list Node.t) :=
  let dx := (XY.x (Node.position nodeB) - XY.x (Node.position nodeA))%R in
  let dy := (XY.y (Node.position nodeB) - XY.y (Node.position nodeA))%R in
  let distance := sqrt (dx * dx + dy * dy) in
  if bool_decide (distance < MIN_DISTANCE)%R && bool_decide (distance > 0)%R then
    let unitX := (dx / distance)%R in
    let unitY := (dy / distance)%R in
    let overlap := (MIN_DISTANCE - distance)%R in
    let pushDistance := (overlap / 2 + BOUNCE_FORCE)%R in
    let newA :=
      Node.withPosition nodeA
        (XY.mk (XY.x (Node.position nodeA) - unitX * pushDistance * 0.25)
               (XY.y (Node.position nodeA) - unitY * pushDistance * 0.25)) in
    let newB :=
      Node.withPosition nodeB
        (XY.mk (XY.x (Node.position nodeB) + unitX * pushDistance * 0.25)
               (XY.y (Node.position nodeB) + unitY * pushDistance * 0.25)) in
    Some (<[j := newB]> (<[i := newA]> resolvedNodes))
  else None.

Definition settleInnerStep (i : nat) (nodeA : Node.t)
    (st : list Node.t * bool) (j : nat) : list Node.t * bool :=
  match st.1 !! j with
  | Some nodeB =>
      if settleSkip nodeB then st
      else
        match settleBody i j nodeA nodeB st.1 with
        | Some nodes' => (nodes', true)
        | None => st
        end
  | None => st
  end.

Definition settleOuterStep (st : list Node.t * bool) (i : nat)
    : list Node.t * bool :=
  match st.1 !! i with
  | Some nodeA =>
      if settleSkip nodeA then st
      else foldl (settleInnerStep i nodeA) st (seq (S i) (length st.1 - S i))
  | None => st
  end.

Definition settlePass (nodes : list Node.t) : list Node.t * bool :=
  foldl settleOuterStep (nodes, false) (seq 0 (length nodes)).

(** [let resolvedNodes = [...nodes]; ... while (...) {...}; return resolvedNodes] *)
Definition settleState (nodes : list Node.t) : LoopState :=
  whileLoop settlePass maxIterations (mkLoopState nodes true 0).

Definition settleInitialLayout (nodes : list Node.t) : list Node.t :=
  updatedNodes (settleState nodes).

(** ** Numbers of the standard library of the source language *)

(** [Math.atan2(y, x)] on real numbers. *)
Definition atan2 (y x : R) : R :=
  if decide (0 < x)%R then atan (y / x)
  else if decide (x < 0)%R then
    if decide (y < 0)%R then (atan (y / x) - PI)%R else (atan (y / x) + PI)%R
  else if decide (0 < y)%R then (PI / 2)%R
  else if decide (y < 0)%R then (- (PI / 2))%R
  else 0%R.

(** Truncation toward zero. *)
Definition Rtrunc (r : R) : Z :=
  if decide (r < 0)%R then (- Int_part (- r))%Z else Int_part r.

(** [a % b] on numbers: the remainder has the sign of the dividend. *)
Definition jsRem (a b : R) : R := (a - b * IZR (Rtrunc (a / b)))%R.

(** [Math.round(r)]: the nearest integer, ties toward positive infinity. *)
Definition mathRound (r : R) : Z := Int_part (r + 0.5).

(** ** Edge attachment selector *)

Definition NUM_HANDLES : Z := 64.

(** [getHandleIndex(dx, dy)]; the result is an integer, hence in [Z]. *)
Definition getHandleIndex (dx dy : R) : Z :=
  let angle := atan2 dy dx in
  let normalizedAngle := (angle + PI / 2)%R in
  let wrappedAngle :=
    jsRem (jsRem normalizedAngle (2 * PI) + 2 * PI) (2 * PI) in
  let handleIndex :=
    Z.rem (mathRound (wrappedAngle / (2 * PI) * IZR NUM_HANDLES)) NUM_HANDLES in
  handleIndex.

(** The angle at which [PersonCircleNode] draws handle [index]:
    [(index / NUM_HANDLES) * 2 * Math.PI - Math.PI / 2]. *)
Definition handleAngle (index : Z) : R :=
  (IZR index / IZR NUM_HANDLES * 2 * PI - PI / 2)%R.

Inductive HandleType : Type := source | target.

(** [`${type}-${handleIndex}`] *)
Definition getHandleId (handleIndex : Z) (type : HandleType) : string :=
  String.append (match type with source => "source" | target => "target" end)
    (String.append "-" (pretty handleIndex)).

(** [Edge] of React Flow, with the fields this program sets. *)
Module Edge.
Record t : Type := mk {
  id : string;
  source : string;
  target : string;
  sourceHandle : option string;
  targetHandle : option string;
  type : option string;
  stroke : option string
}.
End Edge.

(** [new Map(nodes.map((n) => [n.id, n]))]: a later node of the same id
    replaces an earlier one. *)
Definition mapById (nodes : list Node.t) : gmap string Node.t :=
  foldl (fun m n => <[Node.id n := n]> m) ∅ nodes.

(** The handle recomputation of [onNodesChange] for one edge whose end
    nodes were found. *)
Definition recomputeHandles (sourceNode targetNode : Node.t) (edge : Edge.t) : Edge.t :=
  let dx := (XY.x (Node.position targetNode) - XY.x (Node.position sourceNode))%R in
  let dy := (XY.y (Node.position targetNode) - XY.y (Node.position sourceNode))%R in
  let sourceHandleIndex := getHandleIndex dx dy in
  let targetHandleIndex := getHandleIndex (- dx) (- dy) in
  Edge.mk (Edge.id edge) (Edge.source edge) (Edge.target edge)
    (Some (getHandleId sourceHandleIndex source))
    (Some (getHandleId targetHandleIndex target))
    (Edge.type edge) (Edge.stroke edge).

(** The callback of [currentEdges.map] in [onNodesChange]. *)
Definition updateEdge (nodesAfterCollision : list Node.t) (positionChangeId : string)
    (edge : Edge.t) : Edge.t :=
  let nodeById := mapById nodesAfterCollision in
  match nodeById !! Edge.source edge, nodeById !! Edge.target edge with
  | Some sourceNode, Some targetNode =>
      if negb (String.eqb (Node.id sourceNode) positionChangeId)
         && negb (String.eqb (Node.id targetNode) positionChangeId)
      then edge
      else recomputeHandles sourceNode targetNode edge
  | _, _ => edge
  end.

(** ** Initial placement *)

(** [seedRandomFromString]: [h = (h * 31 + key.charCodeAt(i)) >>> 0] keeps
    [h] below [2^32]; strings are sequences of 8-bit character codes here,
    which covers the ids of the program (UUIDs and ASCII suffixes). *)
Definition seedRandomFromString (key : string) : R :=
  let h :=
    foldl (fun h c => ((h * 31 + Z.of_N (Ascii.N_of_ascii c)) mod 2 ^ 32)%Z) 0%Z
      (String.list_ascii_of_string key) in
  (IZR (h mod 10000) / 10000)%R.

Definition centerX : R := 0.
Definition centerY : R := 0.

(** The computed placement of a direct connection. *)
Definition directInitial (person : Person.t) : XY.t :=
  let baseRadius := 200%R in
  let radiusJitter := 40%R in
  let randomAngleSeed := seedRandomFromString (String.append (Person.id person) "-angle") in
  let angle := (randomAngleSeed * 2 * PI)%R in
  let radiusRand := seedRandomFromString (String.append (Person.id person) "-radius") in
  let radius := (baseRadius + (radiusRand - 0.5) * radiusJitter)%R in
  XY.mk (centerX + cos angle * radius) (centerY + sin angle * radius).

(** The position chosen for a direct connection ([directConnections.forEach]). *)
Definition directPosition (prevById : gmap string Node.t)
    (savedPositions : gmap string XY.t) (person : Person.t) : XY.t :=
  let existing := prevById !! Person.id person in
  let savedPosition := savedPositions !! Person.id person in
  match existing with
  | Some existing => Node.position existing
  | None =>
      match savedPosition with
      | Some savedPosition => savedPosition
      | None => directInitial person
      end
  end.

(** The computed placement of child number [index] of an introducer. *)
Definition introducedInitial (introducerNode : Node.t) (children : list Person.t)
    (index : nat) (person : Person.t) : XY.t :=
  let angleToIntroducer :=
    atan2 (XY.y (Node.position introducerNode) - centerY)
          (XY.x (Node.position introducerNode) - centerX) in
  let baseOffsetRadius := 120%R in
  let radiusJitter := 30%R in
  let baseSpread := (PI / 4)%R in
  let spreadJitter := (PI / 12)%R in
  let count := Z.of_nat (length children) in
  let totalSpread := (baseSpread * IZR (Z.max (count - 1) 0))%R in
  let startAngle := (angleToIntroducer - totalSpread / 2)%R in
  let angleRand := seedRandomFromString (String.append (Person.id person) "-angle") in
  let radiusRand := seedRandomFromString (String.append (Person.id person) "-radius") in
  let baseAngle := (startAngle + INR index * baseSpread)%R in
  let angleJitter := ((angleRand - 0.5) * spreadJitter)%R in
  let angle := (baseAngle + angleJitter)%R in
  let radius := (baseOffsetRadius + (radiusRand - 0.5) * radiusJitter)%R in
  XY.mk (XY.x (Node.position introducerNode) + cos angle * radius)
        (XY.y (Node.position introducerNode) + sin angle * radius).

(** The position chosen for an introduced connection ([children.forEach]). *)
Definition introducedPosition (prevById : gmap string Node.t)
    (savedPositions : gmap string XY.t) (introducerNode : Node.t)
    (children : list Person.t) (index : nat) (person : Person.t) : XY.t :=
  let existing := prevById !! Person.id person in
  let savedPosition := savedPositions !! Person.id person in
  match existing with
  | Some existing => Node.position existing
  | None =>
      match savedPosition with
      | Some savedPosition => savedPosition
      | None => introducedInitial introducerNode children index person
      end
  end.

(** ** Position store *)

(** A computation that returns a value or throws. *)
Inductive Exc (A : Type) : Type :=
  | Ok (a : A)
  | Throw (error : string).
Arguments Ok {A} a.
Arguments Throw {A} error.

#[global] Instance Exc_ret : MRet Exc := fun A a => Ok a.
#[global] Instance Exc_bind : MBind Exc := fun A B f m =>
  match m with
  | Ok a => f a
  | Throw e => Throw e
  end.

(** [try { body } catch (error) { handler }] *)
Definition tryCatch {A : Type} (body : Exc A) (handler : string -> Exc A) : Exc A :=
  match body with
  | Ok a => Ok a
  | Throw e => handler e
  end.

(** [localStorage]: its items, and whether reading and writing succeed
    (access can be denied, the quota can be exceeded). *)
Module Storage.
Record t : Type := mk {
  items : gmap string string;
  readable : bool;
  writable : bool
}.

Definition getItem (s : t) (key : string) : Exc (option string) :=
  if readable s then Ok (items s !! key) else Throw "SecurityError".

Definition setItem (s : t) (key value : string) : Exc t :=
  if writable s then Ok (mk (<[key := value]> (items s)) (readable s) (writable s))
  else Throw "QuotaExceededError".
End Storage.

(** [user?.id] as a condition: absent and empty ids are falsy. *)
Definition truthyId (userId : option string) : option string :=
  match userId with
  | Some id => if String.eqb id "" then None else Some id
  | None => None
  end.

(** [`node-positions-${user.id}`] *)
Definition storageKey (userId : string) : string :=
  String.append "node-positions-" userId.

(** The [positions] record that [saveNodePositions] builds. *)
Definition collectPositions (nodes : list Node.t) : gmap string XY.t :=
  foldl (fun positions node =>
           if negb (String.eqb (Node.id node) "user-center")
              && negb (String.eqb (Node.id node) "fallback-user-center")
           then <[Node.id node :=
                    XY.mk (XY.x (Node.position node)) (XY.y (Node.position node))]> positions
           else positions)
        ∅ nodes.

Section PositionStore.
(** [JSON.stringify] and [JSON.parse] on position records; [JSON.parse]
    throws on a payload that is not such a record. *)
Variable JSON_stringify : gmap string XY.t -> string.
Variable JSON_parse : string -> Exc (gmap string XY.t).

(** [saveNodePositions(nodes)]: the storage after the call.  An exception
    of [setItem] is caught and logged, the storage is as before. *)
Definition saveNodePositions (userId : option string) (nodes : list Node.t)
    (storage : Storage.t) : Storage.t :=
  match truthyId userId with
  | None => storage
  | Some uid =>
      let positions := collectPositions nodes in
      match Storage.setItem storage (storageKey uid) (JSON_stringify positions) with
      | Ok storage' => storage'
      | Throw error => storage
      end
  end.

(** The [try] block of [loadNodePositions]: [Some positions] when it
    returns from inside the block, [None] when control falls through. *)
Definition loadAttempt (uid : string) (storage : Storage.t)
    : Exc (option (gmap string XY.t)) :=
  saved ← Storage.getItem storage (storageKey uid);
  match saved with
  | Some payload =>
      if String.eqb payload "" then Ok None
      else positions ← JSON_parse payload; Ok (Some positions)
  | None => Ok None
  end.

(** [loadNodePositions()] *)
Definition loadNodePositions (userId : option string) (storage : Storage.t)
    : Exc (gmap string XY.t) :=
  match truthyId userId with
  | None => Ok ∅
  | Some uid =>
      returned ← tryCatch (loadAttempt uid storage) (fun error => Ok None);
      match returned with
      | Some positions => Ok positions
      | None => Ok ∅
      end
  end.
End PositionStore.

(** ** Notions used in the statements *)

(** Everything of a node but its position. *)
Definition sameFrame (a b : Node.t) : Prop :=
  Node.id a = Node.id b /\ Node.type a = Node.type b
  /\ Node.data a = Node.data b /\ Node.draggable a = Node.draggable b.

(** How far a node was moved: the displacement magnitude. *)
Definition displacement (before after : Node.t) : R :=
  distance (Node.position before) (Node.position after).

(** The push distance of the drag-time pass for a pair at distance [d]. *)
Definition pushDistanceAt (d : R) : R := (MIN_DISTANCE - d + BOUNCE_FORCE)%R.

(** The push distance of the settle pass for a pair at distance [d]. *)
Definition settlePushDistanceAt (d : R) : R := ((MIN_DISTANCE - d) / 2 + BOUNCE_FORCE)%R.

(** The while loop stopped because the iteration cap was reached while
    collisions were still reported. *)
Definition capExhausted (s : LoopState) : Prop :=
  hasCollisions s = true /\ iterations s = maxIterations.

(** Everything of a node but its position, as a tuple. *)
Definition frame (n : Node.t) : string * option string * PersonNodeData.t * option bool :=
  (Node.id n, Node.type n, Node.data n, Node.draggable n).

(** No pair of [nodes] passes the collision test of the drag-time pass. *)
Definition quiet (nodes : list Node.t) : Prop :=
  forall i j a b, (i < j)%nat -> nodes !! i = Some a -> nodes !! j = Some b ->
    collides (Node.position a) (Node.position b) = false.

(** ** Concrete nodes *)

(** The center node that the program creates for a signed-in user. *)
Definition centerNode : Node.t :=
  Node.mk "user-center" (Some "person") (XY.mk 0 0)
    (PersonNodeData.mk "US" None (Some true) None None) (Some false).

(** A contact node as [updateNodesAndEdges] creates it, at [(x, y)]. *)
Definition contactNode (id : string) (x y : R) : Node.t :=
  Node.mk id (Some "person") (XY.mk x y)
    (PersonNodeData.mk id None None None None) None.

(** A person with a given id and introducer. *)
Definition examplePerson (id : string) (introducer_id : option string) : Person.t :=
  Person.mk id "user_1" id None None introducer_id None "2024-01-01T00:00:00Z".

(** ** Further notions and functions of the program *)

(** The collision test of the settle pass:
    [distance < MIN_DISTANCE && distance > 0]. *)
Definition settleCollides (a b : XY.t) : bool :=
  bool_decide (distance a b < MIN_DISTANCE)%R && bool_decide (distance a b > 0)%R.

(** No pair of nodes that the settle pass looks at passes its collision
    test. *)
Definition settleQuiet (nodes : list Node.t) : Prop :=
  forall i j a b, (i < j)%nat -> nodes !! i = Some a -> nodes !! j = Some b ->
    settleSkip a = false -> settleSkip b = false ->
    settleCollides (Node.position a) (Node.position b) = false.

(** The ids of the handles that [PersonCircleNode] renders:
    [`source-${index}`] and [`target-${index}`] for the indices below
    [NUM_HANDLES]. *)
Definition renderedHandleIds : list string :=
  mjoin ((fun index : nat =>
            [String.append "source-" (pretty (Z.of_nat index));
             String.append "target-" (pretty (Z.of_nat index))])
         <$> seq 0 (Z.to_nat NUM_HANDLES)).

(** The number that [getHandleIndex] passes to [Math.round]:
    [(wrappedAngle / (2 * Math.PI)) * NUM_HANDLES]. *)
Definition handlePosition (dx dy : R) : R :=
  let angle := atan2 dy dx in
  let normalizedAngle := (angle + PI / 2)%R in
  let wrappedAngle :=
    jsRem (jsRem normalizedAngle (2 * PI) + 2 * PI) (2 * PI) in
  (wrappedAngle / (2 * PI) * IZR NUM_HANDLES)%R.

(** [Math.round(t) % NUM_HANDLES], the last step of [getHandleIndex]. *)
Definition roundToHandle (t : R) : Z := Z.rem (mathRound t) NUM_HANDLES.


(** [fallbackNodes] *)
Definition fallbackNodes : list Node.t :=
  [Node.mk "fallback-user-center" (Some "person") (XY.mk 0 0)
     (PersonNodeData.mk "US" None (Some true) None None) (Some false)].


(** ** Initials *)

(** [s.trim()], [s.split(/\s+/)] and [s.toUpperCase()] on strings of 8-bit
    character codes: white space is the six ASCII white-space characters
    and letters are the ASCII letters, which is what these functions do on
    ASCII text. *)
Fixpoint trimStart (s : string) : string :=
  match s with
  | EmptyString => EmptyString
  | String a s' => if Ascii.is_space a then trimStart s' else s
  end.

Definition trimEnd (s : string) : string := String.rev (trimStart (String.rev s)).

Definition trim (s : string) : string := trimEnd (trimStart s).

(** [cur] is the piece being read, reversed; [inSeparator] tells that the
    last character belonged to a run of white space. *)
Fixpoint splitWhitespaceGo (cur : string) (inSeparator : bool) (s : string)
    : list string :=
  match s with
  | EmptyString => [String.rev cur]
  | String a s' =>
      if Ascii.is_space a then
        if inSeparator then splitWhitespaceGo cur true s'
        else String.rev cur :: splitWhitespaceGo EmptyString true s'
      else splitWhitespaceGo (String a cur) false s'
  end.

(** [s.split(/\s+/)] *)
Definition splitWhitespace (s : string) : list string :=
  splitWhitespaceGo EmptyString false s.

Definition upperChar (a : Ascii.ascii) : Ascii.ascii :=
  let n := Ascii.nat_of_ascii a in
  if (97 <=? n)%nat && (n <=? 122)%nat then Ascii.ascii_of_nat (n - 32) else a.

Fixpoint toUpperCase (s : string) : string :=
  match s with
  | EmptyString => EmptyString
  | String a s' => String (upperChar a) (toUpperCase s')
  end.

(** [Array.from(s)[k] ?? ""] *)
Definition charAt (k : nat) (s : string) : string :=
  match String.get k s with
  | Some a => String a EmptyString
  | None => EmptyString
  end.

(** Strings made of white space only, and strings without white space. *)
Fixpoint forallChars (f : Ascii.ascii -> bool) (s : string) : bool :=
  match s with
  | EmptyString => true
  | String a s' => f a && forallChars f s'
  end.

Definition allSpace (s : string) : bool := forallChars Ascii.is_space s.

Definition noSpace (s : string) : bool :=
  forallChars (fun a => negb (Ascii.is_space a)) s.

(** [x || "?"] on strings *)
Definition orQuestionMark (s : string) : string :=
  if String.eqb s "" then "?" else s.

(** [getTwoLetterInitials(name)]; [None] is [null] or [undefined]. *)
Definition getTwoLetterInitials (name : option string) : string :=
  let cleaned := trim (default "" name) in
  if String.eqb cleaned "" then "?"
  else
    let parts := filter (fun part => part <> "") (splitWhitespace cleaned) in
    if (2 <=? length parts)%nat then
      let first := charAt 0 (default "" (parts !! 0%nat)) in
      let second := charAt 0 (default "" (parts !! 1%nat)) in
      let initials := trim (String.append first second) in
      toUpperCase (orQuestionMark initials)
    else
      let chars := default "" (parts !! 0%nat) in
      let initials := trim (String.append (charAt 0 chars) (charAt 1 chars)) in
      toUpperCase (orQuestionMark initials).

(** ** Colors *)

(** [Math.floor(r)] *)
Definition mathFloor (r : R) : Z := Int_part r.

(** The hue, saturation and lightness of the two ends of the gradient
    that [generateGradientFromId] computes. *)
Definition gradientComponents (id : string) : (Z * Z * Z) * (Z * Z * Z) :=
  let seed1 := seedRandomFromString (String.append id "-gradient1") in
  let seed2 := seedRandomFromString (String.append id "-gradient2") in
  let seed3 := seedRandomFromString (String.append id "-gradient3") in
  let baseHue := mathFloor (seed1 * 360) in
  let hueVariation :=
    if decide (seed2 < 0.5)%R then 0%Z else (20 + mathFloor (seed2 * 40))%Z in
  let hueDirection := if decide (seed3 < 0.5)%R then 1%Z else (-1)%Z in
  let hue1 := baseHue in
  let hue2 := Z.rem (baseHue + hueDirection * hueVariation + 360) 360 in
  let sat1 := (70 + mathFloor (seed2 * 25))%Z in
  let sat2 := (70 + mathFloor (seed3 * 25))%Z in
  let light1 := (45 + mathFloor (seed1 * 20))%Z in
  let light2 := (50 + mathFloor (seed2 * 20))%Z in
  ((hue1, sat1, light1), (hue2, sat2, light2)).

(** [`hsl(${hue}, ${sat}%, ${light}%)`] *)
Definition hsl (hue sat light : Z) : string :=
  String.append "hsl("
    (String.append (pretty hue)
       (String.append ", "
          (String.append (pretty sat)
             (String.append "%, " (String.append (pretty light) "%)"))))).

Module Gradient.
Record t : Type := mk { from : string; to : string }.
End Gradient.

(** [generateGradientFromId(id)] *)
Definition generateGradientFromId (id : string) : Gradient.t :=
  let '((hue1, sat1, light1), (hue2, sat2, light2)) := gradientComponents id in
  Gradient.mk (hsl hue1 sat1 light1) (hsl hue2 sat2 light2).

(** The sentiment of an event: ["good" | "bad" | "neutral"]. *)
Inductive Sentiment : Type := good | bad | neutral.

#[global] Instance Sentiment_eq_dec : EqDecision Sentiment.
Proof. solve_decision. Defined.

(** [Event] of src/lib/db.ts *)
Module Event.
Record t : Type := mk {
  id : string;
  person_id : string;
  description : string;
  sentiment : Sentiment;
  created_at : string
}.
End Event.

(** [events.filter((e) => e.sentiment === s).length] *)
Definition countSentiment (s : Sentiment) (events : list Event.t) : nat :=
  length (filter (fun e => Event.sentiment e = s) events).

(** The red, green and blue channels of the mixed color of
    [calculateLineColor]. *)
Definition mixedChannels (goodCount badCount neutralCount total : nat) : Z * Z * Z :=
  let goodWeight := (INR goodCount / INR total)%R in
  let badWeight := (INR badCount / INR total)%R in
  let neutralWeight := (INR neutralCount / INR total)%R in
  let r := mathRound (34 * goodWeight + 239 * badWeight + 107 * neutralWeight) in
  let g := mathRound (197 * goodWeight + 68 * badWeight + 114 * neutralWeight) in
  let b := mathRound (94 * goodWeight + 68 * badWeight + 128 * neutralWeight) in
  (r, g, b).

(** [`rgb(${r}, ${g}, ${b})`] *)
Definition rgb (channels : Z * Z * Z) : string :=
  let '(r, g, b) := channels in
  String.append "rgb("
    (String.append (pretty r)
       (String.append ", "
          (String.append (pretty g) (String.append ", " (String.append (pretty b) ")"))))).

(** [calculateLineColor(events)] of src/lib/db.ts *)
Definition calculateLineColor (events : list Event.t) : string :=
  if (length events =? 0)%nat then "#000000"
  else
    let goodCount := countSentiment good events in
    let badCount := countSentiment bad events in
    let neutralCount := countSentiment neutral events in
    if (goodCount =? length events)%nat then "#22c55e"
    else if (badCount =? length events)%nat then "#ef4444"
    else if (neutralCount =? length events)%nat then "#6b7280"
    else rgb (mixedChannels goodCount badCount neutralCount (length events)).

(** ** Building the graph: [updateNodesAndEdges] *)

(** The signed-in user, with the fields this program reads;
    [emailAddresses] holds the [emailAddress] of each entry. *)
Module User.
Record t : Type := mk {
  id : string;
  firstName : option string;
  lastName : option string;
  emailAddresses : list string
}.
End User.

(** Truthiness of an optional string: [null], [undefined] and [""] are
    falsy. *)
Definition truthyString (s : option string) : bool :=
  match s with
  | Some s => negb (String.eqb s "")
  | None => false
  end.

(** [parts.join(separator)] *)
Fixpoint joinWith (separator : string) (parts : list string) : string :=
  match parts with
  | [] => EmptyString
  | [part] => part
  | part :: rest => String.append part (String.append separator (joinWith separator rest))
  end.

(** [[user.firstName, user.lastName].filter(Boolean).join(" ")
     || user.emailAddresses?.[0]?.emailAddress || "User"] *)
Definition userNameForInitials (user : User.t) : string :=
  let names :=
    omap (fun n => if truthyString n then n else None)
      [User.firstName user; User.lastName user] in
  let joined := joinWith " " names in
  if negb (String.eqb joined "") then joined
  else
    match head (User.emailAddresses user) with
    | Some email => if negb (String.eqb email "") then email else "User"
    | None => "User"
    end.

(** The center node of the new render. *)
Definition userNodeOf (prevById : gmap string Node.t) (userInitial : string) : Node.t :=
  match prevById !! "user-center" with
  | Some existingCenter =>
      Node.mk (Node.id existingCenter) (Node.type existingCenter)
        (Node.position existingCenter)
        (PersonNodeData.mk userInitial
           (PersonNodeData.person (Node.data existingCenter)) (Some true)
           (PersonNodeData.gradientFrom (Node.data existingCenter))
           (PersonNodeData.gradientTo (Node.data existingCenter)))
        (Node.draggable existingCenter)
  | None =>
      Node.mk "user-center" (Some "person") (XY.mk centerX centerY)
        (PersonNodeData.mk userInitial None (Some true) None None) (Some false)
  end.

(** The node of a person: the existing node with a new position and new
    data, or a new node. *)
Definition personNode (existing : option Node.t) (position : XY.t) (person : Person.t)
    : Node.t :=
  let gradient := generateGradientFromId (Person.id person) in
  let label := getTwoLetterInitials (Some (Person.name person)) in
  match existing with
  | Some existing =>
      Node.mk (Node.id existing) (Node.type existing) position
        (PersonNodeData.mk label (Some person)
           (PersonNodeData.isUser (Node.data existing))
           (Some (Gradient.from gradient)) (Some (Gradient.to gradient)))
        (Node.draggable existing)
  | None =>
      Node.mk (Person.id person) (Some "person") position
        (PersonNodeData.mk label (Some person) None
           (Some (Gradient.from gradient)) (Some (Gradient.to gradient)))
        None
  end.

(** The edge pushed for a person; its [style] is
    [{ stroke: lineColor, strokeWidth: 2 }]. *)
Definition connectionEdge (edgeId sourceId : string) (sourceNode targetNode : Node.t)
    (person : Person.t) (allEvents : list Event.t) : Edge.t :=
  let personEvents := filter (fun e => Event.person_id e = Person.id person) allEvents in
  let lineColor := calculateLineColor personEvents in
  let dx := (XY.x (Node.position targetNode) - XY.x (Node.position sourceNode))%R in
  let dy := (XY.y (Node.position targetNode) - XY.y (Node.position sourceNode))%R in
  let sourceHandleIndex := getHandleIndex dx dy in
  let targetHandleIndex := getHandleIndex (- dx) (- dy) in
  Edge.mk edgeId sourceId (Person.id person)
    (Some (getHandleId sourceHandleIndex source))
    (Some (getHandleId targetHandleIndex target))
    (Some "default") (Some lineColor).

(** The body of [directConnections.forEach] on the arrays [nodes] and
    [edges]. *)
Definition directStep (prevById : gmap string Node.t) (savedPositions : gmap string XY.t)
    (allEvents : list Event.t) (userNode : Node.t)
    (st : list Node.t * list Edge.t) (person : Person.t) : list Node.t * list Edge.t :=
  let existing := prevById !! Person.id person in
  let position := directPosition prevById savedPositions person in
  let node := personNode existing position person in
  let edge :=
    connectionEdge (String.append "edge-user-" (Person.id person)) "user-center"
      userNode node person allEvents in
  (st.1 ++ [node], st.2 ++ [edge]).

(** [childrenByIntroducer], a [Map] in insertion order: a new introducer
    goes last, a known one keeps its place and gets the child appended. *)
Fixpoint groupInsert (introducerId : string) (person : Person.t)
    (groups : list (string * list Person.t)) : list (string * list Person.t) :=
  match groups with
  | [] => [(introducerId, [person])]
  | (key, children) :: rest =>
      if String.eqb key introducerId then (key, children ++ [person]) :: rest
      else (key, children) :: groupInsert introducerId person rest
  end.

Definition groupStep (groups : list (string * list Person.t)) (person : Person.t)
    : list (string * list Person.t) :=
  if negb (truthyString (Person.introducer_id person))
     || bool_decide (Person.introducer_id person = Some (Person.id person))
  then groups
  else groupInsert (default "" (Person.introducer_id person)) person groups.

Definition childrenByIntroducer (introducedConnections : list Person.t)
    : list (string * list Person.t) :=
  foldl groupStep [] introducedConnections.

(** The body of [children.forEach((person, index) => ...)]. *)
Definition childStep (prevById : gmap string Node.t) (savedPositions : gmap string XY.t)
    (allEvents : list Event.t) (introducerId : string) (introducerNode : Node.t)
    (children : list Person.t)
    (st : list Node.t * list Edge.t) (child : nat * Person.t) : list Node.t * list Edge.t :=
  let '(index, person) := child in
  let existing := prevById !! Person.id person in
  let position :=
    introducedPosition prevById savedPositions introducerNode children index person in
  let node := personNode existing position person in
  let edge :=
    connectionEdge
      (String.append "edge-" (String.append introducerId
                                (String.append "-" (Person.id person))))
      introducerId introducerNode node person allEvents in
  (st.1 ++ [node], st.2 ++ [edge]).

(** The body of [childrenByIntroducer.forEach((children, introducerId) => ...)]:
    the introducer is looked up among the nodes built so far, then among
    the nodes of the previous render; without it the children are left
    out. *)
Definition introducerStep (prevById : gmap string Node.t)
    (savedPositions : gmap string XY.t) (allEvents : list Event.t)
    (st : list Node.t * list Edge.t) (group : string * list Person.t)
    : list Node.t * list Edge.t :=
  let '(introducerId, children) := group in
  let introducerNode :=
    match List.find (fun n => String.eqb (Node.id n) introducerId) st.1 with
    | Some n => Some n
    | None => prevById !! introducerId
    end in
  match introducerNode with
  | None => st
  | Some introducerNode =>
      foldl (childStep prevById savedPositions allEvents introducerId introducerNode children)
        st (zip (seq 0 (length children)) children)
  end.

(** The arrays [nodes] and [edges] before the settle pass. *)
Definition buildGraph (user : User.t) (prevNodes : list Node.t)
    (savedPositions : gmap string XY.t) (peopleList : list Person.t)
    (allEvents : list Event.t) : list Node.t * list Edge.t :=
  let prevById := mapById prevNodes in
  let userInitial := getTwoLetterInitials (Some (userNameForInitials user)) in
  let userNode := userNodeOf prevById userInitial in
  let directConnections :=
    filter (fun p => truthyString (Person.introducer_id p) = false) peopleList in
  let introducedConnections :=
    filter (fun p => truthyString (Person.introducer_id p) = true) peopleList in
  let afterDirect :=
    foldl (directStep prevById savedPositions allEvents userNode) ([userNode], [])
      directConnections in
  foldl (introducerStep prevById savedPositions allEvents) afterDirect
    (childrenByIntroducer introducedConnections).

(** [updateNodesAndEdges(peopleList, allEvents)]: the new node and edge
    states, or [None] when there is no user and nothing is set. *)
Definition updateNodesAndEdges (JSON_parse : string -> Exc (gmap string XY.t))
    (user : option User.t) (storage : Storage.t) (prevNodes : list Node.t)
    (peopleList : list Person.t) (allEvents : list Event.t)
    : option (list Node.t * list Edge.t) :=
  match user with
  | None => None
  | Some user =>
      let savedPositions :=
        match loadNodePositions JSON_parse (Some (User.id user)) storage with
        | Ok positions => positions
        | Throw error => ∅
        end in
      let built := buildGraph user prevNodes savedPositions peopleList allEvents in
      Some (settleInitialLayout built.1, built.2)
  end.

(** What a step of the construction adds: nodes and edges for the people
    [added], every edge leaving from [sourceId]. *)
Definition extends (sourceId : string) (added : list Person.t)
    (st st' : list Node.t * list Edge.t) : Prop :=
  exists nodes' edges',
    st' = (st.1 ++ nodes', st.2 ++ edges')
    /\ Node.id <$> nodes' = Person.id <$> added
    /\ Edge.target <$> edges' = Person.id <$> added
    /\ Forall (fun e => Edge.source e = sourceId
                        /\ exists hs ht, Edge.sourceHandle e = Some hs
                             /\ Edge.targetHandle e = Some ht
                             /\ hs ∈ renderedHandleIds /\ ht ∈ renderedHandleIds) edges'.

(** The shape of the arrays [nodes] and [edges] during the construction:
    the center first, then one edge per further node, pointing at it;
    every edge leaves from a node of the new or of the previous render and
    is attached to rendered handles. *)
Definition graphInvariant (prevNodes : list Node.t) (st : list Node.t * list Edge.t) : Prop :=
  exists center rest,
    st.1 = center :: rest
    /\ Node.id center = "user-center"
    /\ Edge.target <$> st.2 = Node.id <$> rest
    /\ Forall (fun e => (Edge.source e ∈ Node.id <$> st.1
                         \/ Edge.source e ∈ Node.id <$> prevNodes)
                        /\ exists hs ht, Edge.sourceHandle e = Some hs
                             /\ Edge.targetHandle e = Some ht
                             /\ hs ∈ renderedHandleIds /\ ht ∈ renderedHandleIds) st.2.

(** The people that [introducedConnections.forEach] puts into a group. *)
Definition grouped (person : Person.t) : Prop :=
  truthyString (Person.introducer_id person) = true
  /\ Person.introducer_id person <> Some (Person.id person).

(** The shape of [childrenByIntroducer] while it is filled from [people]:
    every key is the introducer of one of them, and the children under a
    key are grouped people introduced by that key. *)
Definition groupInvariant (people : list Person.t)
    (groups : list (string * list Person.t)) : Prop :=
  Forall (fun g => (exists q, q ∈ people /\ Person.introducer_id q = Some g.1)
                   /\ Forall (fun q => q ∈ people /\ grouped q
                                       /\ Person.introducer_id q = Some g.1) g.2)
    groups.

(** The people that can get a node: direct connections, and grouped people
    whose introducer is the center, a person of the list, or a node of the
    previous render. *)
Definition placeable (prevNodes : list Node.t) (peopleList : list Person.t)
    (person : Person.t) : Prop :=
  truthyString (Person.introducer_id person) = false
  \/ (grouped person
      /\ exists introducerId,
           Person.introducer_id person = Some introducerId
           /\ (introducerId ∈ "user-center" :: (Person.id <$> peopleList)
               \/ introducerId ∈ Node.id <$> prevNodes)).

(** * Properties *)

(** ** Folds over index ranges *)

Lemma foldl_invariant {A B : Type} (P : A -> Prop) (Q : B -> Prop) (f : A -> B -> A) :
  (forall a b, P a -> Q b -> P (f a b)) ->
  forall l a, Forall Q l -> P a -> P (foldl f a l).
Proof.
  intros Hstep l. induction l as [|b l IH]; intros a Hl Ha; simpl; [done|].
  inversion Hl; subst. apply IH; auto.
Qed.

(** A fold whose final flag is still [false] never changed its state. *)
Lemma foldl_quiet {S B : Type} (f : S * bool -> B -> S * bool) (Q : S -> B -> Prop) :
  (forall st b, (f st b).2 = false -> f st b = st /\ Q st.1 b) ->
  forall l st, (foldl f st l).2 = false -> foldl f st l = st /\ Forall (Q st.1) l.
Proof.
  intros Hstep l. induction l as [|b l IH]; intros st Hflag; simpl in *.
  - split; [done | constructor].
  - destruct (IH _ Hflag) as [Heq Hall].
    rewrite Heq in Hflag. destruct (Hstep _ _ Hflag) as [Hst Hq].
    rewrite Hst in Heq, Hall |- *. split; [done | by constructor].
Qed.

Lemma foldl_still {A B : Type} (f : A -> B -> A) (a : A) (l : list B) :
  Forall (fun b => f a b = a) l -> foldl f a l = a.
Proof.
  induction 1 as [|b l Hb _ IH]; simpl; [done|]. by rewrite Hb.
Qed.

Lemma Forall_seq_above (i n : nat) : Forall (fun j => i < j)%nat (seq (S i) n).
Proof. apply Forall_seq. intros j Hj. lia. Qed.

(** ** Moving one node *)

Lemma movePosition_lookup k f (nodes : list Node.t) cur :
  nodes !! k = Some cur ->
  movePosition k f nodes !! k = Some (Node.withPosition cur (f (Node.position cur))).
Proof.
  intros Hk. unfold movePosition. rewrite Hk.
  apply list_lookup_insert_eq. by eapply lookup_lt_Some.
Qed.

Lemma movePosition_lookup_ne k k' f (nodes : list Node.t) :
  k <> k' -> movePosition k f nodes !! k' = nodes !! k'.
Proof.
  intros Hne. unfold movePosition. destruct (nodes !! k); [|done].
  by apply list_lookup_insert_ne.
Qed.

Lemma withPosition_same (n : Node.t) : Node.withPosition n (Node.position n) = n.
Proof. by destruct n. Qed.

Lemma movePosition_frame k f nodes : frame <$> movePosition k f nodes = frame <$> nodes.
Proof.
  unfold movePosition. destruct (nodes !! k) as [cur|] eqn:Hk; [|done].
  rewrite list_fmap_insert. apply list_insert_id.
  rewrite list_lookup_fmap, Hk. by destruct cur.
Qed.

(** ** One correction of the drag-time pass *)

Lemma collisionBody_Some c i j nodeA nodeB nodes nodes' :
  collisionBody c i j nodeA nodeB nodes = Some nodes' ->
  let d := distance (Node.position nodeA) (Node.position nodeB) in
  let ux := ((XY.x (Node.position nodeB) - XY.x (Node.position nodeA)) / d)%R in
  let uy := ((XY.y (Node.position nodeB) - XY.y (Node.position nodeA)) / d)%R in
  let sh := pushShares c nodeA nodeB (pushDistanceAt d) in
  collides (Node.position nodeA) (Node.position nodeB) = true
  /\ nodes' =
       movePosition j (fun p => XY.mk (XY.x p + ux * sh.2) (XY.y p + uy * sh.2))
         (movePosition i (fun p => XY.mk (XY.x p - ux * sh.1) (XY.y p - uy * sh.1)) nodes).
Proof.
  unfold collisionBody, collides, distance, pushDistanceAt. cbv zeta.
  destruct (_ && _); [|done].
  destruct (pushShares _ _ _ _) as [pushA pushB]. intros [= <-]. done.
Qed.

Lemma collisionBody_None c i j nodeA nodeB nodes :
  collides (Node.position nodeA) (Node.position nodeB) = false ->
  collisionBody c i j nodeA nodeB nodes = None.
Proof.
  unfold collisionBody, collides, distance. cbv zeta. by intros ->.
Qed.

Lemma collisionBody_None_inv c i j nodeA nodeB nodes :
  collisionBody c i j nodeA nodeB nodes = None ->
  collides (Node.position nodeA) (Node.position nodeB) = false.
Proof.
  unfold collisionBody, collides, distance. cbv zeta.
  destruct (_ && _); [|done]. by destruct (pushShares _ _ _ _).
Qed.

Lemma collisionBody_frame c i j nodeA nodeB nodes nodes' :
  collisionBody c i j nodeA nodeB nodes = Some nodes' ->
  frame <$> nodes' = frame <$> nodes.
Proof.
  intros H. apply collisionBody_Some in H as [_ ->].
  by rewrite !movePosition_frame.
Qed.

Lemma frame_length (l k : list Node.t) : frame <$> l = frame <$> k -> length l = length k.
Proof. intros H. by rewrite <- (length_fmap frame l), H, length_fmap. Qed.

(** ** Invariants of the drag-time loops *)

Section DragInvariant.
Variable I : list Node.t -> Prop.
Variable c : option string.

Lemma innerLoop_invariant i nodeA :
  (forall nodes j nodeB nodes',
      I nodes -> (i < j)%nat -> nodes !! j = Some nodeB ->
      collisionBody c i j nodeA nodeB nodes = Some nodes' -> I nodes') ->
  forall st, I st.1 -> I (innerLoop c i nodeA st).1.
Proof.
  intros Hbody st Hst. unfold innerLoop.
  apply (foldl_invariant (fun st => I st.1) (fun j => i < j)%nat);
    [|apply Forall_seq_above|done].
  intros st' j Hst' Hj. unfold innerStep.
  destruct (st'.1 !! j) as [nodeB|] eqn:HB; [|done].
  destruct (collisionBody _ _ _ _ _ _) as [nodes'|] eqn:Hc; [|done].
  simpl. eauto.
Qed.

Lemma pass_invariant :
  (forall nodes0 i nodeA, I nodes0 -> nodes0 !! i = Some nodeA ->
    forall nodes j nodeB nodes',
      I nodes -> (i < j)%nat -> nodes !! j = Some nodeB ->
      collisionBody c i j nodeA nodeB nodes = Some nodes' -> I nodes') ->
  forall nodes, I nodes -> I (pass c nodes).1.
Proof.
  intros Hbody nodes Hn. unfold pass.
  apply (foldl_invariant (fun st => I st.1) (fun _ => True));
    [|by apply Forall_true|done].
  intros st i Hst _. unfold outerStep.
  destruct (st.1 !! i) as [nodeA|] eqn:HA; [|done].
  apply innerLoop_invariant; [|done]. by eapply Hbody.
Qed.
End DragInvariant.

Lemma whileLoop_invariant (I : list Node.t -> Prop) p :
  (forall nodes, I nodes -> I (p nodes).1) ->
  forall fuel s, I (updatedNodes s) -> I (updatedNodes (whileLoop p fuel s)).
Proof.
  intros Hp fuel. induction fuel as [|fuel IH]; intros s Hs; simpl; [done|].
  destruct (loopCond s); [|done]. apply IH. simpl. by apply Hp.
Qed.

Lemma detectAndResolveCollisions_invariant (I : list Node.t -> Prop) c :
  (forall nodes0 i nodeA, I nodes0 -> nodes0 !! i = Some nodeA ->
    forall nodes j nodeB nodes',
      I nodes -> (i < j)%nat -> nodes !! j = Some nodeB ->
      collisionBody c i j nodeA nodeB nodes = Some nodes' -> I nodes') ->
  forall nodes, I nodes -> I (detectAndResolveCollisions nodes c).
Proof.
  intros Hbody nodes Hn. unfold detectAndResolveCollisions, resolveState.
  apply whileLoop_invariant.
  - intros l Hl. by apply pass_invariant.
  - simpl. by rewrite list_fmap_id.
Qed.

Lemma detectAndResolveCollisions_frame nodes c :
  frame <$> detectAndResolveCollisions nodes c = frame <$> nodes.
Proof.
  apply (detectAndResolveCollisions_invariant
           (fun l => frame <$> l = frame <$> nodes)); [|done].
  intros _ i nodeA _ _ l j nodeB l' Hl _ _ Hc.
  by rewrite (collisionBody_frame _ _ _ _ _ _ _ Hc).
Qed.

(** C10. For every node list and every (possibly absent) active id, the
    drag-time collision resolver returns a list of the same length, with
    the same ids in the same order, in which every node agrees with the
    input node at its index on every field other than [position] (id,
    type, data, draggable). *)
Theorem resolver_preserves_frame (nodes : list Node.t) (changedNodeId : option string) :
  let result := detectAndResolveCollisions nodes changedNodeId in
  length result = length nodes
  /\ Node.id <$> result = Node.id <$> nodes
  /\ Forall2 sameFrame nodes result.
Proof.
  intros result. pose proof (detectAndResolveCollisions_frame nodes changedNodeId) as Hf.
  fold result in Hf. split; [by apply frame_length|]. split.
  - assert (Hid : forall l : list Node.t, Node.id <$> l = (fun t => t.1.1.1) <$> (frame <$> l)).
    { intros l. rewrite <- list_fmap_compose. done. }
    by rewrite !Hid, Hf.
  - apply Forall2_same_length_lookup. split; [symmetry; by apply frame_length|].
    intros i a b Ha Hb.
    assert (Hi : (frame <$> result) !! i = (frame <$> nodes) !! i) by by rewrite Hf.
    rewrite !list_lookup_fmap, Ha, Hb in Hi. simpl in Hi.
    injection Hi as H1 H2 H3 H4. unfold sameFrame. done.
Qed.

(** ** Passes that correct nothing *)


Lemma innerLoop_quiet c i nodeA st :
  (innerLoop c i nodeA st).2 = false ->
  innerLoop c i nodeA st = st
  /\ forall j b, (i < j)%nat -> st.1 !! j = Some b ->
       collides (Node.position nodeA) (Node.position b) = false.
Proof.
  intros Hflag. unfold innerLoop in *.
  apply (foldl_quiet _ (fun nodes j => forall b, nodes !! j = Some b ->
           collides (Node.position nodeA) (Node.position b) = false)) in Hflag.
  - destruct Hflag as [Heq Hall]. split; [done|].
    intros j b Hij Hb. rewrite Forall_seq in Hall. apply (Hall j); [|done].
    apply lookup_lt_Some in Hb. lia.
  - clear. intros st j. unfold innerStep.
    destruct (st.1 !! j) as [nodeB|] eqn:HB; [|done].
    destruct (collisionBody _ _ _ _ _ _) eqn:Hc; [done|].
    intros _. split; [done|]. intros b [= <-].
    by eapply collisionBody_None_inv.
Qed.

Lemma pass_quiet c nodes :
  (pass c nodes).2 = false -> pass c nodes = (nodes, false) /\ quiet nodes.
Proof.
  intros Hflag. unfold pass in *.
  apply (foldl_quiet _ (fun nodes i => forall a, nodes !! i = Some a ->
           forall j b, (i < j)%nat -> nodes !! j = Some b ->
             collides (Node.position a) (Node.position b) = false)) in Hflag.
  - destruct Hflag as [Heq Hall]. split; [done|].
    intros i j a b Hij Ha Hb. rewrite Forall_seq in Hall.
    apply (Hall i) with (j := j); [|done..].
    apply lookup_lt_Some in Ha. lia.
  - clear. intros st i. unfold outerStep.
    destruct (st.1 !! i) as [nodeA|] eqn:HA; [|done].
    intros Hflag. apply innerLoop_quiet in Hflag as [Heq Hq].
    split; [done|]. intros a [= <-]. done.
Qed.

Lemma pass_still c nodes : quiet nodes -> pass c nodes = (nodes, false).
Proof.
  intros Hq. unfold pass. apply foldl_still, Forall_seq. intros i _.
  unfold outerStep. simpl. destruct (nodes !! i) as [nodeA|] eqn:HA; [|done].
  unfold innerLoop. apply foldl_still, Forall_seq. intros j Hj.
  unfold innerStep. simpl. destruct (nodes !! j) as [nodeB|] eqn:HB; [|done].
  rewrite collisionBody_None; [done|]. apply (Hq i j); [lia|done..].
Qed.

(** ** The while loop *)

(** The fuel suffices: the loop ends because its condition is false. *)
Lemma whileLoop_exits p fuel s :
  (maxIterations <= iterations s + fuel)%nat ->
  loopCond (whileLoop p fuel s) = false.
Proof.
  revert s. induction fuel as [|fuel IH]; intros s Hs; simpl.
  - unfold loopCond. replace (iterations s <? maxIterations)%nat with false.
    + apply andb_false_r.
    + symmetry. apply Nat.ltb_ge. lia.
  - destruct (loopCond s) eqn:Hc; [|done]. apply IH. simpl. lia.
Qed.

Lemma whileLoop_state_invariant (J : LoopState -> Prop) p :
  (forall s, loopCond s = true -> J s -> J (loopBody p s)) ->
  forall fuel s, J s -> J (whileLoop p fuel s).
Proof.
  intros Hbody fuel. induction fuel as [|fuel IH]; intros s Hs; simpl; [done|].
  destruct (loopCond s) eqn:Hc; [|done]. apply IH. by apply Hbody.
Qed.

Lemma resolveState_exits nodes c : loopCond (resolveState nodes c) = false.
Proof. apply whileLoop_exits. simpl. lia. Qed.

Lemma settleState_exits nodes : loopCond (settleState nodes) = false.
Proof. apply whileLoop_exits. simpl. lia. Qed.

(** When the loop ends without a reported collision, no pair collides;
    the iteration counter never passes the cap. *)
Lemma resolveState_settled nodes c :
  let s := resolveState nodes c in
  (hasCollisions s = false -> quiet (updatedNodes s))
  /\ (iterations s <= maxIterations)%nat.
Proof.
  apply (whileLoop_state_invariant
           (fun s => (hasCollisions s = false -> quiet (updatedNodes s))
                     /\ (iterations s <= maxIterations)%nat)).
  - intros s Hc [_ _]. unfold loopCond in Hc.
    apply andb_true_iff in Hc as [_ Hlt]. apply Nat.ltb_lt in Hlt.
    split; [|simpl; lia]. simpl. intros Hflag.
    apply pass_quiet in Hflag as [-> Hq]. done.
  - split; [done | unfold maxIterations; simpl; lia].
Qed.

Lemma resolveState_quiet nodes c :
  quiet nodes -> resolveState nodes c = mkLoopState nodes false 1.
Proof.
  intros Hq. unfold resolveState. rewrite list_fmap_id.
  change maxIterations with (S (S 8)). cbn [whileLoop].
  unfold loopCond at 1. cbn [hasCollisions iterations andb].
  replace (0 <? maxIterations)%nat with true by done.
  unfold loopBody. cbn [updatedNodes iterations]. rewrite (pass_still _ _ Hq).
  done.
Qed.

Lemma distance_sym a b : distance a b = distance b a.
Proof. unfold distance. f_equal. ring. Qed.

Lemma collides_false a b :
  collides a b = false ->
  (MIN_DISTANCE <= distance a b)%R \/ (distance a b <= 0.1)%R.
Proof.
  unfold collides. intros H. apply andb_false_iff in H as [H|H].
  - left. apply bool_decide_eq_false in H. lra.
  - right. apply bool_decide_eq_false in H. lra.
Qed.

Lemma collides_separated a b :
  (MIN_DISTANCE <= distance a b)%R -> collides a b = false.
Proof.
  intros H. unfold collides. apply andb_false_iff. left.
  apply bool_decide_eq_false. lra.
Qed.

(** C6, amended. After the drag-time resolver returns, every pair of
    distinct nodes of the result (self-anchor or not) is at distance at
    least [MIN_DISTANCE], or at distance at most 0.1 (such near-coincident
    pairs are skipped by the collision test), or the loop stopped because
    the iteration cap was exhausted. *)
Theorem resolver_separation (nodes : list Node.t) (changedNodeId : option string)
    (i j : nat) (a b : Node.t) :
  i <> j ->
  detectAndResolveCollisions nodes changedNodeId !! i = Some a ->
  detectAndResolveCollisions nodes changedNodeId !! j = Some b ->
  (MIN_DISTANCE <= distance (Node.position a) (Node.position b))%R
  \/ (distance (Node.position a) (Node.position b) <= 0.1)%R
  \/ capExhausted (resolveState nodes changedNodeId).
Proof.
  intros Hij Ha Hb. unfold detectAndResolveCollisions in *.
  pose proof (resolveState_exits nodes changedNodeId) as Hexit.
  destruct (resolveState_settled nodes changedNodeId) as [Hquiet Hle].
  unfold loopCond in Hexit.
  destruct (hasCollisions (resolveState nodes changedNodeId)) eqn:Hflag.
  - right. right. split; [done|]. simpl in Hexit. apply Nat.ltb_ge in Hexit. lia.
  - specialize (Hquiet eq_refl).
    destruct (decide (i < j)%nat) as [Hlt|Hge].
    + destruct (collides_false _ _ (Hquiet i j a b Hlt Ha Hb)); auto.
    + assert (Hlt : (j < i)%nat) by lia.
      rewrite (distance_sym (Node.position a)).
      destruct (collides_false _ _ (Hquiet j i b a Hlt Hb Ha)); auto.
Qed.

(** C7. When every pair of distinct nodes of the input is at distance at
    least [MIN_DISTANCE] (equality included: it is not a collision), the
    drag-time resolver returns the input unchanged. *)
Theorem resolver_fixpoint (nodes : list Node.t) (changedNodeId : option string) :
  (forall i j a b, i <> j -> nodes !! i = Some a -> nodes !! j = Some b ->
     (MIN_DISTANCE <= distance (Node.position a) (Node.position b))%R) ->
  detectAndResolveCollisions nodes changedNodeId = nodes.
Proof.
  intros Hsep. unfold detectAndResolveCollisions.
  rewrite resolveState_quiet; [done|].
  intros i j a b Hij Ha Hb. apply collides_separated, (Hsep i j); [lia|done..].
Qed.


(** Distances along a horizontal line. *)
Lemma distance_horizontal x1 x2 y : distance (XY.mk x1 y) (XY.mk x2 y) = Rabs (x2 - x1).
Proof.
  unfold distance. simpl.
  replace ((x2 - x1) * (x2 - x1) + (y - y) * (y - y))%R with (Rsqr (x2 - x1))
    by (unfold Rsqr; ring).
  apply sqrt_Rsqr_abs.
Qed.

Lemma MIN_DISTANCE_value : MIN_DISTANCE = 31.25%R.
Proof. unfold MIN_DISTANCE, NODE_RADIUS. lra. Qed.

(** Two-element lists: a property of the pair of indices [0 < 1]. *)
Lemma quiet_two a b :
  collides (Node.position a) (Node.position b) = false -> quiet [a; b].
Proof.
  intros H i j a' b' Hij Ha Hb.
  destruct i as [|[|i]], j as [|[|j]]; simpl in *; try lia; try done.
  by injection Ha as <-; injection Hb as <-.
Qed.

(** ** Anchor invariance *)

Lemma shift_zero (p : XY.t) (ux uy : R) :
  XY.mk (XY.x p - ux * 0) (XY.y p - uy * 0) = p
  /\ XY.mk (XY.x p + ux * 0) (XY.y p + uy * 0) = p.
Proof. destruct p as [px py]. simpl. split; f_equal; ring. Qed.

Lemma frame_lookup_id (l k : list Node.t) i a :
  frame <$> l = frame <$> k -> l !! i = Some a ->
  exists b, k !! i = Some b /\ Node.id b = Node.id a.
Proof.
  intros Hf Ha.
  assert (Hi : (frame <$> k) !! i = (frame <$> l) !! i) by by rewrite Hf.
  rewrite !list_lookup_fmap, Ha in Hi. simpl in Hi.
  destruct (k !! i) as [b|]; [|done]. exists b. split; [done|].
  by injection Hi as -> _ _ _.
Qed.

Lemma pushShares_anchor_first c nodeA nodeB pd :
  isUserCenter (Node.id nodeA) = true -> pushShares c nodeA nodeB pd = (0%R, pd).
Proof. unfold pushShares. by intros ->. Qed.

Lemma pushShares_anchor_second c nodeA nodeB pd :
  isUserCenter (Node.id nodeA) = false -> isUserCenter (Node.id nodeB) = true ->
  pushShares c nodeA nodeB pd = (pd, 0%R).
Proof. unfold pushShares. by intros -> ->. Qed.

Lemma resolver_keeps_first_anchor nodes c k anchor :
  nodes !! k = Some anchor ->
  isUserCenter (Node.id anchor) = true ->
  (forall j b, (j < k)%nat -> nodes !! j = Some b -> isUserCenter (Node.id b) = false) ->
  detectAndResolveCollisions nodes c !! k = Some anchor.
Proof.
  intros Hk Hanchor Hfirst.
  apply (detectAndResolveCollisions_invariant
           (fun l => frame <$> l = frame <$> nodes /\ l !! k = Some anchor)); [|done].
  intros nodes0 i nodeA [Hf0 Hk0] HA l j nodeB l' [Hf Hkl] Hij HB Hc.
  split; [by rewrite (collisionBody_frame _ _ _ _ _ _ _ Hc)|].
  apply collisionBody_Some in Hc as [_ ->]. cbv zeta.
  destruct (decide (k = i)) as [->|Hki]; [|destruct (decide (k = j)) as [->|Hkj]].
  - assert (nodeA = anchor) as -> by congruence.
    rewrite movePosition_lookup_ne by lia.
    rewrite (movePosition_lookup _ _ _ _ Hkl).
    rewrite pushShares_anchor_first by done. simpl.
    rewrite (proj1 (shift_zero _ _ _)). by rewrite withPosition_same.
  - assert (nodeB = anchor) as -> by congruence.
    destruct (frame_lookup_id _ _ _ _ Hf0 HA) as (o & Ho & Hid).
    assert (HnotA : isUserCenter (Node.id nodeA) = false).
    { rewrite <- Hid. by apply (Hfirst i o). }
    erewrite movePosition_lookup; [|by rewrite movePosition_lookup_ne by lia].
    rewrite pushShares_anchor_second by done. simpl.
    rewrite (proj2 (shift_zero _ _ _)). by rewrite withPosition_same.
  - by rewrite !movePosition_lookup_ne by done.
Qed.

(** Invariants of the settle loops. *)
Lemma settlePass_invariant (I : list Node.t -> Prop) :
  (forall nodes0 i nodeA, I nodes0 -> nodes0 !! i = Some nodeA ->
    settleSkip nodeA = false ->
    forall nodes j nodeB nodes',
      I nodes -> (i < j)%nat -> nodes !! j = Some nodeB ->
      settleSkip nodeB = false ->
      settleBody i j nodeA nodeB nodes = Some nodes' -> I nodes') ->
  forall nodes, I nodes -> I (settlePass nodes).1.
Proof.
  intros Hbody nodes Hn. unfold settlePass.
  apply (foldl_invariant (fun st => I st.1) (fun _ => True));
    [|by apply Forall_true|done].
  intros st i Hst _. unfold settleOuterStep.
  destruct (st.1 !! i) as [nodeA|] eqn:HA; [|done].
  destruct (settleSkip nodeA) eqn:HsA; [done|].
  apply (foldl_invariant (fun st => I st.1) (fun j => i < j)%nat);
    [|apply Forall_seq_above|done].
  intros st' j Hst' Hj. unfold settleInnerStep.
  destruct (st'.1 !! j) as [nodeB|] eqn:HB; [|done].
  destruct (settleSkip nodeB) eqn:HsB; [done|].
  destruct (settleBody _ _ _ _ _) as [nodes'|] eqn:Hc; [|done].
  simpl. eapply (Hbody st.1 i nodeA); eauto.
Qed.

Lemma settleBody_Some i j nodeA nodeB nodes nodes' :
  settleBody i j nodeA nodeB nodes = Some nodes' ->
  exists newA newB, nodes' = <[j := newB]> (<[i := newA]> nodes).
Proof.
  unfold settleBody. cbv zeta. destruct (_ && _); [|done].
  intros [= <-]. eauto.
Qed.

Lemma settle_keeps_anchor nodes k anchor :
  nodes !! k = Some anchor ->
  settleSkip anchor = true ->
  settleInitialLayout nodes !! k = Some anchor.
Proof.
  intros Hk Hskip. unfold settleInitialLayout, settleState.
  apply (whileLoop_invariant (fun l => l !! k = Some anchor)); [|done].
  apply settlePass_invariant.
  intros nodes0 i nodeA Hk0 HA HsA l j nodeB l' Hkl Hij HB HsB Hc.
  apply settleBody_Some in Hc as (newA & newB & ->).
  assert (k <> i) by (intros ->; congruence).
  assert (k <> j) by (intros ->; congruence).
  by rewrite !list_lookup_insert_ne by done.
Qed.

(** C2. The self-anchor is not moved by a run of the collision resolver.
    Drag-time resolver: for every node list and every (possibly absent)
    active id, the node carrying a reserved anchor id that no other
    anchor-id node precedes (in particular the only one) is returned as
    it was.  Settle pass: the non-draggable ["user-center"] node is
    returned as it was.  Nothing is assumed about the other nodes. *)
Theorem anchor_invariance (nodes : list Node.t) (changedNodeId : option string)
    (k : nat) (anchor : Node.t) :
  nodes !! k = Some anchor ->
  (isUserCenter (Node.id anchor) = true ->
   (forall j b, (j < k)%nat -> nodes !! j = Some b -> isUserCenter (Node.id b) = false) ->
   exists anchor', detectAndResolveCollisions nodes changedNodeId !! k = Some anchor'
                   /\ Node.position anchor' = Node.position anchor)
  /\ (Node.id anchor = "user-center" -> Node.draggable anchor <> Some true ->
      exists anchor', settleInitialLayout nodes !! k = Some anchor'
                      /\ Node.position anchor' = Node.position anchor).
Proof.
  intros Hk. split.
  - intros Hanchor Hfirst. exists anchor. split; [|done].
    by apply resolver_keeps_first_anchor.
  - intros Hid Hdrag. exists anchor. split; [|done].
    apply settle_keeps_anchor; [done|]. unfold settleSkip. rewrite Hid. simpl.
    by destruct (Node.draggable anchor) as [[]|].
Qed.

(** ** What one correction does to the pair *)

Lemma unit_vector_norm (dx dy : R) :
  let d := sqrt (dx * dx + dy * dy) in
  (0 < d)%R -> (dx / d * (dx / d) + dy / d * (dy / d) = 1)%R.
Proof.
  intros d Hd.
  assert (Hsq : (d * d = dx * dx + dy * dy)%R).
  { unfold d. apply sqrt_sqrt. nra. }
  replace (dx / d * (dx / d) + dy / d * (dy / d))%R
    with ((dx * dx + dy * dy) / (d * d))%R by (field; lra).
  rewrite <- Hsq. field. lra.
Qed.

Lemma moved_distance (p : XY.t) (ux uy s : R) :
  (ux * ux + uy * uy = 1)%R -> (0 <= s)%R ->
  distance p (XY.mk (XY.x p - ux * s) (XY.y p - uy * s)) = s
  /\ distance p (XY.mk (XY.x p + ux * s) (XY.y p + uy * s)) = s.
Proof.
  intros Hu Hs. unfold distance. simpl. split.
  - replace ((XY.x p - ux * s - XY.x p) * (XY.x p - ux * s - XY.x p)
             + (XY.y p - uy * s - XY.y p) * (XY.y p - uy * s - XY.y p))%R
      with (s * s * (ux * ux + uy * uy))%R by ring.
    rewrite Hu, Rmult_1_r. by apply sqrt_square.
  - replace ((XY.x p + ux * s - XY.x p) * (XY.x p + ux * s - XY.x p)
             + (XY.y p + uy * s - XY.y p) * (XY.y p + uy * s - XY.y p))%R
      with (s * s * (ux * ux + uy * uy))%R by ring.
    rewrite Hu, Rmult_1_r. by apply sqrt_square.
Qed.

Lemma collides_true a b :
  collides a b = true -> (0.1 < distance a b < MIN_DISTANCE)%R.
Proof.
  unfold collides. intros H. apply andb_true_iff in H as [H1 H2].
  apply bool_decide_eq_true in H1, H2. lra.
Qed.

Lemma pushDistanceAt_pos d : (d < MIN_DISTANCE)%R -> (0 < pushDistanceAt d)%R.
Proof. unfold pushDistanceAt, BOUNCE_FORCE. lra. Qed.

Lemma pushShares_nonneg c nodeA nodeB pd :
  (0 <= pd)%R ->
  (0 <= (pushShares c nodeA nodeB pd).1)%R /\ (0 <= (pushShares c nodeA nodeB pd).2)%R.
Proof.
  intros Hpd. unfold pushShares.
  destruct (isUserCenter (Node.id nodeA)); [simpl; lra|].
  destruct (isUserCenter (Node.id nodeB)); [simpl; lra|].
  destruct (isChanged c (Node.id nodeA)), (isChanged c (Node.id nodeB)); simpl; lra.
Qed.

(** A correction displaces the node at [i] by [pushA] and the node at [j]
    by [pushB]: the unit vector has norm 1. *)
Lemma collisionBody_effect c i j nodeA curA nodeB nodes nodes' :
  (i < j)%nat -> nodes !! i = Some curA -> nodes !! j = Some nodeB ->
  collisionBody c i j nodeA nodeB nodes = Some nodes' ->
  let d := distance (Node.position nodeA) (Node.position nodeB) in
  let sh := pushShares c nodeA nodeB (pushDistanceAt d) in
  (0.1 < d < MIN_DISTANCE)%R
  /\ exists a' b',
       nodes' !! i = Some a' /\ nodes' !! j = Some b'
       /\ displacement curA a' = sh.1 /\ displacement nodeB b' = sh.2
       /\ (sh.1 = 0%R -> a' = curA) /\ (sh.2 = 0%R -> b' = nodeB).
Proof.
  intros Hij Hi Hj Hc d sh.
  apply collisionBody_Some in Hc as [Hcol ->]. cbv zeta. fold d. fold sh.
  apply collides_true in Hcol. fold d in Hcol. split; [done|].
  set (ux := ((XY.x (Node.position nodeB) - XY.x (Node.position nodeA)) / d)%R).
  set (uy := ((XY.y (Node.position nodeB) - XY.y (Node.position nodeA)) / d)%R).
  assert (Hu : (ux * ux + uy * uy = 1)%R).
  { apply unit_vector_norm. fold (distance (Node.position nodeA) (Node.position nodeB)).
    fold d. lra. }
  destruct (pushShares_nonneg c nodeA nodeB (pushDistanceAt d)) as [HsA HsB].
  { apply Rlt_le, pushDistanceAt_pos. lra. }
  fold sh in HsA, HsB.
  eexists _, _. split; [|split].
  - rewrite movePosition_lookup_ne by lia. by apply movePosition_lookup.
  - apply movePosition_lookup. by rewrite movePosition_lookup_ne by lia.
  - unfold displacement. simpl.
    destruct (moved_distance (Node.position curA) ux uy sh.1 Hu HsA) as [-> _].
    destruct (moved_distance (Node.position nodeB) ux uy sh.2 Hu HsB) as [_ ->].
    repeat split; [|].
    + intros ->. rewrite (proj1 (shift_zero _ _ _)). apply withPosition_same.
    + intros ->. rewrite (proj2 (shift_zero _ _ _)). apply withPosition_same.
Qed.

Lemma collisionBody_collides c i j nodeA nodeB nodes :
  collides (Node.position nodeA) (Node.position nodeB) = true ->
  exists nodes', collisionBody c i j nodeA nodeB nodes = Some nodes'.
Proof.
  intros H. destruct (collisionBody c i j nodeA nodeB nodes) eqn:Hc; [eauto|].
  apply collisionBody_None_inv in Hc. congruence.
Qed.

Lemma settleBody_effect i j nodeA nodeB (nodes : list Node.t) nodes' :
  (i < j)%nat -> (j < length nodes)%nat ->
  settleBody i j nodeA nodeB nodes = Some nodes' ->
  let d := distance (Node.position nodeA) (Node.position nodeB) in
  (0 < d < MIN_DISTANCE)%R
  /\ exists a' b',
       nodes' !! i = Some a' /\ nodes' !! j = Some b'
       /\ displacement nodeA a' = (settlePushDistanceAt d * 0.25)%R
       /\ displacement nodeB b' = (settlePushDistanceAt d * 0.25)%R.
Proof.
  intros Hij Hj. unfold settleBody. cbv zeta.
  fold (distance (Node.position nodeA) (Node.position nodeB)).
  set (d := distance (Node.position nodeA) (Node.position nodeB)).
  destruct (_ && _) eqn:Hcol; [|done]. intros [= <-].
  apply andb_true_iff in Hcol as [H1 H2]. apply bool_decide_eq_true in H1, H2.
  split; [lra|].
  set (ux := ((XY.x (Node.position nodeB) - XY.x (Node.position nodeA)) / d)%R).
  set (uy := ((XY.y (Node.position nodeB) - XY.y (Node.position nodeA)) / d)%R).
  assert (Hu : (ux * ux + uy * uy = 1)%R).
  { apply unit_vector_norm. fold (distance (Node.position nodeA) (Node.position nodeB)).
    fold d. lra. }
  fold (settlePushDistanceAt d). set (pd := settlePushDistanceAt d).
  assert (Hpd : (0 <= pd * 0.25)%R).
  { unfold pd, settlePushDistanceAt, BOUNCE_FORCE. lra. }
  eexists _, _. split; [|split].
  - rewrite list_lookup_insert_ne by lia. apply list_lookup_insert_eq. lia.
  - apply list_lookup_insert_eq. rewrite length_insert. lia.
  - unfold displacement. simpl. rewrite !Rmult_assoc.
    destruct (moved_distance (Node.position nodeA) ux uy (pd * 0.25) Hu Hpd) as [-> _].
    destruct (moved_distance (Node.position nodeB) ux uy (pd * 0.25) Hu Hpd) as [_ ->].
    done.
Qed.

(** C3, amended. Drag-time pass: whenever a corrected pair contains the
    self-anchor, the anchor is left where it is and the other node of the
    pair is displaced by the full [pushDistance].  Settle pass: a pair
    that contains the non-draggable ["user-center"] node is skipped, so
    neither of its nodes is moved by that pair. *)
Theorem anchor_pair_push :
  (forall c i j nodeA curA nodeB nodes nodes',
      (i < j)%nat -> nodes !! i = Some curA -> nodes !! j = Some nodeB ->
      collisionBody c i j nodeA nodeB nodes = Some nodes' ->
      let pushDistance :=
        pushDistanceAt (distance (Node.position nodeA) (Node.position nodeB)) in
      (isUserCenter (Node.id nodeA) = true ->
         nodes' !! i = Some curA
         /\ exists b', nodes' !! j = Some b' /\ displacement nodeB b' = pushDistance)
      /\ (isUserCenter (Node.id nodeA) = false -> isUserCenter (Node.id nodeB) = true ->
         nodes' !! j = Some nodeB
         /\ exists a', nodes' !! i = Some a' /\ displacement curA a' = pushDistance))
  /\ (forall st i nodeA,
        st.1 !! i = Some nodeA -> settleSkip nodeA = true -> settleOuterStep st i = st)
  /\ (forall st i nodeA j nodeB,
        st.1 !! j = Some nodeB -> settleSkip nodeB = true ->
        settleInnerStep i nodeA st j = st).
Proof.
  split; [|split].
  - intros c i j nodeA curA nodeB nodes nodes' Hij Hi Hj Hc pd.
    destruct (collisionBody_effect _ _ _ _ _ _ _ _ Hij Hi Hj Hc)
      as (_ & a' & b' & Ha' & Hb' & HdA & HdB & HzA & HzB).
    split.
    + intros HA. rewrite pushShares_anchor_first in HdA, HdB, HzA by done.
      simpl in *. rewrite HzA in Ha' by done. eauto.
    + intros HA HB. rewrite pushShares_anchor_second in HdA, HdB, HzB by done.
      simpl in *. rewrite HzB in Hb' by done. eauto.
  - intros st i nodeA Hi Hs. unfold settleOuterStep. by rewrite Hi, Hs.
  - intros st i nodeA j nodeB Hj Hs. unfold settleInnerStep. by rewrite Hj, Hs.
Qed.

(** C4, amended. For every corrected pair whose first node has not been
    moved by an earlier correction of the same outer iteration, so that
    the object [nodeA] that the correction reads is the current entry of
    the list, and with [distance] the distance of the two nodes before the
    correction.  Drag-time pass, with
    [pushDistance = (MIN_DISTANCE - distance) + BOUNCE_FORCE]: when
    neither node is the self-anchor nor the active node, each node is
    displaced by the same share [0.25 * pushDistance]; the two
    displacement magnitudes sum to [pushDistance] when a node of the pair
    is the self-anchor.  Settle pass: each node of the pair is displaced
    by [0.25 * ((MIN_DISTANCE - distance) / 2 + BOUNCE_FORCE)]. *)
Theorem push_split :
  (forall c i j nodeA nodeB nodes nodes',
      (i < j)%nat -> nodes !! i = Some nodeA -> nodes !! j = Some nodeB ->
      collisionBody c i j nodeA nodeB nodes = Some nodes' ->
      let pushDistance :=
        pushDistanceAt (distance (Node.position nodeA) (Node.position nodeB)) in
      exists a' b',
        nodes' !! i = Some a' /\ nodes' !! j = Some b'
        /\ (isUserCenter (Node.id nodeA) = false -> isUserCenter (Node.id nodeB) = false ->
            isChanged c (Node.id nodeA) = false -> isChanged c (Node.id nodeB) = false ->
            displacement nodeA a' = (pushDistance * 0.25)%R
            /\ displacement nodeB b' = (pushDistance * 0.25)%R)
        /\ (isUserCenter (Node.id nodeA) = true \/ isUserCenter (Node.id nodeB) = true ->
            (displacement nodeA a' + displacement nodeB b')%R = pushDistance))
  /\ (forall i j nodeA nodeB (nodes : list Node.t) nodes',
        (i < j)%nat -> nodes !! i = Some nodeA -> nodes !! j = Some nodeB ->
        settleBody i j nodeA nodeB nodes = Some nodes' ->
        let pushDistance :=
          settlePushDistanceAt (distance (Node.position nodeA) (Node.position nodeB)) in
        exists a' b',
          nodes' !! i = Some a' /\ nodes' !! j = Some b'
          /\ displacement nodeA a' = (pushDistance * 0.25)%R
          /\ displacement nodeB b' = (pushDistance * 0.25)%R).
Proof.
  split.
  - intros c i j nodeA nodeB nodes nodes' Hij Hi Hj Hc pd.
    destruct (collisionBody_effect _ _ _ _ _ _ _ _ Hij Hi Hj Hc)
      as (_ & a' & b' & Ha' & Hb' & HdA & HdB & _).
    exists a', b'. split; [done|]. split; [done|]. rewrite HdA, HdB.
    unfold pushShares. fold pd. split.
    + by intros -> -> -> ->.
    + destruct (isUserCenter (Node.id nodeA)); [intros _; simpl; lra|].
      intros [?| ->]; [done|]. simpl. lra.
  - intros i j nodeA nodeB nodes nodes' Hij Hi Hj Hc pd.
    apply lookup_lt_Some in Hj as Hlen.
    destruct (settleBody_effect _ _ _ _ _ _ Hij Hlen Hc) as (_ & a' & b' & H).
    by exists a', b'.
Qed.

(** C5, amended. For every pair corrected by the drag-time pass in which
    exactly one node is the active node and neither is the self-anchor,
    the active node is displaced by [0.15 * pushDistance] and its partner
    by [0.25 * pushDistance]: strictly less, while the two fractions sum
    to 0.4 and not to 1. *)
Theorem active_minority_push c i j nodeA curA nodeB nodes nodes' :
  (i < j)%nat -> nodes !! i = Some curA -> nodes !! j = Some nodeB ->
  collisionBody c i j nodeA nodeB nodes = Some nodes' ->
  isUserCenter (Node.id nodeA) = false -> isUserCenter (Node.id nodeB) = false ->
  isChanged c (Node.id nodeA) = negb (isChanged c (Node.id nodeB)) ->
  let pushDistance :=
    pushDistanceAt (distance (Node.position nodeA) (Node.position nodeB)) in
  exists a' b',
    nodes' !! i = Some a' /\ nodes' !! j = Some b'
    /\ (isChanged c (Node.id nodeA) = true ->
        displacement curA a' = (pushDistance * 0.15)%R
        /\ displacement nodeB b' = (pushDistance * 0.25)%R
        /\ (displacement curA a' < displacement nodeB b')%R)
    /\ (isChanged c (Node.id nodeB) = true ->
        displacement nodeB b' = (pushDistance * 0.15)%R
        /\ displacement curA a' = (pushDistance * 0.25)%R
        /\ (displacement nodeB b' < displacement curA a')%R).
Proof.
  intros Hij Hi Hj Hc HA HB Hone pd.
  destruct (collisionBody_effect _ _ _ _ _ _ _ _ Hij Hi Hj Hc)
    as ([_ Hd] & a' & b' & Ha' & Hb' & HdA & HdB & _).
  apply pushDistanceAt_pos in Hd. fold pd in Hd.
  exists a', b'. split; [done|]. split; [done|]. rewrite HdA, HdB.
  unfold pushShares. fold pd. rewrite HA, HB, Hone.
  destruct (isChanged c (Node.id nodeB)); simpl; split; intros; try done;
    repeat split; lra.
Qed.

(** ** Concrete corrections along a horizontal line *)

Lemma collides_horizontal x1 x2 y :
  (0.1 < x2 - x1 < MIN_DISTANCE)%R -> collides (XY.mk x1 y) (XY.mk x2 y) = true.
Proof.
  intros H. unfold collides. rewrite distance_horizontal, Rabs_pos_eq by lra.
  apply andb_true_iff. split; apply bool_decide_eq_true; lra.
Qed.

(** Two nodes on a horizontal line, the second to the right of the first:
    the unit vector is [(1, 0)]. *)
Lemma collisionBody_horizontal c (a b : Node.t) (x1 x2 y : R) :
  Node.position a = XY.mk x1 y -> Node.position b = XY.mk x2 y ->
  (0.1 < x2 - x1 < MIN_DISTANCE)%R ->
  let sh := pushShares c a b (pushDistanceAt (x2 - x1)) in
  collisionBody c 0 1 a b [a; b]
  = Some [Node.withPosition a (XY.mk (x1 - sh.1) y);
          Node.withPosition b (XY.mk (x2 + sh.2) y)].
Proof.
  intros Ha Hb Hd sh.
  destruct (collisionBody_collides c 0 1 a b [a; b]) as [nodes' Hc].
  { rewrite Ha, Hb. by apply collides_horizontal. }
  rewrite Hc. apply collisionBody_Some in Hc as [_ ->]. cbv zeta.
  rewrite Ha, Hb, distance_horizontal, Rabs_pos_eq by lra. fold sh.
  unfold movePosition. cbn [lookup list_lookup insert list_insert XY.x XY.y].
  rewrite Ha, Hb. cbn [XY.x XY.y].
  replace ((x2 - x1) / (x2 - x1))%R with 1%R by (field; lra).
  replace ((y - y) / (x2 - x1))%R with 0%R by (field; lra).
  by rewrite !Rmult_1_l, !Rmult_0_l, Rminus_0_r, Rplus_0_r.
Qed.

Example correction_of_free_pair :
  collisionBody None 0 1 (contactNode "a" 0 0) (contactNode "b" 10 0)
    [contactNode "a" 0 0; contactNode "b" 10 0]
  = Some [contactNode "a" (-6.5625) 0; contactNode "b" 16.5625 0].
Proof.
  rewrite (collisionBody_horizontal None _ _ 0 10 0);
    [|done|done|rewrite MIN_DISTANCE_value; lra].
  unfold pushDistanceAt, contactNode, Node.withPosition. rewrite MIN_DISTANCE_value.
  unfold BOUNCE_FORCE. cbn.
  replace (0 - (31.25 - (10 - 0) + 5) * 0.25)%R with (-6.5625)%R by lra.
  replace (10 + (31.25 - (10 - 0) + 5) * 0.25)%R with 16.5625%R by lra.
  done.
Qed.

(** ** A complete run *)

(** On a list of two nodes a pass is the correction of its only pair. *)
Lemma pass_pair c a b :
  pass c [a; b]
  = match collisionBody c 0 1 a b [a; b] with
    | Some nodes' => (nodes', true)
    | None => ([a; b], false)
    end.
Proof.
  unfold pass. cbn [length seq foldl].
  assert (H0 : outerStep c ([a; b], false) 0
               = match collisionBody c 0 1 a b [a; b] with
                 | Some nodes' => (nodes', true)
                 | None => ([a; b], false)
                 end) by reflexivity.
  rewrite H0. destruct (collisionBody c 0 1 a b [a; b]) as [nodes'|] eqn:Hc; [|done].
  apply collisionBody_frame, frame_length in Hc.
  destruct nodes' as [|a' [|b' [|]]]; try done.
Qed.

Lemma free_pair_correction (x1 x2 : R) :
  (0.1 < x2 - x1 < MIN_DISTANCE)%R ->
  collisionBody None 0 1 (contactNode "a" x1 0) (contactNode "b" x2 0)
    [contactNode "a" x1 0; contactNode "b" x2 0]
  = Some [contactNode "a" (x1 - pushDistanceAt (x2 - x1) * 0.25) 0;
          contactNode "b" (x2 + pushDistanceAt (x2 - x1) * 0.25) 0].
Proof.
  intros H. by rewrite (collisionBody_horizontal None _ _ x1 x2 0).
Qed.

Lemma free_pair_pass (x1 x2 x1' x2' : R) :
  (0.1 < x2 - x1 < MIN_DISTANCE)%R ->
  (x1 - pushDistanceAt (x2 - x1) * 0.25)%R = x1' ->
  (x2 + pushDistanceAt (x2 - x1) * 0.25)%R = x2' ->
  pass None [contactNode "a" x1 0; contactNode "b" x2 0]
  = ([contactNode "a" x1' 0; contactNode "b" x2' 0], true).
Proof.
  intros H <- <-. by rewrite pass_pair, free_pair_correction.
Qed.

Lemma whileLoop_step p fuel s :
  loopCond s = true -> whileLoop p (S fuel) s = whileLoop p fuel (loopBody p s).
Proof. intros H. simpl. by rewrite H. Qed.

(** Two free nodes at distance 10 are pushed apart in three passes of
    reduced pushes; the fourth pass finds no collision. *)
Example run_of_free_pair :
  resolveState [contactNode "a" 0 0; contactNode "b" 10 0] None
  = mkLoopState [contactNode "a" (-11.484375) 0; contactNode "b" 21.484375 0] false 4.
Proof.
  unfold resolveState. rewrite list_fmap_id.
  change maxIterations with (S (S (S (S 6)))).
  rewrite whileLoop_step by reflexivity. unfold loopBody at 1.
  cbn [updatedNodes iterations].
  rewrite (free_pair_pass 0 10 (-6.5625) 16.5625);
    [|rewrite MIN_DISTANCE_value; lra
     |unfold pushDistanceAt, BOUNCE_FORCE; rewrite MIN_DISTANCE_value; lra..].
  rewrite whileLoop_step by reflexivity. unfold loopBody at 1.
  cbn [updatedNodes iterations fst snd].
  rewrite (free_pair_pass (-6.5625) 16.5625 (-9.84375) 19.84375);
    [|rewrite MIN_DISTANCE_value; lra
     |unfold pushDistanceAt, BOUNCE_FORCE; rewrite MIN_DISTANCE_value; lra..].
  rewrite whileLoop_step by reflexivity. unfold loopBody at 1.
  cbn [updatedNodes iterations fst snd].
  rewrite (free_pair_pass (-9.84375) 19.84375 (-11.484375) 21.484375);
    [|rewrite MIN_DISTANCE_value; lra
     |unfold pushDistanceAt, BOUNCE_FORCE; rewrite MIN_DISTANCE_value; lra..].
  rewrite whileLoop_step by reflexivity. unfold loopBody at 1.
  cbn [updatedNodes iterations fst snd].
  rewrite pass_still.
  - reflexivity.
  - apply quiet_two, collides_separated. simpl.
    rewrite distance_horizontal, MIN_DISTANCE_value, Rabs_pos_eq; lra.
Qed.

(** ** Concrete runs of the resolver *)

Lemma separated_pair_quiet :
  quiet [contactNode "a" 0 0; contactNode "b" 100 0].
Proof.
  apply quiet_two, collides_separated. simpl.
  rewrite distance_horizontal, MIN_DISTANCE_value, Rabs_pos_eq; lra.
Qed.

Lemma coincident_pair_quiet :
  quiet [contactNode "a" 0 0; contactNode "b" 0 0].
Proof.
  apply quiet_two. unfold collides. simpl.
  rewrite distance_horizontal, Rminus_diag, Rabs_R0.
  apply andb_false_iff. right. apply bool_decide_eq_false. lra.
Qed.

(** The boundary case: at distance exactly [MIN_DISTANCE] nothing moves. *)
Lemma resolver_fixpoint_witness :
  detectAndResolveCollisions [contactNode "a" 0 0; contactNode "b" 31.25 0] None
  = [contactNode "a" 0 0; contactNode "b" 31.25 0].
Proof.
  apply resolver_fixpoint. intros i j a b Hij Ha Hb.
  destruct i as [|[|i]], j as [|[|j]]; simpl in Ha, Hb; try done;
    injection Ha as <-; injection Hb as <-; simpl;
    rewrite distance_horizontal, MIN_DISTANCE_value.
  - rewrite Rabs_pos_eq; lra.
  - rewrite Rabs_left; lra.
Defined.

Lemma resolver_separation_witness :
  let a := contactNode "a" 0 0 in
  let b := contactNode "b" 100 0 in
  (MIN_DISTANCE <= distance (Node.position a) (Node.position b))%R
  \/ (distance (Node.position a) (Node.position b) <= 0.1)%R
  \/ capExhausted (resolveState [a; b] None).
Proof.
  intros a b. apply (resolver_separation [a; b] None 0 1 a b).
  - lia.
  - unfold detectAndResolveCollisions.
    by rewrite (resolveState_quiet _ _ separated_pair_quiet).
  - unfold detectAndResolveCollisions.
    by rewrite (resolveState_quiet _ _ separated_pair_quiet).
Defined.

(** C6 as stated fails: two coincident non-anchor nodes are returned
    coincident after a single pass, far below the cap of ten. *)
Lemma resolver_separation_counterexample :
  let nodes := [contactNode "a" 0 0; contactNode "b" 0 0] in
  resolveState nodes None = mkLoopState nodes false 1
  /\ ~ (forall i j a b, i <> j ->
          detectAndResolveCollisions nodes None !! i = Some a ->
          detectAndResolveCollisions nodes None !! j = Some b ->
          isUserCenter (Node.id a) = false -> isUserCenter (Node.id b) = false ->
          (MIN_DISTANCE <= distance (Node.position a) (Node.position b))%R
          \/ capExhausted (resolveState nodes None)).
Proof.
  intros nodes.
  assert (Hs : resolveState nodes None = mkLoopState nodes false 1)
    by apply (resolveState_quiet _ _ coincident_pair_quiet).
  split; [done|]. intros Hclaim.
  destruct (Hclaim 0%nat 1%nat (contactNode "a" 0 0) (contactNode "b" 0 0))
    as [Hd|[Hflag _]]; try done.
  - unfold detectAndResolveCollisions. by rewrite Hs.
  - unfold detectAndResolveCollisions. by rewrite Hs.
  - simpl in Hd. rewrite distance_horizontal, Rminus_diag, Rabs_R0, MIN_DISTANCE_value in Hd.
    lra.
  - rewrite Hs in Hflag. done.
Qed.

Lemma anchor_invariance_witness :
  let nodes := [centerNode; contactNode "a" 10 0] in
  (exists anchor', detectAndResolveCollisions nodes (Some "a") !! 0%nat = Some anchor'
                   /\ Node.position anchor' = XY.mk 0 0)
  /\ (exists anchor', settleInitialLayout nodes !! 0%nat = Some anchor'
                      /\ Node.position anchor' = XY.mk 0 0).
Proof.
  intros nodes.
  destruct (anchor_invariance nodes (Some "a") 0 centerNode eq_refl) as [Hdrag Hsettle].
  split.
  - apply Hdrag; [reflexivity|]. intros j b Hj. lia.
  - apply Hsettle; [reflexivity | discriminate].
Defined.

Lemma settleBody_collides i j nodeA nodeB nodes :
  (0 < distance (Node.position nodeA) (Node.position nodeB) < MIN_DISTANCE)%R ->
  exists nodes', settleBody i j nodeA nodeB nodes = Some nodes'.
Proof.
  intros [H0 H1]. unfold settleBody. cbv zeta.
  fold (distance (Node.position nodeA) (Node.position nodeB)).
  rewrite (bool_decide_eq_true_2 _ H1).
  assert (H0' : (distance (Node.position nodeA) (Node.position nodeB) > 0)%R) by lra.
  rewrite (bool_decide_eq_true_2 _ H0'). simpl. eauto.
Qed.

Lemma free_pair_distance :
  distance (Node.position (contactNode "a" 0 0)) (Node.position (contactNode "b" 10 0))
  = 10%R.
Proof. simpl. rewrite distance_horizontal, Rabs_pos_eq; lra. Qed.

Lemma anchor_pair_push_witness :
  let a := contactNode "a" 10 0 in
  (exists nodes',
      collisionBody None 0 1 centerNode a [centerNode; a] = Some nodes'
      /\ nodes' !! 0%nat = Some centerNode
      /\ exists b', nodes' !! 1%nat = Some b'
           /\ displacement a b'
              = pushDistanceAt (distance (Node.position centerNode) (Node.position a)))
  /\ settleOuterStep ([centerNode; a], false) 0 = ([centerNode; a], false)
  /\ settleInnerStep 1 a ([a; centerNode], false) 1 = ([a; centerNode], false).
Proof.
  intros a. destruct anchor_pair_push as (Hdrag & Houter & Hinner).
  split; [|split].
  - destruct (collisionBody_collides None 0 1 centerNode a [centerNode; a])
      as [nodes' Hc].
    { apply collides_horizontal. rewrite MIN_DISTANCE_value. lra. }
    exists nodes'. split; [done|].
    apply (Hdrag None 0%nat 1%nat centerNode centerNode a [centerNode; a] nodes');
      [lia|reflexivity|reflexivity|done|reflexivity].
  - apply (Houter _ 0%nat centerNode); reflexivity.
  - apply (Hinner _ 1%nat a 1%nat centerNode); reflexivity.
Defined.

(** C3 as stated fails in the settle pass: the contact at distance 10
    from the non-draggable center collides with it and is not moved. *)
Lemma anchor_pair_push_counterexample :
  let a := contactNode "a" 10 0 in
  let nodes := [centerNode; a] in
  let d := distance (Node.position centerNode) (Node.position a) in
  (0 < d < MIN_DISTANCE)%R
  /\ settlePass nodes = (nodes, false)
  /\ settleInitialLayout nodes = nodes
  /\ ~ (exists a', settleInitialLayout nodes !! 1%nat = Some a'
          /\ (displacement a a' = pushDistanceAt d
              \/ displacement a a' = settlePushDistanceAt d)).
Proof.
  intros a nodes d.
  assert (Hd : d = 10%R).
  { unfold d. simpl. rewrite distance_horizontal, Rabs_pos_eq; lra. }
  assert (Hrun : settleInitialLayout nodes = nodes) by reflexivity.
  split; [rewrite Hd, MIN_DISTANCE_value; lra|]. split; [reflexivity|].
  split; [done|]. intros (a' & Ha' & Hpush). rewrite Hrun in Ha'. injection Ha' as <-.
  assert (H0 : displacement a a = 0%R).
  { unfold displacement. simpl. rewrite distance_horizontal, Rminus_diag. apply Rabs_R0. }
  rewrite H0, Hd in Hpush.
  unfold pushDistanceAt, settlePushDistanceAt, BOUNCE_FORCE in Hpush.
  rewrite MIN_DISTANCE_value in Hpush. lra.
Qed.

Lemma push_split_witness :
  let a := contactNode "a" 0 0 in
  let b := contactNode "b" 10 0 in
  (exists nodes' a' b',
      collisionBody None 0 1 a b [a; b] = Some nodes'
      /\ nodes' !! 0%nat = Some a' /\ nodes' !! 1%nat = Some b'
      /\ displacement a a' = (pushDistanceAt 10 * 0.25)%R
      /\ displacement b b' = (pushDistanceAt 10 * 0.25)%R)
  /\ (exists nodes' a' b',
      settleBody 0 1 a b [a; b] = Some nodes'
      /\ nodes' !! 0%nat = Some a' /\ nodes' !! 1%nat = Some b'
      /\ displacement a a' = (settlePushDistanceAt 10 * 0.25)%R
      /\ displacement b b' = (settlePushDistanceAt 10 * 0.25)%R).
Proof.
  intros a b. subst a b. destruct push_split as [Hdrag Hsettle]. split.
  - destruct (Hdrag None 0%nat 1%nat (contactNode "a" 0 0)
                (contactNode "b" 10 0) [contactNode "a" 0 0; contactNode "b" 10 0] _
                ltac:(lia) eq_refl eq_refl
                correction_of_free_pair) as (a' & b' & Ha' & Hb' & Heq & _).
    rewrite free_pair_distance in Heq.
    exists [contactNode "a" (-6.5625) 0; contactNode "b" 16.5625 0], a', b'.
    split; [apply correction_of_free_pair|].
    split; [done|]. split; [done|]. by apply Heq.
  - destruct (settleBody_collides 0 1 (contactNode "a" 0 0) (contactNode "b" 10 0)
                [contactNode "a" 0 0; contactNode "b" 10 0]) as [nodes' Hc].
    { rewrite free_pair_distance, MIN_DISTANCE_value. lra. }
    destruct (Hsettle 0%nat 1%nat (contactNode "a" 0 0) (contactNode "b" 10 0)
                [contactNode "a" 0 0; contactNode "b" 10 0] nodes'
                ltac:(lia) eq_refl eq_refl Hc)
      as (a' & b' & Ha' & Hb' & HdA & HdB).
    rewrite free_pair_distance in HdA, HdB.
    by exists nodes', a', b'.
Defined.

(** C4 as stated fails: two free nodes at distance 10 are displaced by
    6.5625 each, 13.125 in sum, while [pushDistance] is 26.25. *)
Lemma push_split_counterexample :
  let a := contactNode "a" 0 0 in
  let b := contactNode "b" 10 0 in
  let a' := contactNode "a" (-6.5625) 0 in
  let b' := contactNode "b" 16.5625 0 in
  collisionBody None 0 1 a b [a; b] = Some [a'; b']
  /\ pushDistanceAt (distance (Node.position a) (Node.position b)) = 26.25%R
  /\ (displacement a a' + displacement b b')%R = 13.125%R
  /\ (displacement a a' + displacement b b')%R
     <> pushDistanceAt (distance (Node.position a) (Node.position b)).
Proof.
  intros a b a' b'.
  assert (Hpd : pushDistanceAt (distance (Node.position a) (Node.position b)) = 26.25%R).
  { unfold a, b. rewrite free_pair_distance. unfold pushDistanceAt, BOUNCE_FORCE.
    rewrite MIN_DISTANCE_value. lra. }
  assert (Hsum : (displacement a a' + displacement b b')%R = 13.125%R).
  { unfold displacement. simpl. rewrite !distance_horizontal.
    rewrite Rabs_left by lra. rewrite Rabs_pos_eq by lra. lra. }
  split; [apply correction_of_free_pair|]. split; [done|]. split; [done|].
  rewrite Hsum, Hpd. lra.
Qed.

(** Two nodes on a horizontal line in the settle pass: the unit vector is
    [(1, 0)] or [(-1, 0)]. *)
Lemma settleBody_horizontal i j (a b : Node.t) (x1 x2 y : R) (nodes : list Node.t) :
  Node.position a = XY.mk x1 y -> Node.position b = XY.mk x2 y ->
  (0 < Rabs (x2 - x1) < MIN_DISTANCE)%R ->
  let unitX := ((x2 - x1) / Rabs (x2 - x1))%R in
  let push := (settlePushDistanceAt (Rabs (x2 - x1)) * 0.25)%R in
  settleBody i j a b nodes
  = Some (<[j := Node.withPosition b (XY.mk (x2 + unitX * push) y)]>
            (<[i := Node.withPosition a (XY.mk (x1 - unitX * push) y)]> nodes)).
Proof.
  intros Ha Hb Hd unitX push. unfold settleBody. cbv zeta.
  fold (distance (Node.position a) (Node.position b)).
  rewrite Ha, Hb, distance_horizontal. cbn [XY.x XY.y].
  rewrite bool_decide_eq_true_2 by lra. rewrite bool_decide_eq_true_2 by lra.
  cbn [andb]. fold (settlePushDistanceAt (Rabs (x2 - x1))). fold unitX.
  replace ((y - y) / Rabs (x2 - x1))%R with 0%R by (field; lra).
  replace (x1 - unitX * settlePushDistanceAt (Rabs (x2 - x1)) * 0.25)%R
    with (x1 - unitX * push)%R by (unfold push; ring).
  replace (x2 + unitX * settlePushDistanceAt (Rabs (x2 - x1)) * 0.25)%R
    with (x2 + unitX * push)%R by (unfold push; ring).
  replace (y - 0 * settlePushDistanceAt (Rabs (x2 - x1)) * 0.25)%R with y by ring.
  replace (y + 0 * settlePushDistanceAt (Rabs (x2 - x1)) * 0.25)%R with y by ring.
  done.
Qed.

(** The case that C4, amended, leaves out.  In the outer iteration of the
    settle pass for [a], the correction of [(a, b)] moves [a] from 100 to
    96.09375; the correction of [(a, c)] then rebuilds [a] from the object
    read when the iteration started and puts it at 103.90625: the entry at
    its index is displaced by 7.8125, twice the share 3.90625. *)
Example settle_overwrites_earlier_push :
  settleOuterStep
    ([centerNode; contactNode "a" 100 0; contactNode "b" 110 0; contactNode "c" 90 0],
     false) 1
  = ([centerNode; contactNode "a" 103.90625 0; contactNode "b" 113.90625 0;
      contactNode "c" 86.09375 0], true).
Proof.
  unfold settleOuterStep. cbn [fst lookup list_lookup].
  change (settleSkip (contactNode "a" 100 0)) with false. cbv iota.
  cbn [length Nat.sub seq foldl].
  unfold settleInnerStep at 2. cbn [fst lookup list_lookup].
  change (settleSkip (contactNode "b" 110 0)) with false. cbv iota.
  rewrite (settleBody_horizontal 1 2 _ _ 100 110 0);
    [|done|done|rewrite MIN_DISTANCE_value; rewrite Rabs_pos_eq; lra].
  unfold settleInnerStep. cbn [fst lookup list_lookup insert list_insert].
  change (settleSkip (contactNode "c" 90 0)) with false. cbv iota.
  rewrite (settleBody_horizontal 1 3 _ _ 100 90 0);
    [|done|done|rewrite MIN_DISTANCE_value; rewrite Rabs_left; lra].
  cbn [insert list_insert]. unfold contactNode, Node.withPosition. cbn.
  rewrite (Rabs_pos_eq (110 - 100)) by lra. rewrite (Rabs_left (90 - 100)) by lra.
  unfold settlePushDistanceAt, BOUNCE_FORCE. rewrite MIN_DISTANCE_value.
  replace (110 - 100)%R with 10%R by lra. replace (90 - 100)%R with (-10)%R by lra.
  replace (- -10)%R with 10%R by lra.
  replace (110 + 10 / 10 * (((31.25 - 10) / 2 + 5) * 0.25))%R with 113.90625%R by lra.
  replace (100 - -10 / 10 * (((31.25 - 10) / 2 + 5) * 0.25))%R with 103.90625%R by lra.
  replace (90 + -10 / 10 * (((31.25 - 10) / 2 + 5) * 0.25))%R with 86.09375%R by lra.
  done.
Qed.

Example correction_of_dragged_pair :
  collisionBody (Some "a") 0 1 (contactNode "a" 0 0) (contactNode "b" 10 0)
    [contactNode "a" 0 0; contactNode "b" 10 0]
  = Some [contactNode "a" (-3.9375) 0; contactNode "b" 16.5625 0].
Proof.
  rewrite (collisionBody_horizontal (Some "a") _ _ 0 10 0);
    [|done|done|rewrite MIN_DISTANCE_value; lra].
  unfold pushDistanceAt, contactNode, Node.withPosition. rewrite MIN_DISTANCE_value.
  unfold BOUNCE_FORCE. cbn.
  replace (0 - (31.25 - (10 - 0) + 5) * 0.15)%R with (-3.9375)%R by lra.
  replace (10 + (31.25 - (10 - 0) + 5) * 0.25)%R with 16.5625%R by lra.
  done.
Qed.

Lemma active_minority_push_witness :
  let a := contactNode "a" 0 0 in
  let b := contactNode "b" 10 0 in
  exists nodes' a' b',
    collisionBody (Some "a") 0 1 a b [a; b] = Some nodes'
    /\ nodes' !! 0%nat = Some a' /\ nodes' !! 1%nat = Some b'
    /\ displacement a a' = (pushDistanceAt 10 * 0.15)%R
    /\ displacement b b' = (pushDistanceAt 10 * 0.25)%R
    /\ (displacement a a' < displacement b b')%R.
Proof.
  intros a b. subst a b.
  destruct (active_minority_push (Some "a") 0 1 (contactNode "a" 0 0)
              (contactNode "a" 0 0) (contactNode "b" 10 0)
              [contactNode "a" 0 0; contactNode "b" 10 0] _ ltac:(lia) eq_refl eq_refl
              correction_of_dragged_pair eq_refl eq_refl eq_refl)
    as (a' & b' & Ha' & Hb' & Hactive & _).
  rewrite free_pair_distance in Hactive.
  exists [contactNode "a" (-3.9375) 0; contactNode "b" 16.5625 0], a', b'.
  split; [apply correction_of_dragged_pair|].
  split; [done|]. split; [done|]. by apply Hactive.
Defined.

(** C5 as stated fails in its second half: the dragged node is displaced
    by 3.9375 and its partner by 6.5625, which are 0.15 and 0.25 of the
    [pushDistance] 26.25; no fraction [f] gives [f] and [1 - f]. *)
Lemma active_minority_push_counterexample :
  let a := contactNode "a" 0 0 in
  let b := contactNode "b" 10 0 in
  let a' := contactNode "a" (-3.9375) 0 in
  let b' := contactNode "b" 16.5625 0 in
  let pushDistance := pushDistanceAt (distance (Node.position a) (Node.position b)) in
  collisionBody (Some "a") 0 1 a b [a; b] = Some [a'; b']
  /\ pushDistance = 26.25%R
  /\ displacement a a' = 3.9375%R /\ displacement b b' = 6.5625%R
  /\ ~ (exists f : R, (0 < f < 1 / 2)%R
          /\ displacement a a' = (f * pushDistance)%R
          /\ displacement b b' = ((1 - f) * pushDistance)%R).
Proof.
  intros a b a' b' pd.
  assert (Hpd : pd = 26.25%R).
  { unfold pd, a, b. rewrite free_pair_distance. unfold pushDistanceAt, BOUNCE_FORCE.
    rewrite MIN_DISTANCE_value. lra. }
  assert (HA : displacement a a' = 3.9375%R).
  { unfold displacement. simpl. rewrite distance_horizontal, Rabs_left; lra. }
  assert (HB : displacement b b' = 6.5625%R).
  { unfold displacement. simpl. rewrite distance_horizontal, Rabs_pos_eq; lra. }
  split; [apply correction_of_dragged_pair|]. split; [done|].
  split; [done|]. split; [done|].
  intros (f & Hf & H1 & H2). rewrite HA, Hpd in H1. rewrite HB, Hpd in H2. lra.
Qed.

(** ** Rounding and remainders *)

Lemma Int_part_unit r : (0 <= r < 1)%R -> Int_part r = 0%Z.
Proof. intros H. symmetry. apply Int_part_spec. simpl. lra. Qed.

Lemma Rtrunc_small r : (-1 < r < 1)%R -> Rtrunc r = 0%Z.
Proof.
  intros H. unfold Rtrunc. destruct (decide (r < 0)%R).
  - rewrite Int_part_unit; [done | lra].
  - apply Int_part_unit. lra.
Qed.

Lemma Rtrunc_one r : (1 <= r < 2)%R -> Rtrunc r = 1%Z.
Proof.
  intros H. unfold Rtrunc. destruct (decide (r < 0)%R); [lra|].
  symmetry. apply Int_part_spec. simpl. lra.
Qed.

Lemma div_bounds a b lo hi :
  (0 < b)%R -> (lo * b <= a)%R -> (a < hi * b)%R -> (lo <= a / b < hi)%R.
Proof.
  intros Hb Hlo Hhi. split.
  - apply Rmult_le_reg_r with b; [done|]. replace (a / b * b)%R with a by (field; lra). done.
  - apply Rmult_lt_reg_r with b; [done|]. replace (a / b * b)%R with a by (field; lra). done.
Qed.

Lemma jsRem_small a b : (0 < b)%R -> (- b < a < b)%R -> jsRem a b = a.
Proof.
  intros Hb Ha. unfold jsRem. rewrite Rtrunc_small; [simpl; ring|].
  assert (H : (- 1 < a / b)%R).
  { apply Rmult_lt_reg_r with b; [done|]. replace (a / b * b)%R with a by (field; lra). lra. }
  destruct (div_bounds a b (-1) 1) as [_ ?]; lra.
Qed.

Lemma jsRem_once a b : (0 < b)%R -> (b <= a < 2 * b)%R -> jsRem a b = (a - b)%R.
Proof.
  intros Hb Ha. unfold jsRem. rewrite Rtrunc_one; [simpl; ring|].
  apply div_bounds; lra.
Qed.

(** The wrapped angle lies in [[0, 2 * PI)] and differs from the normalized
    angle by a whole number of turns. *)
Lemma wrappedAngle_spec n :
  (- PI < n < 2 * PI)%R ->
  let w := jsRem (jsRem n (2 * PI) + 2 * PI) (2 * PI) in
  (0 <= w < 2 * PI)%R /\ exists turn : Z, (0 <= turn <= 1)%Z /\ w = (n + 2 * PI * IZR turn)%R.
Proof.
  intros Hn w. pose proof PI_RGT_0 as Hpi. unfold w.
  rewrite (jsRem_small n) by lra.
  destruct (Rlt_le_dec n 0) as [Hneg|Hpos].
  - rewrite jsRem_small by lra. split; [lra|]. exists 1%Z. split; [lia|]. simpl. ring.
  - rewrite jsRem_once by lra. split; [lra|]. exists 0%Z. split; [lia|]. simpl. ring.
Qed.

Lemma mathRound_spec t : (t - 0.5 < IZR (mathRound t) <= t + 0.5)%R.
Proof. unfold mathRound. destruct (base_Int_part (t + 0.5)). lra. Qed.

Lemma atan2_bound y x : (- (3 * PI / 2) < atan2 y x < 3 * PI / 2)%R.
Proof.
  pose proof PI_RGT_0 as Hpi. pose proof (atan_bound (y / x)) as Hb.
  unfold atan2. repeat case_decide; lra.
Qed.

(** The index is in range, and its handle angle is within half a step
    ([PI / 64]) of the direction angle, up to whole turns. *)
Lemma getHandleIndex_spec dx dy :
  let index := getHandleIndex dx dy in
  (0 <= index < NUM_HANDLES)%Z
  /\ exists turns : Z,
       (Rabs (handleAngle index + 2 * PI * IZR turns - atan2 dy dx) <= PI / 64)%R.
Proof.
  pose proof PI_RGT_0 as Hpi. pose proof (atan2_bound dy dx) as Hb.
  unfold getHandleIndex. cbv zeta.
  set (n := (atan2 dy dx + PI / 2)%R).
  destruct (wrappedAngle_spec n) as [Hw (turn & Hturn & Hwn)]; [unfold n; lra|].
  set (w := jsRem (jsRem n (2 * PI) + 2 * PI) (2 * PI)) in *.
  set (t := (w / (2 * PI) * IZR NUM_HANDLES)%R).
  assert (Ht : (0 <= t < 64)%R).
  { unfold t, NUM_HANDLES.
    destruct (div_bounds w (2 * PI) 0 1) as [? ?]; lra. }
  pose proof (mathRound_spec t) as Hr. set (r := mathRound t) in *.
  assert (Hr0 : (0 <= r)%Z).
  { assert (-1 < r)%Z; [|lia]. apply lt_IZR. lra. }
  assert (Hr64 : (r <= 64)%Z).
  { assert (r < 65)%Z; [|lia]. apply lt_IZR. lra. }
  assert (Hwt : (w = t * (2 * PI / 64))%R).
  { unfold t, NUM_HANDLES. field. lra. }
  destruct (decide (r = 64%Z)) as [Hr_eq|Hr_ne].
  - rewrite Hr_eq. change (Z.rem 64 NUM_HANDLES) with 0%Z.
    split; [unfold NUM_HANDLES; lia|]. exists (1 - turn)%Z.
    unfold handleAngle, NUM_HANDLES. rewrite minus_IZR.
    replace (0 / 64 * 2 * PI - PI / 2 + 2 * PI * (1 - IZR turn) - atan2 dy dx)%R
      with ((IZR r - t) * (2 * PI / 64))%R.
    + apply Rabs_le. nra.
    + rewrite Hr_eq. unfold n in Hwn. nra.
  - rewrite Z.rem_small by (unfold NUM_HANDLES; lia).
    split; [unfold NUM_HANDLES; lia|]. exists (- turn)%Z.
    unfold handleAngle, NUM_HANDLES. rewrite opp_IZR.
    replace (IZR r / 64 * 2 * PI - PI / 2 + 2 * PI * - IZR turn - atan2 dy dx)%R
      with ((IZR r - t) * (2 * PI / 64))%R.
    + apply Rabs_le. nra.
    + unfold n in Hwn. nra.
Qed.

(** A handle angle within half a step of an angle is a nearest one among
    all handle angles, whole turns included. *)
Lemma handleAngle_nearest (theta : R) (index turns : Z) :
  (Rabs (handleAngle index + 2 * PI * IZR turns - theta) <= PI / 64)%R ->
  forall k turns' : Z,
    (Rabs (handleAngle index + 2 * PI * IZR turns - theta)
     <= Rabs (handleAngle k + 2 * PI * IZR turns' - theta))%R.
Proof.
  intros Hnear k turns'. pose proof PI_RGT_0 as Hpi.
  destruct (Rle_lt_dec (Rabs (handleAngle index + 2 * PI * IZR turns - theta))
              (Rabs (handleAngle k + 2 * PI * IZR turns' - theta))) as [|Hlt]; [done|].
  exfalso.
  set (L := (index + 64 * turns)%Z). set (L' := (k + 64 * turns')%Z).
  assert (HL : (handleAngle index + 2 * PI * IZR turns = IZR L * (2 * PI / 64) - PI / 2)%R).
  { unfold handleAngle, NUM_HANDLES, L. rewrite plus_IZR, mult_IZR. field. }
  assert (HL' : (handleAngle k + 2 * PI * IZR turns' = IZR L' * (2 * PI / 64) - PI / 2)%R).
  { unfold handleAngle, NUM_HANDLES, L'. rewrite plus_IZR, mult_IZR. field. }
  rewrite HL, HL' in *.
  assert (Hd : (Rabs (IZR L' * (2 * PI / 64) - PI / 2 - theta) < PI / 64)%R) by lra.
  apply Rabs_def2 in Hd as [Hd1 Hd2].
  assert (Hn : (Rabs (IZR L * (2 * PI / 64) - PI / 2 - theta) <= PI / 64)%R) by lra.
  assert (Hn1 : (- (PI / 64) <= IZR L * (2 * PI / 64) - PI / 2 - theta <= PI / 64)%R).
  { revert Hn. unfold Rabs. destruct (Rcase_abs _); lra. }
  assert (Heq : L = L').
  { assert (L - L' < 1)%Z.
    { apply lt_IZR. rewrite minus_IZR. nra. }
    assert (-1 < L - L')%Z.
    { apply lt_IZR. rewrite minus_IZR. nra. }
    lia. }
  rewrite Heq in Hlt. lra.
Qed.

(** ** [atan2] is the angle of the vector *)

Lemma norm_factor (x y : R) :
  (x <> 0)%R ->
  sqrt (x * x + y * y) = (Rabs x * sqrt (1 + (y / x)²))%R.
Proof.
  intros Hx.
  replace (x * x + y * y)%R with (x² * (1 + (y / x)²))%R
    by (unfold Rsqr; field; done).
  rewrite sqrt_mult.
  - by rewrite sqrt_Rsqr_abs.
  - apply Rle_0_sqr.
  - pose proof (Rle_0_sqr (y / x)). lra.
Qed.

Lemma atan2_polar (dx dy : R) :
  (dx <> 0 \/ dy <> 0)%R ->
  let d := sqrt (dx * dx + dy * dy) in
  (dx = d * cos (atan2 dy dx) /\ dy = d * sin (atan2 dy dx))%R.
Proof.
  intros Hnz d. unfold atan2.
  assert (Hs : forall t, (0 < sqrt (1 + t²))%R).
  { intros t. apply sqrt_lt_R0. pose proof (Rle_0_sqr t). lra. }
  destruct (decide (0 < dx)%R) as [Hpos|Hnpos].
  - unfold d. rewrite norm_factor by lra. rewrite Rabs_pos_eq by lra.
    rewrite cos_atan, sin_atan. specialize (Hs (dy / dx)%R).
    split; field; lra.
  - destruct (decide (dx < 0)%R) as [Hneg|Hnneg].
    + unfold d. rewrite norm_factor by lra. rewrite Rabs_left by lra.
      specialize (Hs (dy / dx)%R).
      destruct (decide (dy < 0)%R).
      * rewrite cos_minus, sin_minus, cos_PI, sin_PI, cos_atan, sin_atan.
        split; field; lra.
      * rewrite neg_cos, neg_sin, cos_atan, sin_atan.
        split; field; lra.
    + assert (dx = 0%R) as -> by lra.
      assert (Hd : d = Rabs dy).
      { unfold d. replace (0 * 0 + dy * dy)%R with (Rsqr dy) by (unfold Rsqr; ring).
        apply sqrt_Rsqr_abs. }
      rewrite Hd.
      destruct (decide (0 < dy)%R).
      * rewrite cos_PI2, sin_PI2, Rabs_pos_eq by lra. lra.
      * destruct (decide (dy < 0)%R); [|lra].
        rewrite cos_neg, sin_neg, cos_PI2, sin_PI2, Rabs_left by lra. lra.
Qed.


(** C9. For every non-zero direction vector the edge attachment selector
    returns an integer index in [[0, 64)]; the angle [atan2 dy dx] is the
    angle of the vector, and the handle drawn at the returned index is a
    nearest one to it among the 64 evenly spaced handle angles (compared
    up to whole turns).  When [onNodesChange] recomputes the handles of an
    edge, the source side uses the forward vector from source to target
    and the target side the reversed vector. *)
Theorem handle_index_nearest :
  (forall dx dy : R,
      (dx <> 0 \/ dy <> 0)%R ->
      let index := getHandleIndex dx dy in
      let theta := atan2 dy dx in
      let d := sqrt (dx * dx + dy * dy) in
      (0 <= index < 64)%Z
      /\ (dx = d * cos theta /\ dy = d * sin theta)%R
      /\ exists turns : Z, forall k turns' : Z,
           (0 <= k < 64)%Z ->
           (Rabs (handleAngle index + 2 * PI * IZR turns - theta)
            <= Rabs (handleAngle k + 2 * PI * IZR turns' - theta))%R)
  /\ (forall nodesAfterCollision positionChangeId edge sourceNode targetNode,
        mapById nodesAfterCollision !! Edge.source edge = Some sourceNode ->
        mapById nodesAfterCollision !! Edge.target edge = Some targetNode ->
        Node.id sourceNode = positionChangeId \/ Node.id targetNode = positionChangeId ->
        let dx := (XY.x (Node.position targetNode) - XY.x (Node.position sourceNode))%R in
        let dy := (XY.y (Node.position targetNode) - XY.y (Node.position sourceNode))%R in
        let edge' := updateEdge nodesAfterCollision positionChangeId edge in
        Edge.sourceHandle edge' = Some (getHandleId (getHandleIndex dx dy) source)
        /\ Edge.targetHandle edge'
           = Some (getHandleId (getHandleIndex (- dx) (- dy)) target)).
Proof.
  split.
  - intros dx dy Hnz index theta d.
    destruct (getHandleIndex_spec dx dy) as [Hrange [turns Hnear]].
    split; [done|]. split; [by apply atan2_polar|].
    exists turns. intros k turns' _. by apply handleAngle_nearest.
  - intros nodes cid edge s t Hs Ht Htouch dx dy edge'.
    unfold edge', updateEdge. rewrite Hs, Ht.
    destruct Htouch as [<-|<-]; rewrite String.eqb_refl; simpl;
      rewrite ?andb_false_r; done.
Qed.

(** The attachment indices of the four axis directions: right, down (the
    y axis of the canvas points down), left and up. *)
Example handle_index_right : getHandleIndex 1 0 = 16%Z.
Proof.
  pose proof PI_RGT_0 as Hpi. unfold getHandleIndex, atan2. cbv zeta.
  rewrite decide_True by lra.
  replace (0 / 1)%R with 0%R by field. rewrite atan_0.
  rewrite (jsRem_small (0 + PI / 2)) by lra.
  rewrite jsRem_once by lra.
  replace ((0 + PI / 2 + 2 * PI - 2 * PI) / (2 * PI) * IZR NUM_HANDLES)%R with 16%R
    by (unfold NUM_HANDLES; field; lra).
  replace (mathRound 16) with 16%Z; [done|].
  apply Int_part_spec. lra.
Qed.

Example handle_index_up : getHandleIndex 0 (-1) = 0%Z.
Proof.
  pose proof PI_RGT_0 as Hpi. unfold getHandleIndex, atan2. cbv zeta.
  rewrite decide_False by lra. rewrite decide_False by lra.
  rewrite decide_False by lra. rewrite decide_True by lra.
  rewrite (jsRem_small (- (PI / 2) + PI / 2)) by lra.
  rewrite jsRem_once by lra.
  replace ((- (PI / 2) + PI / 2 + 2 * PI - 2 * PI) / (2 * PI) * IZR NUM_HANDLES)%R with 0%R
    by (unfold NUM_HANDLES; field; lra).
  replace (mathRound 0) with 0%Z; [done|].
  apply Int_part_spec. lra.
Qed.

Example handle_index_down : getHandleIndex 0 1 = 32%Z.
Proof.
  pose proof PI_RGT_0 as Hpi. unfold getHandleIndex, atan2. cbv zeta.
  rewrite decide_False by lra. rewrite decide_False by lra.
  rewrite decide_True by lra.
  rewrite (jsRem_small (PI / 2 + PI / 2)) by lra.
  rewrite jsRem_once by lra.
  replace ((PI / 2 + PI / 2 + 2 * PI - 2 * PI) / (2 * PI) * IZR NUM_HANDLES)%R with 32%R
    by (unfold NUM_HANDLES; field; lra).
  replace (mathRound 32) with 32%Z; [done|].
  apply Int_part_spec. lra.
Qed.

Example handle_index_left : getHandleIndex (-1) 0 = 48%Z.
Proof.
  pose proof PI_RGT_0 as Hpi. unfold getHandleIndex, atan2. cbv zeta.
  rewrite decide_False by lra. rewrite decide_True by lra.
  rewrite decide_False by lra.
  replace (0 / -1)%R with 0%R by (field; lra). rewrite atan_0.
  rewrite (jsRem_small (0 + PI + PI / 2)) by lra.
  rewrite jsRem_once by lra.
  replace ((0 + PI + PI / 2 + 2 * PI - 2 * PI) / (2 * PI) * IZR NUM_HANDLES)%R with 48%R
    by (unfold NUM_HANDLES; field; lra).
  replace (mathRound 48) with 48%Z; [done|].
  apply Int_part_spec. lra.
Qed.

Lemma handle_index_nearest_witness :
  let theta := atan2 0 1 in
  ((0 <= getHandleIndex 1 0 < 64)%Z
   /\ (1 = sqrt (1 * 1 + 0 * 0) * cos theta /\ 0 = sqrt (1 * 1 + 0 * 0) * sin theta)%R
   /\ exists turns : Z, forall k turns' : Z,
        (0 <= k < 64)%Z ->
        (Rabs (handleAngle (getHandleIndex 1 0) + 2 * PI * IZR turns - theta)
         <= Rabs (handleAngle k + 2 * PI * IZR turns' - theta))%R)
  /\ (let edge := Edge.mk "edge-user-a" "user-center" "a" None None (Some "default") None in
      let edge' := updateEdge [centerNode; contactNode "a" 1 0] "a" edge in
      Edge.sourceHandle edge' = Some (getHandleId (getHandleIndex (1 - 0) (0 - 0)) source)
      /\ Edge.targetHandle edge'
         = Some (getHandleId (getHandleIndex (- (1 - 0)) (- (0 - 0))) target)).
Proof.
  intros theta. destruct handle_index_nearest as [Hindex Hedge]. split.
  - apply (Hindex 1%R 0%R). left. lra.
  - apply (Hedge [centerNode; contactNode "a" 1 0] "a" _ centerNode (contactNode "a" 1 0)).
    + reflexivity.
    + reflexivity.
    + by right.
Defined.

Example handle_id_format : getHandleId 16 source = "source-16".
Proof. reflexivity. Qed.

(** ** Placement priority *)

(** C1, amended. For every node the placement computation selects the
    existing in-memory position of the prior render when there is one,
    else the persisted position of the position store when there is one,
    else the freshly computed initial placement; this order is the same
    for direct connections and for introduced connections. *)
Theorem placement_priority (prevById : gmap string Node.t)
    (savedPositions : gmap string XY.t) (introducerNode : Node.t)
    (children : list Person.t) (index : nat) (person : Person.t) :
  let direct := directPosition prevById savedPositions person in
  let introduced :=
    introducedPosition prevById savedPositions introducerNode children index person in
  (forall existing, prevById !! Person.id person = Some existing ->
     direct = Node.position existing /\ introduced = Node.position existing)
  /\ (forall saved, prevById !! Person.id person = None ->
        savedPositions !! Person.id person = Some saved ->
        direct = saved /\ introduced = saved)
  /\ (prevById !! Person.id person = None ->
      savedPositions !! Person.id person = None ->
      direct = directInitial person
      /\ introduced = introducedInitial introducerNode children index person).
Proof.
  unfold directPosition, introducedPosition. cbv zeta. split; [|split].
  - intros existing ->. done.
  - intros saved -> ->. done.
  - intros -> ->. done.
Qed.


Lemma placement_priority_witness :
  let person := examplePerson "p" None in
  let existing := contactNode "p" 1 1 in
  let prevById : gmap string Node.t := {["p" := existing]} in
  let savedPositions : gmap string XY.t := {["p" := XY.mk 2 2]} in
  (directPosition prevById savedPositions person = XY.mk 1 1
   /\ introducedPosition prevById savedPositions centerNode [person] 0 person = XY.mk 1 1)
  /\ (directPosition ∅ savedPositions person = XY.mk 2 2
      /\ introducedPosition ∅ savedPositions centerNode [person] 0 person = XY.mk 2 2)
  /\ (directPosition ∅ ∅ person = directInitial person
      /\ introducedPosition ∅ ∅ centerNode [person] 0 person
         = introducedInitial centerNode [person] 0 person).
Proof.
  intros person existing prevById savedPositions. split; [|split].
  - destruct (placement_priority prevById savedPositions centerNode [person] 0 person)
      as (Hexisting & _ & _).
    apply (Hexisting existing). reflexivity.
  - destruct (placement_priority ∅ savedPositions centerNode [person] 0 person)
      as (_ & Hsaved & _).
    apply (Hsaved (XY.mk 2 2)); reflexivity.
  - destruct (placement_priority ∅ ∅ centerNode [person] 0 person)
      as (_ & _ & Hcomputed).
    apply Hcomputed; reflexivity.
Defined.

(** C1 as stated fails: with an existing position [(1, 1)] and a
    persisted position [(2, 2)] for the same node, both placements select
    the existing one. *)
Lemma placement_priority_counterexample :
  let person := examplePerson "p" None in
  let existing := contactNode "p" 1 1 in
  let prevById : gmap string Node.t := {["p" := existing]} in
  let savedPositions : gmap string XY.t := {["p" := XY.mk 2 2]} in
  prevById !! Person.id person = Some existing
  /\ savedPositions !! Person.id person = Some (XY.mk 2 2)
  /\ directPosition prevById savedPositions person <> XY.mk 2 2
  /\ introducedPosition prevById savedPositions centerNode [person] 0 person <> XY.mk 2 2.
Proof.
  intros person existing prevById savedPositions.
  assert (Hne : XY.mk 1 1 <> XY.mk 2 2) by (intros [= H]; lra).
  repeat split; try reflexivity; exact Hne.
Qed.

(** ** Position store *)

Section PositionStoreProperties.
Variable JSON_stringify : gmap string XY.t -> string.
Variable JSON_parse : string -> Exc (gmap string XY.t).

(** C8. Without a user identity [saveNodePositions] leaves the storage
    as it is and [loadNodePositions] returns the empty map; with a user
    identity, [loadNodePositions] returns the empty map, and throws
    nothing, when the payload is missing, when reading the storage
    throws, and when parsing the payload throws. *)
Theorem position_store_fallbacks :
  (forall userId nodes storage,
      truthyId userId = None ->
      saveNodePositions JSON_stringify userId nodes storage = storage)
  /\ (forall userId storage,
        truthyId userId = None ->
        loadNodePositions JSON_parse userId storage = Ok ∅)
  /\ (forall uid storage,
        uid <> "" ->
        Storage.getItem storage (storageKey uid) = Ok None ->
        loadNodePositions JSON_parse (Some uid) storage = Ok ∅)
  /\ (forall uid storage error,
        uid <> "" ->
        Storage.getItem storage (storageKey uid) = Throw error ->
        loadNodePositions JSON_parse (Some uid) storage = Ok ∅)
  /\ (forall uid storage payload error,
        uid <> "" ->
        Storage.getItem storage (storageKey uid) = Ok (Some payload) ->
        JSON_parse payload = Throw error ->
        loadNodePositions JSON_parse (Some uid) storage = Ok ∅).
Proof.
  assert (Hid : forall uid, uid <> "" -> truthyId (Some uid) = Some uid).
  { intros uid Hne. simpl. apply String.eqb_neq in Hne. by rewrite Hne. }
  repeat split.
  - intros userId nodes storage H. unfold saveNodePositions. by rewrite H.
  - intros userId storage H. unfold loadNodePositions. by rewrite H.
  - intros uid storage Hne Hget. unfold loadNodePositions, loadAttempt.
    rewrite (Hid _ Hne), Hget. done.
  - intros uid storage error Hne Hget. unfold loadNodePositions, loadAttempt.
    rewrite (Hid _ Hne), Hget. done.
  - intros uid storage payload error Hne Hget Hparse.
    unfold loadNodePositions, loadAttempt.
    rewrite (Hid _ Hne), Hget. simpl.
    destruct (String.eqb payload ""); [done|]. by rewrite Hparse.
Qed.
End PositionStoreProperties.

(** With a user identity and a readable payload that parses, the parsed
    positions are returned; with a writable storage, the positions of the
    contacts are written under the key of the user. *)
Lemma loadNodePositions_parsed (JSON_parse : string -> Exc (gmap string XY.t))
    uid storage payload positions :
  uid <> "" -> payload <> "" ->
  Storage.getItem storage (storageKey uid) = Ok (Some payload) ->
  JSON_parse payload = Ok positions ->
  loadNodePositions JSON_parse (Some uid) storage = Ok positions.
Proof.
  intros Hu Hp Hget Hparse. unfold loadNodePositions, loadAttempt. simpl.
  apply String.eqb_neq in Hu, Hp. rewrite Hu, Hget. simpl. by rewrite Hp, Hparse.
Qed.

Lemma saveNodePositions_writes (JSON_stringify : gmap string XY.t -> string)
    uid nodes storage :
  uid <> "" -> Storage.writable storage = true ->
  Storage.items (saveNodePositions JSON_stringify (Some uid) nodes storage)
    !! storageKey uid
  = Some (JSON_stringify (collectPositions nodes)).
Proof.
  intros Hu Hw. unfold saveNodePositions, Storage.setItem. simpl.
  apply String.eqb_neq in Hu. rewrite Hu, Hw. simpl. apply lookup_insert_eq.
Qed.

Example collectPositions_skips_center :
  collectPositions [centerNode; contactNode "a" 1 2] = {["a" := XY.mk 1 2]}.
Proof. reflexivity. Qed.

Lemma position_store_fallbacks_witness :
  let stringify : gmap string XY.t -> string := fun _ => "{}" in
  let parse : string -> Exc (gmap string XY.t) := fun _ => Throw "SyntaxError" in
  let empty := Storage.mk ∅ true true in
  let denied := Storage.mk ∅ false true in
  let corrupt := Storage.mk {[storageKey "user_1" := "{"]} true true in
  saveNodePositions stringify None [contactNode "a" 1 1] empty = empty
  /\ loadNodePositions parse None corrupt = Ok ∅
  /\ loadNodePositions parse (Some "user_1") empty = Ok ∅
  /\ loadNodePositions parse (Some "user_1") denied = Ok ∅
  /\ loadNodePositions parse (Some "user_1") corrupt = Ok ∅.
Proof.
  intros stringify parse empty denied corrupt.
  destruct (position_store_fallbacks stringify parse) as (H1 & H2 & H3 & H4 & H5).
  split; [|split; [|split; [|split]]].
  - apply H1. reflexivity.
  - apply H2. reflexivity.
  - apply H3; [discriminate | reflexivity].
  - apply (H4 _ _ "SecurityError"); [discriminate | reflexivity].
  - apply (H5 _ _ "{" "SyntaxError"); [discriminate | reflexivity | reflexivity].
Defined.

(** * Further properties of the program *)

(** ** The settle pass *)

Lemma settleBody_inv i j nodeA nodeB nodes nodes' :
  settleBody i j nodeA nodeB nodes = Some nodes' ->
  settleCollides (Node.position nodeA) (Node.position nodeB) = true
  /\ exists pA pB,
       nodes' = <[j := Node.withPosition nodeB pB]> (<[i := Node.withPosition nodeA pA]> nodes).
Proof.
  unfold settleBody, settleCollides, distance. cbv zeta.
  destruct (_ && _); [|done]. intros [= <-]. eauto.
Qed.

Lemma settleBody_None_iff i j nodeA nodeB nodes :
  settleBody i j nodeA nodeB nodes = None
  <-> settleCollides (Node.position nodeA) (Node.position nodeB) = false.
Proof.
  unfold settleBody, settleCollides, distance. cbv zeta.
  destruct (_ && _); split; done.
Qed.

Lemma settleInitialLayout_frame nodes :
  frame <$> settleInitialLayout nodes = frame <$> nodes.
Proof.
  unfold settleInitialLayout, settleState.
  apply (whileLoop_invariant (fun l => frame <$> l = frame <$> nodes)); [|done].
  apply settlePass_invariant.
  intros nodes0 i nodeA Hf0 HA _ l j nodeB l' Hf Hij HB _ Hc.
  apply settleBody_inv in Hc as (_ & pA & pB & ->).
  rewrite !list_fmap_insert, <- Hf.
  assert (HfA : (frame <$> l) !! i = Some (frame (Node.withPosition nodeA pA))).
  { rewrite Hf, <- Hf0, list_lookup_fmap, HA. by destruct nodeA. }
  assert (HfB : (frame <$> l) !! j = Some (frame (Node.withPosition nodeB pB))).
  { rewrite list_lookup_fmap, HB. by destruct nodeB. }
  rewrite (list_insert_id _ _ _ HfA). by rewrite (list_insert_id _ _ _ HfB).
Qed.

Lemma frame_Forall2 (l k : list Node.t) :
  frame <$> k = frame <$> l -> Forall2 sameFrame l k.
Proof.
  intros Hf. apply Forall2_same_length_lookup. split; [symmetry; by apply frame_length|].
  intros i a b Ha Hb.
  assert (Hi : (frame <$> k) !! i = (frame <$> l) !! i) by by rewrite Hf.
  rewrite !list_lookup_fmap, Ha, Hb in Hi. simpl in Hi.
  injection Hi as H1 H2 H3 H4. unfold sameFrame. done.
Qed.

Lemma frame_ids (l k : list Node.t) :
  frame <$> k = frame <$> l -> Node.id <$> k = Node.id <$> l.
Proof.
  intros Hf.
  assert (Hid : forall l : list Node.t, Node.id <$> l = (fun t => t.1.1.1) <$> (frame <$> l)).
  { intros l0. rewrite <- list_fmap_compose. done. }
  by rewrite !Hid, Hf.
Qed.

(** X1. The settle pass of the initial layout returns a list of the same
    length, with the same ids in the same order, whose nodes agree with
    the input on every field but [position]. *)
Theorem settle_preserves_frame (nodes : list Node.t) :
  let result := settleInitialLayout nodes in
  length result = length nodes
  /\ Node.id <$> result = Node.id <$> nodes
  /\ Forall2 sameFrame nodes result.
Proof.
  intros result. pose proof (settleInitialLayout_frame nodes) as Hf. fold result in Hf.
  split; [by apply frame_length|]. split; [by apply frame_ids | by apply frame_Forall2].
Qed.

Lemma settlePass_quiet nodes :
  (settlePass nodes).2 = false -> settlePass nodes = (nodes, false) /\ settleQuiet nodes.
Proof.
  intros Hflag. unfold settlePass in *.
  apply (foldl_quiet _ (fun nodes i => forall a, nodes !! i = Some a ->
           settleSkip a = false ->
           forall j b, (i < j)%nat -> nodes !! j = Some b -> settleSkip b = false ->
             settleCollides (Node.position a) (Node.position b) = false)) in Hflag.
  - destruct Hflag as [Heq Hall]. split; [done|].
    intros i j a b Hij Ha Hb HsA HsB. rewrite Forall_seq in Hall.
    apply (Hall i) with (j := j); [|done..].
    apply lookup_lt_Some in Ha. lia.
  - clear. intros st i. unfold settleOuterStep.
    destruct (st.1 !! i) as [nodeA|] eqn:HA; [|done].
    destruct (settleSkip nodeA) eqn:HsA.
    { intros _. split; [done|]. intros a [= <-]. congruence. }
    intros Hflag.
    apply (foldl_quiet _ (fun nodes j => forall b, nodes !! j = Some b ->
             settleSkip b = false ->
             settleCollides (Node.position nodeA) (Node.position b) = false)) in Hflag.
    + destruct Hflag as [Heq Hall]. split; [done|].
      intros a [= <-] _ j b Hij Hb HsB. rewrite Forall_seq in Hall.
      apply (Hall j); [|done..]. apply lookup_lt_Some in Hb. lia.
    + clear. intros st j. unfold settleInnerStep.
      destruct (st.1 !! j) as [nodeB|] eqn:HB; [|done].
      destruct (settleSkip nodeB) eqn:HsB.
      { intros _. split; [done|]. intros b [= <-]. congruence. }
      destruct (settleBody _ _ _ _ _) eqn:Hc; [done|].
      intros _. split; [done|]. intros b [= <-] _.
      by apply settleBody_None_iff in Hc.
Qed.

Lemma settlePass_still nodes : settleQuiet nodes -> settlePass nodes = (nodes, false).
Proof.
  intros Hq. unfold settlePass. apply foldl_still, Forall_seq. intros i _.
  unfold settleOuterStep. simpl. destruct (nodes !! i) as [nodeA|] eqn:HA; [|done].
  destruct (settleSkip nodeA) eqn:HsA; [done|].
  apply foldl_still, Forall_seq. intros j Hj.
  unfold settleInnerStep. simpl. destruct (nodes !! j) as [nodeB|] eqn:HB; [|done].
  destruct (settleSkip nodeB) eqn:HsB; [done|].
  replace (settleBody i j nodeA nodeB nodes) with (@None (list Node.t)); [done|].
  symmetry. apply settleBody_None_iff. apply (Hq i j); [lia|done..].
Qed.

Lemma whileLoop_quiet p nodes :
  p nodes = (nodes, false) ->
  whileLoop p maxIterations (mkLoopState nodes true 0) = mkLoopState nodes false 1.
Proof.
  intros Hp. change maxIterations with (S (S 8)). cbn [whileLoop].
  unfold loopCond at 1. cbn [hasCollisions iterations andb].
  replace (0 <? maxIterations)%nat with true by done.
  unfold loopBody. cbn [updatedNodes iterations]. by rewrite Hp.
Qed.

(** The loop ends with a false flag only after a pass that changed
    nothing; the counter is between 1 and the cap. *)
Lemma whileLoop_settled p (Q : list Node.t -> Prop) nodes :
  (forall l, (p l).2 = false -> p l = (l, false) /\ Q l) ->
  let s := whileLoop p maxIterations (mkLoopState nodes true 0) in
  (hasCollisions s = false -> Q (updatedNodes s) /\ p (updatedNodes s) = (updatedNodes s, false))
  /\ (1 <= iterations s <= maxIterations)%nat
  /\ (hasCollisions s = true -> iterations s = maxIterations).
Proof.
  intros Hp s.
  assert (Hexit : loopCond s = false) by (apply whileLoop_exits; simpl; lia).
  assert (Hinv : (hasCollisions s = false ->
                  Q (updatedNodes s) /\ p (updatedNodes s) = (updatedNodes s, false))
                 /\ (iterations s <= maxIterations)%nat
                 /\ (hasCollisions s = true \/ 1 <= iterations s)%nat).
  { apply (whileLoop_state_invariant
             (fun s => (hasCollisions s = false ->
                        Q (updatedNodes s) /\ p (updatedNodes s) = (updatedNodes s, false))
                       /\ (iterations s <= maxIterations)%nat
                       /\ (hasCollisions s = true \/ 1 <= iterations s)%nat)).
    - intros s0 Hc _. unfold loopCond in Hc.
      apply andb_true_iff in Hc as [_ Hlt]. apply Nat.ltb_lt in Hlt.
      split; [|simpl; split; [lia | right; lia]]. simpl. intros Hflag.
      destruct (Hp _ Hflag) as [Heq HQ]. rewrite Heq. simpl. by rewrite Heq.
    - split; [done|]. split; [unfold maxIterations; simpl; lia | by left]. }
  destruct Hinv as (H1 & H2 & H3). split; [done|].
  unfold loopCond in Hexit. destruct (hasCollisions s) eqn:Hflag.
  - simpl in Hexit. apply Nat.ltb_ge in Hexit. unfold maxIterations in *.
    split; [lia|]. intros _. lia.
  - split; [|done]. destruct H3 as [?|?]; [done | lia].
Qed.

Lemma settleState_still nodes :
  settleQuiet nodes -> settleState nodes = mkLoopState nodes false 1.
Proof. intros Hq. unfold settleState. by apply whileLoop_quiet, settlePass_still. Qed.

Lemma settleQuiet_two a b :
  settleCollides (Node.position a) (Node.position b) = false -> settleQuiet [a; b].
Proof.
  intros H i j a' b' Hij Ha Hb _ _.
  destruct i as [|[|i]], j as [|[|j]]; simpl in *; try lia; try done.
  by injection Ha as <-; injection Hb as <-.
Qed.

Lemma separated_pair_settleQuiet :
  settleQuiet [contactNode "a" 0 0; contactNode "b" 100 0].
Proof.
  apply settleQuiet_two. unfold settleCollides. simpl.
  rewrite distance_horizontal, MIN_DISTANCE_value, Rabs_pos_eq by lra.
  apply andb_false_iff. left. apply bool_decide_eq_false. lra.
Qed.

(** X2. A layout in which every pair of nodes that the settle pass looks
    at (neither node is the non-draggable ["user-center"]) is at distance
    at least [MIN_DISTANCE] is returned by the settle pass as it is,
    however close the other nodes are to the center. *)
Theorem settle_fixpoint (nodes : list Node.t) :
  (forall i j a b, i <> j -> nodes !! i = Some a -> nodes !! j = Some b ->
     settleSkip a = false -> settleSkip b = false ->
     (MIN_DISTANCE <= distance (Node.position a) (Node.position b))%R) ->
  settleInitialLayout nodes = nodes.
Proof.
  intros Hsep. unfold settleInitialLayout, settleState.
  rewrite whileLoop_quiet; [done|]. apply settlePass_still.
  intros i j a b Hij Ha Hb HsA HsB. unfold settleCollides.
  apply andb_false_iff. left. apply bool_decide_eq_false.
  specialize (Hsep i j a b ltac:(lia) Ha Hb HsA HsB). lra.
Qed.

(** A contact that overlaps the center stays where it is. *)
Lemma settle_fixpoint_witness :
  settleInitialLayout [centerNode; contactNode "a" 10 0; contactNode "b" 50 0]
  = [centerNode; contactNode "a" 10 0; contactNode "b" 50 0].
Proof.
  apply settle_fixpoint. intros i j a b Hij Ha Hb HsA HsB.
  destruct i as [|[|[|i]]], j as [|[|[|j]]]; simpl in Ha, Hb; try done;
    injection Ha as <-; injection Hb as <-; try discriminate HsA; try discriminate HsB;
    simpl; rewrite distance_horizontal, MIN_DISTANCE_value.
  - rewrite Rabs_pos_eq; lra.
  - rewrite Rabs_left; lra.
Defined.

(** X3. After the settle pass returns, every two distinct nodes of the
    result other than the non-draggable ["user-center"] are at distance
    at least [MIN_DISTANCE], or they coincide (distance 0: such a pair is
    never corrected), or the loop stopped at the iteration cap with
    collisions still reported. *)
Theorem settle_separation (nodes : list Node.t) (i j : nat) (a b : Node.t) :
  i <> j ->
  settleInitialLayout nodes !! i = Some a ->
  settleInitialLayout nodes !! j = Some b ->
  settleSkip a = false -> settleSkip b = false ->
  (MIN_DISTANCE <= distance (Node.position a) (Node.position b))%R
  \/ distance (Node.position a) (Node.position b) = 0%R
  \/ capExhausted (settleState nodes).
Proof.
  intros Hij Ha Hb HsA HsB. unfold settleInitialLayout in *.
  destruct (whileLoop_settled settlePass settleQuiet nodes settlePass_quiet)
    as (Hquiet & _ & Hcap).
  fold (settleState nodes) in Hquiet, Hcap.
  destruct (hasCollisions (settleState nodes)) eqn:Hflag.
  - right. right. split; [done | by apply Hcap].
  - destruct (Hquiet eq_refl) as [Hq _].
    assert (Hpair : forall a b, settleCollides a b = false ->
              (MIN_DISTANCE <= distance a b)%R \/ distance a b = 0%R).
    { intros p q H. unfold settleCollides in H. apply andb_false_iff in H as [H|H];
        apply bool_decide_eq_false in H; [left; lra|right].
      pose proof (sqrt_pos ((XY.x q - XY.x p) * (XY.x q - XY.x p)
                            + (XY.y q - XY.y p) * (XY.y q - XY.y p))) as Hpos.
      unfold distance in *. cbv zeta in *. lra. }
    destruct (decide (i < j)%nat) as [Hlt|Hge].
    + destruct (Hpair _ _ (Hq i j a b Hlt Ha Hb HsA HsB)); auto.
    + assert (Hlt : (j < i)%nat) by lia.
      rewrite (distance_sym (Node.position a)).
      destruct (Hpair _ _ (Hq j i b a Hlt Hb Ha HsB HsA)); auto.
Qed.

Lemma settle_separation_witness :
  let a := contactNode "a" 0 0 in
  let b := contactNode "b" 100 0 in
  (MIN_DISTANCE <= distance (Node.position a) (Node.position b))%R
  \/ distance (Node.position a) (Node.position b) = 0%R
  \/ capExhausted (settleState [a; b]).
Proof.
  intros a b. apply (settle_separation [a; b] 0 1 a b).
  - lia.
  - unfold settleInitialLayout.
    by rewrite (settleState_still [a; b] separated_pair_settleQuiet).
  - unfold settleInitialLayout.
    by rewrite (settleState_still [a; b] separated_pair_settleQuiet).
  - reflexivity.
  - reflexivity.
Defined.

(** X4. Both resolvers run at least one and at most ten passes, and a run
    of fewer than ten passes ended on a pass that reported no collision. *)
Theorem resolver_pass_count (nodes : list Node.t) (changedNodeId : option string) :
  let drag := resolveState nodes changedNodeId in
  let settle := settleState nodes in
  ((1 <= iterations drag <= 10)%nat
   /\ ((iterations drag < 10)%nat -> hasCollisions drag = false))
  /\ ((1 <= iterations settle <= 10)%nat
      /\ ((iterations settle < 10)%nat -> hasCollisions settle = false)).
Proof.
  intros drag settle. split.
  - destruct (whileLoop_settled (pass changedNodeId) quiet ((fun n => n) <$> nodes)
                (pass_quiet changedNodeId)) as (_ & Hcount & Hcap).
    fold (resolveState nodes changedNodeId) in Hcount, Hcap. fold drag in Hcount, Hcap.
    split; [done|]. intros Hlt. destruct (hasCollisions drag); [|done].
    specialize (Hcap eq_refl). unfold maxIterations in Hcap. lia.
  - destruct (whileLoop_settled settlePass settleQuiet nodes settlePass_quiet)
      as (_ & Hcount & Hcap).
    fold (settleState nodes) in Hcount, Hcap. fold settle in Hcount, Hcap.
    split; [done|]. intros Hlt. destruct (hasCollisions settle); [|done].
    specialize (Hcap eq_refl). unfold maxIterations in Hcap. lia.
Qed.

Lemma resolver_pass_count_witness :
  hasCollisions (resolveState [contactNode "a" 0 0; contactNode "b" 10 0] None) = false
  /\ hasCollisions (settleState [contactNode "a" 0 0; contactNode "b" 100 0]) = false.
Proof.
  split.
  - destruct (resolver_pass_count [contactNode "a" 0 0; contactNode "b" 10 0] None)
      as [[_ H] _].
    apply H. rewrite run_of_free_pair. simpl. lia.
  - destruct (resolver_pass_count [contactNode "a" 0 0; contactNode "b" 100 0] None)
      as [_ [_ H]].
    apply H. rewrite (settleState_still _ separated_pair_settleQuiet). simpl. lia.
Defined.

(** X5. A result that the drag-time resolver reached without exhausting
    the iteration cap is stable: resolving it again, with any active id,
    returns it unchanged. *)
Theorem resolver_idempotent (nodes : list Node.t) (changedNodeId again : option string) :
  ~ capExhausted (resolveState nodes changedNodeId) ->
  detectAndResolveCollisions (detectAndResolveCollisions nodes changedNodeId) again
  = detectAndResolveCollisions nodes changedNodeId.
Proof.
  intros Hcap.
  destruct (whileLoop_settled (pass changedNodeId) quiet ((fun n => n) <$> nodes)
              (pass_quiet changedNodeId)) as (Hquiet & _ & Hmax).
  fold (resolveState nodes changedNodeId) in Hquiet, Hmax.
  assert (Hflag : hasCollisions (resolveState nodes changedNodeId) = false).
  { destruct (hasCollisions (resolveState nodes changedNodeId)) eqn:H; [|done].
    exfalso. apply Hcap. split; [done | by apply Hmax]. }
  destruct (Hquiet Hflag) as [Hq _].
  unfold detectAndResolveCollisions at 1. by rewrite (resolveState_quiet _ _ Hq).
Qed.

(** The pair that [run_of_free_pair] separates in four passes. *)
Lemma resolver_idempotent_witness :
  detectAndResolveCollisions
    (detectAndResolveCollisions [contactNode "a" 0 0; contactNode "b" 10 0] None)
    (Some "a")
  = detectAndResolveCollisions [contactNode "a" 0 0; contactNode "b" 10 0] None.
Proof.
  apply resolver_idempotent. rewrite run_of_free_pair. intros [H _]. discriminate H.
Defined.

(** ** Progress of one correction *)

Lemma pushed_apart_distance (pA pB : XY.t) (sA sB : R) :
  let d := distance pA pB in
  let ux := ((XY.x pB - XY.x pA) / d)%R in
  let uy := ((XY.y pB - XY.y pA) / d)%R in
  (0 < d)%R -> (0 <= sA)%R -> (0 <= sB)%R ->
  distance (XY.mk (XY.x pA - ux * sA) (XY.y pA - uy * sA))
           (XY.mk (XY.x pB + ux * sB) (XY.y pB + uy * sB))
  = (d + sA + sB)%R.
Proof.
  intros d ux uy Hd HsA HsB.
  assert (Hu : (ux * ux + uy * uy = 1)%R).
  { apply unit_vector_norm. fold (distance pA pB). done. }
  assert (Hx : (XY.x pB - XY.x pA = ux * d)%R) by (unfold ux; field; lra).
  assert (Hy : (XY.y pB - XY.y pA = uy * d)%R) by (unfold uy; field; lra).
  unfold distance at 1. simpl.
  replace ((XY.x pB + ux * sB - (XY.x pA - ux * sA))
           * (XY.x pB + ux * sB - (XY.x pA - ux * sA))
           + (XY.y pB + uy * sB - (XY.y pA - uy * sA))
             * (XY.y pB + uy * sB - (XY.y pA - uy * sA)))%R
    with ((d + sA + sB) * (d + sA + sB) * (ux * ux + uy * uy))%R.
  - rewrite Hu, Rmult_1_r. apply sqrt_square. lra.
  - replace (XY.x pB + ux * sB - (XY.x pA - ux * sA))%R
      with (ux * d + ux * sB + ux * sA)%R by lra.
    replace (XY.y pB + uy * sB - (XY.y pA - uy * sA))%R
      with (uy * d + uy * sB + uy * sA)%R by lra.
    ring.
Qed.

(** X6. When the drag-time pass corrects a pair whose first node has not
    been moved earlier in the same outer iteration, the two nodes end
    farther apart than they were: their distance grows by [pushA + pushB],
    which is more than 1.5.  If a node of the pair is the self-anchor, the
    new distance is exactly [MIN_DISTANCE + BOUNCE_FORCE], so the overlap
    with the anchor is gone after this one correction. *)
Theorem correction_widens c i j nodeA nodeB nodes nodes' :
  (i < j)%nat -> nodes !! i = Some nodeA -> nodes !! j = Some nodeB ->
  collisionBody c i j nodeA nodeB nodes = Some nodes' ->
  let d := distance (Node.position nodeA) (Node.position nodeB) in
  exists a' b',
    nodes' !! i = Some a' /\ nodes' !! j = Some b'
    /\ (d + 1.5 < distance (Node.position a') (Node.position b'))%R
    /\ (isUserCenter (Node.id nodeA) = true \/ isUserCenter (Node.id nodeB) = true ->
        distance (Node.position a') (Node.position b') = (MIN_DISTANCE + BOUNCE_FORCE)%R).
Proof.
  intros Hij Hi Hj Hc d.
  apply collisionBody_Some in Hc as [Hcol ->]. cbv zeta. fold d.
  apply collides_true in Hcol. fold d in Hcol.
  set (sh := pushShares c nodeA nodeB (pushDistanceAt d)).
  destruct (pushShares_nonneg c nodeA nodeB (pushDistanceAt d)) as [HsA HsB].
  { apply Rlt_le, pushDistanceAt_pos. lra. }
  fold sh in HsA, HsB.
  eexists _, _. split; [|split].
  - rewrite movePosition_lookup_ne by lia. by apply movePosition_lookup.
  - apply movePosition_lookup. by rewrite movePosition_lookup_ne by lia.
  - simpl. unfold d.
    rewrite (pushed_apart_distance (Node.position nodeA) (Node.position nodeB)
               sh.1 sh.2) by (fold d; lra).
    fold d. unfold sh, pushShares, pushDistanceAt, BOUNCE_FORCE.
    destruct (isUserCenter (Node.id nodeA)); [simpl; split; [lra | intros _; lra]|].
    destruct (isUserCenter (Node.id nodeB)); [simpl; split; [lra | intros _; lra]|].
    destruct (isChanged c (Node.id nodeA)), (isChanged c (Node.id nodeB)); simpl;
      (split; [lra | intros [?|?]; done]).
Qed.

Lemma correction_widens_witness :
  let nodeA := contactNode "a" 0 0 in
  let nodeB := contactNode "b" 10 0 in
  let d := distance (Node.position nodeA) (Node.position nodeB) in
  exists a' b',
    [contactNode "a" (0 - pushDistanceAt (10 - 0) * 0.25) 0;
     contactNode "b" (10 + pushDistanceAt (10 - 0) * 0.25) 0] !! 0%nat = Some a'
    /\ [contactNode "a" (0 - pushDistanceAt (10 - 0) * 0.25) 0;
        contactNode "b" (10 + pushDistanceAt (10 - 0) * 0.25) 0] !! 1%nat = Some b'
    /\ (d + 1.5 < distance (Node.position a') (Node.position b'))%R
    /\ (isUserCenter (Node.id nodeA) = true \/ isUserCenter (Node.id nodeB) = true ->
        distance (Node.position a') (Node.position b') = (MIN_DISTANCE + BOUNCE_FORCE)%R).
Proof.
  intros nodeA nodeB.
  apply (correction_widens None 0 1 nodeA nodeB [nodeA; nodeB]).
  - lia.
  - reflexivity.
  - reflexivity.
  - apply free_pair_correction. rewrite MIN_DISTANCE_value. lra.
Defined.

(** ** The position store *)

Lemma collectPositions_snoc nodes n :
  collectPositions (nodes ++ [n])
  = if isUserCenter (Node.id n) then collectPositions nodes
    else <[Node.id n := Node.position n]> (collectPositions nodes).
Proof.
  unfold collectPositions. rewrite foldl_app. cbn [foldl].
  unfold isUserCenter.
  destruct (String.eqb (Node.id n) "user-center"); [done|].
  destruct (String.eqb (Node.id n) "fallback-user-center"); [done|].
  simpl. by destruct (Node.position n).
Qed.

Lemma collectPositions_anchor nodes k :
  isUserCenter k = true -> collectPositions nodes !! k = None.
Proof.
  intros Hk. induction nodes as [|n nodes IH] using rev_ind; [done|].
  rewrite collectPositions_snoc. destruct (isUserCenter (Node.id n)) eqn:Hn; [done|].
  rewrite lookup_insert_ne; [done|]. intros Heq. congruence.
Qed.

Lemma collectPositions_origin nodes k p :
  collectPositions nodes !! k = Some p ->
  exists n, n ∈ nodes /\ Node.id n = k /\ Node.position n = p.
Proof.
  induction nodes as [|n nodes IH] using rev_ind; [done|].
  rewrite collectPositions_snoc. destruct (isUserCenter (Node.id n)) eqn:Hn.
  - intros H. destruct (IH H) as (m & Hm & ?). exists m. split; [|done].
    apply elem_of_app. by left.
  - destruct (decide (Node.id n = k)) as [<-|Hne].
    + rewrite lookup_insert_eq. intros [= <-]. exists n. split; [|done].
      apply elem_of_app. right. by apply list_elem_of_singleton.
    + rewrite lookup_insert_ne by done. intros H.
      destruct (IH H) as (m & Hm & ?). exists m. split; [|done].
      apply elem_of_app. by left.
Qed.

Lemma collectPositions_last before n after :
  isUserCenter (Node.id n) = false ->
  (forall m, m ∈ after -> Node.id m <> Node.id n) ->
  collectPositions (before ++ n :: after) !! Node.id n = Some (Node.position n).
Proof.
  intros Hn. induction after as [|m after IH] using rev_ind; intros Hlater.
  - rewrite collectPositions_snoc, Hn. apply lookup_insert_eq.
  - replace (before ++ n :: after ++ [m]) with ((before ++ n :: after) ++ [m])
      by (by rewrite <- app_assoc).
    rewrite collectPositions_snoc.
    assert (Hm : Node.id m <> Node.id n).
    { apply Hlater, elem_of_app. right. by apply list_elem_of_singleton. }
    assert (IH' : collectPositions (before ++ n :: after) !! Node.id n
                  = Some (Node.position n)).
    { apply IH. intros m' Hm'. apply Hlater, elem_of_app. by left. }
    destruct (isUserCenter (Node.id m)); [done|]. by rewrite lookup_insert_ne.
Qed.

(** X7. The record of positions that [saveNodePositions] writes never has
    an entry for ["user-center"] or ["fallback-user-center"]; every entry
    is the position of a node with that id; and every other node is
    recorded under its id with its position, unless a later node of the
    list has the same id. *)
Theorem saved_positions_contents (nodes : list Node.t) :
  (forall k, isUserCenter k = true -> collectPositions nodes !! k = None)
  /\ (forall k p, collectPositions nodes !! k = Some p ->
        exists n, n ∈ nodes /\ Node.id n = k /\ Node.position n = p)
  /\ (forall before n after,
        nodes = before ++ n :: after ->
        isUserCenter (Node.id n) = false ->
        (forall m, m ∈ after -> Node.id m <> Node.id n) ->
        collectPositions nodes !! Node.id n = Some (Node.position n)).
Proof.
  split; [|split].
  - intros k. apply collectPositions_anchor.
  - intros k p. apply collectPositions_origin.
  - intros before n after -> Hn Hlater. by apply collectPositions_last.
Qed.

Lemma saved_positions_contents_witness :
  collectPositions [centerNode; contactNode "a" 1 2] !! "a" = Some (XY.mk 1 2)
  /\ collectPositions [centerNode; contactNode "a" 1 2] !! "user-center" = None.
Proof.
  destruct (saved_positions_contents [centerNode; contactNode "a" 1 2]) as (H1 & _ & H3).
  split.
  - apply (H3 [centerNode] (contactNode "a" 1 2) []).
    + reflexivity.
    + reflexivity.
    + intros m Hm. by apply not_elem_of_nil in Hm.
  - apply H1. reflexivity.
Defined.

Lemma storageKey_inj uid uid' : storageKey uid = storageKey uid' -> uid = uid'.
Proof. unfold storageKey. simpl. by intros [= H]. Qed.

Section PositionStoreRoundTrips.
Variable JSON_stringify : gmap string XY.t -> string.
Variable JSON_parse : string -> Exc (gmap string XY.t).

Lemma load_after_save uid uid' nodes storage :
  uid <> "" -> Storage.writable storage = true ->
  Storage.getItem (saveNodePositions JSON_stringify (Some uid) nodes storage)
    (storageKey uid')
  = if decide (uid = uid')
    then (if Storage.readable storage
          then Ok (Some (JSON_stringify (collectPositions nodes)))
          else Throw "SecurityError")
    else Storage.getItem storage (storageKey uid').
Proof.
  intros Hu Hw. unfold saveNodePositions, Storage.setItem, Storage.getItem. simpl.
  apply String.eqb_neq in Hu. rewrite Hu, Hw. simpl.
  destruct (decide (uid = uid')) as [<-|Hne].
  - by rewrite lookup_insert_eq.
  - rewrite lookup_insert_ne; [done|]. intros H. by apply storageKey_inj in H.
Qed.

(** X8. Saving and loading round trip: when the storage can be written
    and read and [JSON.parse] inverts [JSON.stringify] on the saved
    record (whose text is not empty), [loadNodePositions] after
    [saveNodePositions] returns exactly the record of the saved nodes. *)
Theorem save_load_roundtrip (uid : string) (nodes : list Node.t) (storage : Storage.t) :
  uid <> "" ->
  Storage.writable storage = true -> Storage.readable storage = true ->
  JSON_stringify (collectPositions nodes) <> "" ->
  JSON_parse (JSON_stringify (collectPositions nodes)) = Ok (collectPositions nodes) ->
  loadNodePositions JSON_parse (Some uid)
    (saveNodePositions JSON_stringify (Some uid) nodes storage)
  = Ok (collectPositions nodes).
Proof.
  intros Hu Hw Hr Hne Hparse.
  apply (loadNodePositions_parsed JSON_parse uid _ (JSON_stringify (collectPositions nodes)));
    [done..| |done].
  rewrite load_after_save by done. rewrite decide_True by done. by rewrite Hr.
Qed.

(** X9. The store is scoped by user: saving the positions of one user
    leaves what [loadNodePositions] returns for every other user
    unchanged. *)
Theorem save_keeps_other_users (uid other : string) (nodes : list Node.t)
    (storage : Storage.t) :
  uid <> other ->
  loadNodePositions JSON_parse (Some other)
    (saveNodePositions JSON_stringify (Some uid) nodes storage)
  = loadNodePositions JSON_parse (Some other) storage.
Proof.
  intros Hne. unfold loadNodePositions, loadAttempt.
  destruct (truthyId (Some other)) as [o|] eqn:Ho; [|done].
  assert (o = other) as ->.
  { simpl in Ho. destruct (String.eqb other ""); congruence. }
  assert (Hget : Storage.getItem (saveNodePositions JSON_stringify (Some uid) nodes storage)
                   (storageKey other)
                 = Storage.getItem storage (storageKey other)).
  { unfold saveNodePositions. destruct (truthyId (Some uid)) as [u|] eqn:Hu; [|done].
    assert (u = uid) as ->.
    { simpl in Hu. destruct (String.eqb uid ""); congruence. }
    unfold Storage.setItem, Storage.getItem.
    destruct (Storage.writable storage) eqn:Hw; [|done]. simpl.
    rewrite lookup_insert_ne; [done|]. intros H. by apply storageKey_inj in H. }
  by rewrite Hget.
Qed.

(** X10. A dragged position survives a reload: after a successful save, on
    a render in which the node is not in memory, the placement of a
    person whose id is that of a saved contact node (the last one of its
    id in the saved list) is the saved position, for direct and for
    introduced connections. *)
Theorem saved_position_restored (uid : string) (storage : Storage.t)
    (before after : list Node.t) (n : Node.t)
    (prevById : gmap string Node.t) (introducerNode : Node.t)
    (children : list Person.t) (index : nat) (person : Person.t) :
  let nodes := before ++ n :: after in
  uid <> "" ->
  Storage.writable storage = true -> Storage.readable storage = true ->
  JSON_stringify (collectPositions nodes) <> "" ->
  JSON_parse (JSON_stringify (collectPositions nodes)) = Ok (collectPositions nodes) ->
  isUserCenter (Node.id n) = false ->
  (forall m, m ∈ after -> Node.id m <> Node.id n) ->
  Person.id person = Node.id n ->
  prevById !! Person.id person = None ->
  exists saved,
    loadNodePositions JSON_parse (Some uid)
      (saveNodePositions JSON_stringify (Some uid) nodes storage) = Ok saved
    /\ directPosition prevById saved person = Node.position n
    /\ introducedPosition prevById saved introducerNode children index person
       = Node.position n.
Proof.
  intros nodes Hu Hw Hr Hne Hparse Hn Hlater Hid Hprev.
  exists (collectPositions nodes). split.
  { apply (loadNodePositions_parsed JSON_parse uid _
             (JSON_stringify (collectPositions nodes))); [done..| |done].
    rewrite load_after_save by done. rewrite decide_True by done. by rewrite Hr. }
  unfold directPosition, introducedPosition. cbv zeta. rewrite Hprev, Hid.
  unfold nodes. by rewrite (collectPositions_last before n after Hn Hlater).
Qed.
End PositionStoreRoundTrips.

Lemma save_load_roundtrip_witness :
  let nodes := [centerNode; contactNode "a" 1 2] in
  let stringify : gmap string XY.t -> string := fun _ => "{a}" in
  let parse : string -> Exc (gmap string XY.t) := fun _ => Ok (collectPositions nodes) in
  loadNodePositions parse (Some "user_1")
    (saveNodePositions stringify (Some "user_1") nodes (Storage.mk ∅ true true))
  = Ok (collectPositions nodes).
Proof.
  intros nodes stringify parse. apply save_load_roundtrip.
  - discriminate.
  - reflexivity.
  - reflexivity.
  - discriminate.
  - reflexivity.
Defined.

Lemma save_keeps_other_users_witness :
  let nodes := [centerNode; contactNode "a" 1 2] in
  let stringify : gmap string XY.t -> string := fun _ => "{a}" in
  let parse : string -> Exc (gmap string XY.t) := fun _ => Ok ∅ in
  let storage := Storage.mk {[storageKey "user_2" := "{b}"]} true true in
  loadNodePositions parse (Some "user_2")
    (saveNodePositions stringify (Some "user_1") nodes storage)
  = loadNodePositions parse (Some "user_2") storage.
Proof.
  intros nodes stringify parse storage. apply save_keeps_other_users. discriminate.
Defined.

Lemma saved_position_restored_witness :
  let nodes := [centerNode; contactNode "a" 1 2] in
  let stringify : gmap string XY.t -> string := fun _ => "{a}" in
  let parse : string -> Exc (gmap string XY.t) := fun _ => Ok (collectPositions nodes) in
  let person := examplePerson "a" None in
  exists saved,
    loadNodePositions parse (Some "user_1")
      (saveNodePositions stringify (Some "user_1") nodes (Storage.mk ∅ true true))
    = Ok saved
    /\ directPosition ∅ saved person = XY.mk 1 2
    /\ introducedPosition ∅ saved centerNode [person] 0 person = XY.mk 1 2.
Proof.
  intros nodes stringify parse person.
  apply (saved_position_restored stringify parse "user_1" (Storage.mk ∅ true true)
           [centerNode] [] (contactNode "a" 1 2) ∅ centerNode [person] 0 person).
  - discriminate.
  - reflexivity.
  - reflexivity.
  - discriminate.
  - reflexivity.
  - reflexivity.
  - intros m Hm. by apply not_elem_of_nil in Hm.
  - reflexivity.
  - reflexivity.
Defined.

(** ** Resetting the positions *)

Lemma mapById_snoc nodes n : mapById (nodes ++ [n]) = <[Node.id n := n]> (mapById nodes).
Proof. unfold mapById. by rewrite foldl_app. Qed.

Lemma mapById_lookup nodes k n :
  mapById nodes !! k = Some n -> n ∈ nodes /\ Node.id n = k.
Proof.
  induction nodes as [|m nodes IH] using rev_ind; [done|].
  rewrite mapById_snoc. destruct (decide (Node.id m = k)) as [<-|Hne].
  - rewrite lookup_insert_eq. intros [= <-]. split; [|done].
    apply elem_of_app. right. by apply list_elem_of_singleton.
  - rewrite lookup_insert_ne by done. intros H. destruct (IH H) as [Hin ?].
    split; [|done]. apply elem_of_app. by left.
Qed.




(** ** The layout seeder and the initial placements *)

Lemma seedRandomFromString_range key :
  exists k : Z, (0 <= k < 10000)%Z /\ seedRandomFromString key = (IZR k / 10000)%R.
Proof.
  unfold seedRandomFromString. eexists. split; [|reflexivity].
  apply Z.mod_pos_bound. lia.
Qed.

Lemma seed_bounds key : (0 <= seedRandomFromString key < 1)%R.
Proof.
  destruct (seedRandomFromString_range key) as (k & [Hk0 Hk1] & ->).
  apply IZR_le in Hk0. apply IZR_lt in Hk1. lra.
Qed.

(** X12. The layout seeder returns a value in [[0, 1)] that is a whole
    number of ten-thousandths, for every key. *)
Theorem seed_in_unit_interval (key : string) :
  (0 <= seedRandomFromString key < 1)%R
  /\ exists k : Z, (0 <= k < 10000)%Z /\ seedRandomFromString key = (IZR k / 10000)%R.
Proof. split; [apply seed_bounds | apply seedRandomFromString_range]. Qed.

Lemma ring_distance (c : XY.t) (angle radius : R) :
  (0 <= radius)%R ->
  distance c (XY.mk (XY.x c + cos angle * radius) (XY.y c + sin angle * radius)) = radius.
Proof.
  intros Hr. unfold distance. simpl.
  replace ((XY.x c + cos angle * radius - XY.x c) * (XY.x c + cos angle * radius - XY.x c)
           + (XY.y c + sin angle * radius - XY.y c) * (XY.y c + sin angle * radius - XY.y c))%R
    with (radius * radius * ((sin angle)² + (cos angle)²))%R by (unfold Rsqr; ring).
  rewrite sin2_cos2, Rmult_1_r. by apply sqrt_square.
Qed.

(** X13. The computed placement of a direct connection lies on the ring
    around the center: its distance from the origin is at least 180 and
    less than 220, so a freshly placed direct connection never overlaps
    the center node. *)
Theorem direct_placement_on_ring (person : Person.t) :
  let d := distance (XY.mk 0 0) (directInitial person) in
  (180 <= d < 220)%R /\ (MIN_DISTANCE <= d)%R.
Proof.
  intros d. unfold d, directInitial, centerX, centerY. cbv zeta.
  pose proof (seed_bounds (String.append (Person.id person) "-radius")) as Hs.
  set (radius := (200 + (seedRandomFromString (String.append (Person.id person) "-radius")
                         - 0.5) * 40)%R).
  rewrite (ring_distance (XY.mk 0 0) _ radius) by (unfold radius; lra).
  rewrite MIN_DISTANCE_value. unfold radius. lra.
Qed.

(** X14. The computed placement of an introduced connection lies at
    distance at least 105 and less than 135 from the current position of
    its introducer, whatever the number of siblings and its index among
    them; it never overlaps the introducer. *)
Theorem introduced_placement_near_introducer (introducerNode : Node.t)
    (children : list Person.t) (index : nat) (person : Person.t) :
  let d := distance (Node.position introducerNode)
             (introducedInitial introducerNode children index person) in
  (105 <= d < 135)%R /\ (MIN_DISTANCE <= d)%R.
Proof.
  intros d. unfold d, introducedInitial. cbv zeta.
  pose proof (seed_bounds (String.append (Person.id person) "-radius")) as Hs.
  set (radius := (120 + (seedRandomFromString (String.append (Person.id person) "-radius")
                         - 0.5) * 30)%R).
  rewrite (ring_distance (Node.position introducerNode) _ radius) by (unfold radius; lra).
  rewrite MIN_DISTANCE_value. unfold radius. lra.
Qed.

(** ** More on the edge attachment selector *)

Lemma atan2_scale (k x y : R) : (0 < k)%R -> atan2 (k * y) (k * x) = atan2 y x.
Proof.
  intros Hk. unfold atan2.
  assert (Hq : (x <> 0 -> k * y / (k * x) = y / x)%R) by (intros; field; lra).
  destruct (decide (0 < x)%R) as [Hx|Hx].
  - rewrite decide_True by nra. rewrite Hq by lra. done.
  - rewrite (decide_False (P := (0 < k * x)%R)) by nra.
    destruct (decide (x < 0)%R) as [Hx'|Hx'].
    + rewrite decide_True by nra. rewrite Hq by lra.
      destruct (decide (y < 0)%R).
      * by rewrite decide_True by nra.
      * by rewrite decide_False by nra.
    + rewrite (decide_False (P := (k * x < 0)%R)) by nra.
      destruct (decide (0 < y)%R).
      * by rewrite decide_True by nra.
      * rewrite (decide_False (P := (0 < k * y)%R)) by nra.
        destruct (decide (y < 0)%R).
        -- by rewrite decide_True by nra.
        -- by rewrite decide_False by nra.
Qed.

(** X15. The attachment index depends on the direction of the vector
    only: scaling the vector by a positive factor does not change it. *)
Theorem handle_index_scale_invariant (k dx dy : R) :
  (0 < k)%R -> getHandleIndex (k * dx) (k * dy) = getHandleIndex dx dy.
Proof. intros Hk. unfold getHandleIndex. by rewrite atan2_scale. Qed.

Lemma atan2_reverse (x y : R) :
  (x <> 0 \/ y <> 0)%R ->
  atan2 (- y) (- x) = (atan2 y x + PI)%R \/ atan2 (- y) (- x) = (atan2 y x - PI)%R.
Proof.
  intros Hnz. unfold atan2.
  assert (Hq : (x <> 0 -> - y / - x = y / x)%R) by (intros; field; lra).
  destruct (decide (0 < x)%R) as [Hx|Hx].
  - rewrite (decide_False (P := (0 < - x)%R)) by lra.
    rewrite (decide_True (P := (- x < 0)%R)) by lra. rewrite Hq by lra.
    destruct (decide (- y < 0)%R); [by right | by left].
  - destruct (decide (x < 0)%R) as [Hx'|Hx'].
    + rewrite (decide_True (P := (0 < - x)%R)) by lra. rewrite Hq by lra.
      destruct (decide (y < 0)%R); [left | right]; lra.
    + assert (x = 0%R) as -> by lra. assert (Hy : y <> 0%R) by (destruct Hnz; lra).
      rewrite (decide_False (P := (0 < - 0)%R)) by lra.
      rewrite (decide_False (P := (- 0 < 0)%R)) by lra.
      destruct (decide (0 < y)%R).
      * rewrite (decide_False (P := (0 < - y)%R)) by lra.
        rewrite (decide_True (P := (- y < 0)%R)) by lra. right. lra.
      * rewrite (decide_True (P := (0 < - y)%R)) by lra.
        rewrite (decide_True (P := (y < 0)%R)) by lra. left. lra.
Qed.

Lemma handle_index_scale_invariant_witness :
  getHandleIndex (2 * 3) (2 * 4) = getHandleIndex 3 4.
Proof. apply handle_index_scale_invariant. lra. Defined.

Lemma Int_part_shift (r : R) (k : Z) : Int_part (r + IZR k) = (Int_part r + k)%Z.
Proof.
  symmetry. apply Int_part_spec. rewrite plus_IZR.
  destruct (base_Int_part r). lra.
Qed.

(** [getHandleIndex] rounds [handlePosition]. *)
Lemma getHandleIndex_rounds dx dy :
  getHandleIndex dx dy = roundToHandle (handlePosition dx dy).
Proof. reflexivity. Qed.

Lemma handlePosition_spec dx dy :
  (0 <= handlePosition dx dy < 64)%R
  /\ exists turn : Z,
       handlePosition dx dy
       = ((atan2 dy dx + PI / 2 + 2 * PI * IZR turn) / (2 * PI) * 64)%R.
Proof.
  pose proof PI_RGT_0 as Hpi. pose proof (atan2_bound dy dx) as Hb.
  destruct (wrappedAngle_spec (atan2 dy dx + PI / 2)) as [Hw (turn & _ & Hwn)]; [lra|].
  unfold handlePosition, NUM_HANDLES. cbv zeta. split.
  - destruct (div_bounds (jsRem (jsRem (atan2 dy dx + PI / 2) (2 * PI) + 2 * PI) (2 * PI))
                (2 * PI) 0 1) as [? ?]; lra.
  - exists turn. by rewrite Hwn.
Qed.

(** Reversing a non-zero vector moves its position by half a turn, 32
    handles, up to a whole turn. *)
Lemma handlePosition_reversed dx dy :
  (dx <> 0 \/ dy <> 0)%R ->
  exists m : Z,
    (m = 0 \/ m = -1)%Z
    /\ handlePosition (- dx) (- dy) = (handlePosition dx dy + IZR (32 + 64 * m))%R.
Proof.
  intros Hnz. pose proof PI_RGT_0 as Hpi.
  destruct (handlePosition_spec dx dy) as [Hs (turn & Hst)].
  destruct (handlePosition_spec (- dx) (- dy)) as [Hs' (turn' & Hst')].
  assert (Hdiff : exists m : Z,
            (handlePosition (- dx) (- dy) = handlePosition dx dy + IZR (32 + 64 * m))%R).
  { destruct (atan2_reverse dx dy Hnz) as [Hr|Hr]; rewrite Hr in Hst'.
    - exists (turn' - turn)%Z. rewrite Hst, Hst', plus_IZR, mult_IZR, minus_IZR.
      field. lra.
    - exists (turn' - turn - 1)%Z. rewrite Hst, Hst', plus_IZR, mult_IZR, !minus_IZR.
      field. lra. }
  destruct Hdiff as (m & Hm). exists m. split; [|done].
  rewrite Hm, plus_IZR, mult_IZR in Hs'.
  assert (-2 < m)%Z; [|assert (m < 1)%Z; [|lia]]; apply lt_IZR; lra.
Qed.

(** A value within [eps] of [s] rounds as [s] does when [s] is farther
    than [eps] from every tie. *)
Lemma mathRound_stable (s t eps : R) :
  (Rabs (t - s) <= eps)%R ->
  (forall k : Z, (eps < Rabs (s - (IZR k + 0.5)))%R) ->
  mathRound t = mathRound s.
Proof.
  intros Ht Hoff. pose proof (mathRound_spec s) as Hr.
  pose proof (Hoff (mathRound s - 1)%Z) as Hlo. pose proof (Hoff (mathRound s)) as Hhi.
  rewrite minus_IZR in Hlo.
  unfold Rabs in Ht, Hlo, Hhi.
  destruct (Rcase_abs (t - s)), (Rcase_abs (s - (IZR (mathRound s) - 1 + 0.5))),
    (Rcase_abs (s - (IZR (mathRound s) + 0.5)));
    unfold mathRound at 1; symmetry; apply Int_part_spec; lra.
Qed.

Lemma mathRound_shift (s : R) (n : Z) : mathRound (s + IZR n) = (mathRound s + n)%Z.
Proof.
  unfold mathRound.
  replace (s + IZR n + 0.5)%R with (s + 0.5 + IZR n)%R by ring.
  apply Int_part_shift.
Qed.

Lemma roundToHandle_opposite (s : R) (m : Z) :
  (0 <= s < 64)%R -> (0 <= s + IZR (32 + 64 * m) < 64)%R -> (m = 0 \/ m = -1)%Z ->
  Z.rem (mathRound s + (32 + 64 * m)) 64 = ((Z.rem (mathRound s) 64 + 32) mod 64)%Z.
Proof.
  intros Hs Hs' Hm. pose proof (mathRound_spec s) as Hr. set (r := mathRound s) in *.
  assert (Hr0 : (0 <= r <= 64)%Z).
  { split; [assert (-1 < r)%Z; [apply lt_IZR; lra | lia]
           |assert (r < 65)%Z; [apply lt_IZR; lra | lia]]. }
  destruct Hm as [-> | ->];
    [change (32 + 64 * 0)%Z with 32%Z in * | change (32 + 64 * -1)%Z with (-32)%Z in *].
  - assert (Hr32 : (r <= 32)%Z).
    { assert (r < 33)%Z; [apply lt_IZR; lra | lia]. }
    destruct (decide (r = 32)%Z) as [->|]; [reflexivity|].
    rewrite (Z.rem_small r) by lia. rewrite Z.rem_small by lia.
    rewrite Z.mod_small by lia. done.
  - assert (Hr32 : (32 <= r)%Z).
    { assert (31 < r)%Z; [apply lt_IZR; lra | lia]. }
    destruct (decide (r = 64)%Z) as [->|]; [reflexivity|].
    rewrite (Z.rem_small r) by lia. rewrite Z.rem_small by lia.
    replace (r + 32)%Z with (r - 32 + 1 * 64)%Z by lia.
    rewrite Z.mod_add by lia. rewrite Z.mod_small by lia. lia.
Qed.

Lemma handlePosition_right : handlePosition 1 0 = 16%R.
Proof.
  pose proof PI_RGT_0 as Hpi. unfold handlePosition, atan2. cbv zeta.
  rewrite decide_True by lra.
  replace (0 / 1)%R with 0%R by field. rewrite atan_0.
  rewrite (jsRem_small (0 + PI / 2)) by lra.
  rewrite jsRem_once by lra.
  unfold NUM_HANDLES. field. lra.
Qed.

Lemma handlePosition_right_reversed : handlePosition (Ropp 1) (Ropp 0) = 48%R.
Proof.
  pose proof PI_RGT_0 as Hpi. unfold handlePosition, atan2. cbv zeta.
  rewrite decide_False by lra. rewrite decide_True by lra.
  rewrite decide_False by lra.
  replace (Ropp 0 / Ropp 1)%R with 0%R by (field; lra). rewrite atan_0.
  rewrite (jsRem_small (0 + PI + PI / 2)) by lra.
  rewrite jsRem_once by lra.
  unfold NUM_HANDLES. field. lra.
Qed.

(** X16. The two ends of an edge attach at diametrically opposite
    handles, away from ties.  Let [t] and [t'] be the numbers that
    [getHandleIndex] rounds for a non-zero vector and for the reversed
    vector, each within [eps] of its exact value [handlePosition].  When
    the exact value for the vector is farther than [eps] from every tie
    [k + 0.5] between two handles, rounding [t] and [t'] gives the indices
    of the exact computation, and the second is the first plus 32, modulo
    64. *)
Theorem opposite_handles (dx dy t t' eps : R) :
  (dx <> 0 \/ dy <> 0)%R ->
  (Rabs (t - handlePosition dx dy) <= eps)%R ->
  (Rabs (t' - handlePosition (- dx) (- dy)) <= eps)%R ->
  (forall k : Z, (eps < Rabs (handlePosition dx dy - (IZR k + 0.5)))%R) ->
  roundToHandle t = getHandleIndex dx dy
  /\ roundToHandle t' = getHandleIndex (- dx) (- dy)
  /\ roundToHandle t' = ((roundToHandle t + 32) mod 64)%Z.
Proof.
  intros Hnz Ht Ht' Hoff.
  destruct (handlePosition_reversed dx dy Hnz) as (m & Hm & Hrev).
  destruct (handlePosition_spec dx dy) as [Hs _].
  destruct (handlePosition_spec (- dx) (- dy)) as [Hs' _].
  assert (Hoff' : forall k : Z,
            (eps < Rabs (handlePosition (- dx) (- dy) - (IZR k + 0.5)))%R).
  { intros k. specialize (Hoff (k - (32 + 64 * m))%Z). rewrite minus_IZR in Hoff.
    rewrite Hrev.
    replace (handlePosition dx dy + IZR (32 + 64 * m) - (IZR k + 0.5))%R
      with (handlePosition dx dy - (IZR k - IZR (32 + 64 * m) + 0.5))%R by ring.
    done. }
  assert (H1 : mathRound t = mathRound (handlePosition dx dy))
    by (by apply (mathRound_stable _ _ eps)).
  assert (H2 : mathRound t' = mathRound (handlePosition (- dx) (- dy)))
    by (by apply (mathRound_stable _ _ eps)).
  rewrite !getHandleIndex_rounds. unfold roundToHandle, NUM_HANDLES.
  rewrite H1, H2. split; [done|]. split; [done|].
  rewrite Hrev in Hs' |- *. rewrite mathRound_shift.
  by apply roundToHandle_opposite.
Qed.

(** A vector pointing right, with both positions off by 0.0004. *)
Lemma opposite_handles_witness :
  roundToHandle 16.0004 = getHandleIndex 1 0
  /\ roundToHandle 47.9996 = getHandleIndex (Ropp 1) (Ropp 0)
  /\ roundToHandle 47.9996 = ((roundToHandle 16.0004 + 32) mod 64)%Z.
Proof.
  apply (opposite_handles 1 0 16.0004 47.9996 0.001).
  - left. lra.
  - rewrite handlePosition_right. apply Rabs_le. lra.
  - rewrite handlePosition_right_reversed. apply Rabs_le. lra.
  - intros k. rewrite handlePosition_right. unfold Rabs.
    destruct (Z_le_gt_dec k 15) as [Hk|Hk].
    + apply IZR_le in Hk. destruct (Rcase_abs _); lra.
    + assert (Hk' : (16 <= k)%Z) by lia. apply IZR_le in Hk'.
      destruct (Rcase_abs _); lra.
Defined.

Lemma getHandleId_rendered (index : Z) (type : HandleType) :
  (0 <= index < 64)%Z -> getHandleId index type ∈ renderedHandleIds.
Proof.
  intros Hi. unfold renderedHandleIds. apply list_elem_of_join.
  exists [String.append "source-" (pretty index); String.append "target-" (pretty index)].
  split.
  - destruct type; [apply list_elem_of_here | apply list_elem_of_further, list_elem_of_here].
  - apply list_elem_of_fmap. exists (Z.to_nat index). split.
    + by rewrite Z2Nat.id by lia.
    + apply elem_of_seq. unfold NUM_HANDLES. lia.
Qed.

Lemma getHandleIndex_range dx dy : (0 <= getHandleIndex dx dy < 64)%Z.
Proof. by destruct (getHandleIndex_spec dx dy) as [H _]. Qed.

(** X17. The handle ids that [PersonCircleNode] renders are pairwise
    distinct, and the two handles that the handle recomputation of
    [onNodesChange] sets on an edge are always among them, whatever the
    positions of the two nodes (coincident nodes included). *)
Theorem attachment_handles_rendered :
  NoDup renderedHandleIds
  /\ forall sourceNode targetNode edge,
       exists sourceHandle targetHandle,
         Edge.sourceHandle (recomputeHandles sourceNode targetNode edge) = Some sourceHandle
         /\ Edge.targetHandle (recomputeHandles sourceNode targetNode edge) = Some targetHandle
         /\ sourceHandle ∈ renderedHandleIds /\ targetHandle ∈ renderedHandleIds.
Proof.
  split.
  - apply (bool_decide_unpack _). vm_compute. exact I.
  - intros s t e. eexists _, _. split; [reflexivity|]. split; [reflexivity|].
    split; apply getHandleId_rendered, getHandleIndex_range.
Qed.

(** ** Colors *)

Lemma mathFloor_scaled (s : R) (n : Z) :
  (0 <= s < 1)%R -> (0 < n)%Z -> (0 <= mathFloor (s * IZR n) < n)%Z.
Proof.
  intros Hs Hn. unfold mathFloor.
  destruct (base_Int_part (s * IZR n)) as [H1 H2].
  assert (Hn' : (0 < IZR n)%R) by (by apply IZR_lt).
  split.
  - assert (-1 < Int_part (s * IZR n))%Z; [|lia]. apply lt_IZR. nra.
  - apply lt_IZR. nra.
Qed.

Lemma mathFloor_scaled_upper_half (s : R) (n : Z) :
  (0.5 <= s < 1)%R -> (0 < n)%Z -> (n <= mathFloor (s * IZR (2 * n)))%Z.
Proof.
  intros Hs Hn. unfold mathFloor.
  destruct (base_Int_part (s * IZR (2 * n))) as [H1 H2].
  assert (Hn' : (0 < IZR n)%R) by (by apply IZR_lt).
  rewrite mult_IZR in *.
  assert (n - 1 < Int_part (s * (2 * IZR n)))%Z; [|lia].
  apply lt_IZR. rewrite minus_IZR. nra.
Qed.

(** X18. The gradient of a node is made of valid color components for
    every id: both hues are whole degrees in [[0, 360)], both saturations
    are in [[70, 95)], the lightness of the first color is in [[45, 65)]
    and that of the second in [[50, 70)]; the second hue is the first one,
    or lies 40 to 59 degrees away from it on the color circle. *)
Theorem gradient_components_valid (id : string) :
  let '((hue1, sat1, light1), (hue2, sat2, light2)) := gradientComponents id in
  (0 <= hue1 < 360)%Z /\ (0 <= hue2 < 360)%Z
  /\ (70 <= sat1 < 95)%Z /\ (70 <= sat2 < 95)%Z
  /\ (45 <= light1 < 65)%Z /\ (50 <= light2 < 70)%Z
  /\ (hue2 = hue1
      \/ (40 <= (hue2 - hue1) mod 360 <= 59)%Z
      \/ (40 <= (hue1 - hue2) mod 360 <= 59)%Z).
Proof.
  unfold gradientComponents. cbv zeta.
  pose proof (seed_bounds (String.append id "-gradient1")) as H1.
  pose proof (seed_bounds (String.append id "-gradient2")) as H2.
  pose proof (seed_bounds (String.append id "-gradient3")) as H3.
  set (seed1 := seedRandomFromString (String.append id "-gradient1")) in *.
  set (seed2 := seedRandomFromString (String.append id "-gradient2")) in *.
  set (seed3 := seedRandomFromString (String.append id "-gradient3")) in *.
  pose proof (mathFloor_scaled seed1 360 H1 ltac:(lia)) as Hbase.
  pose proof (mathFloor_scaled seed2 25 H2 ltac:(lia)) as Hs1.
  pose proof (mathFloor_scaled seed3 25 H3 ltac:(lia)) as Hs2.
  pose proof (mathFloor_scaled seed1 20 H1 ltac:(lia)) as Hl1.
  pose proof (mathFloor_scaled seed2 20 H2 ltac:(lia)) as Hl2.
  pose proof (mathFloor_scaled seed2 40 H2 ltac:(lia)) as Hv.
  set (baseHue := mathFloor (seed1 * 360)) in *.
  set (variation := if decide (seed2 < 0.5)%R then 0%Z else (20 + mathFloor (seed2 * 40))%Z).
  assert (Hvar : (variation = 0 \/ 40 <= variation <= 59)%Z).
  { unfold variation. destruct (decide (seed2 < 0.5)%R) as [|Hge]; [by left|right].
    pose proof (mathFloor_scaled_upper_half seed2 20 ltac:(lra) ltac:(lia)) as Hhalf.
    change (2 * 20)%Z with 40%Z in Hhalf. lia. }
  set (direction := if decide (seed3 < 0.5)%R then 1%Z else (-1)%Z).
  assert (Hdir : (direction = 1 \/ direction = -1)%Z).
  { unfold direction. destruct (decide (seed3 < 0.5)%R); auto. }
  assert (Hpos : (0 <= baseHue + direction * variation + 360)%Z) by nia.
  rewrite Z.rem_mod_nonneg by lia.
  pose proof (Z.mod_pos_bound (baseHue + direction * variation + 360) 360 ltac:(lia)) as Hh2.
  repeat split; try lia.
  destruct Hvar as [->|Hvar].
  - left. rewrite Z.mul_0_r, Z.add_0_r.
    replace (baseHue + 360)%Z with (baseHue + 1 * 360)%Z by lia.
    rewrite Z.mod_add by lia. apply Z.mod_small. lia.
  - right. destruct Hdir as [-> | ->].
    + left. rewrite Zminus_mod_idemp_l.
      replace (baseHue + 1 * variation + 360 - baseHue)%Z with (variation + 1 * 360)%Z by lia.
      rewrite Z.mod_add by lia. rewrite Z.mod_small by lia. lia.
    + right. rewrite Zminus_mod_idemp_r.
      replace (baseHue - (baseHue + -1 * variation + 360))%Z
        with (variation + (-1) * 360)%Z by lia.
      rewrite Z.mod_add by lia. rewrite Z.mod_small by lia. lia.
Qed.

Lemma countSentiment_cons s e events :
  countSentiment s (e :: events)
  = ((if decide (Event.sentiment e = s) then 1 else 0) + countSentiment s events)%nat.
Proof.
  unfold countSentiment. rewrite filter_cons. by destruct (decide (Event.sentiment e = s)).
Qed.

Lemma countSentiment_total events :
  (countSentiment good events + countSentiment bad events + countSentiment neutral events
   = length events)%nat.
Proof.
  induction events as [|e events IH]; [done|].
  rewrite !countSentiment_cons. simpl.
  destruct (Event.sentiment e); repeat case_decide; try done; lia.
Qed.

Lemma countSentiment_le s events : (countSentiment s events <= length events)%nat.
Proof. unfold countSentiment. apply length_filter. Qed.

Lemma countSentiment_all s events :
  countSentiment s events = length events <-> Forall (fun e => Event.sentiment e = s) events.
Proof.
  induction events as [|e events IH]; [split; [constructor | done]|].
  rewrite countSentiment_cons. simpl. pose proof (countSentiment_le s events).
  split.
  - intros H1. destruct (decide (Event.sentiment e = s)); [|lia].
    constructor; [done|]. apply IH. lia.
  - intros H1. inversion H1; subst. rewrite decide_True by done.
    apply IH in H4. lia.
Qed.

(** X19. The line color of a person whose events all have the same
    sentiment is the color of that sentiment (green, red, gray); without
    events it is black. *)
Theorem line_color_uniform (events : list Event.t) (s : Sentiment) :
  calculateLineColor [] = "#000000"
  /\ (events <> [] -> Forall (fun e => Event.sentiment e = s) events ->
      calculateLineColor events
      = match s with good => "#22c55e" | bad => "#ef4444" | neutral => "#6b7280" end).
Proof.
  split; [done|]. intros Hne Hall. unfold calculateLineColor.
  destruct events as [|e events]; [done|].
  change (length (e :: events) =? 0)%nat with false. cbv iota.
  assert (Hother : forall s', s' <> s ->
            (countSentiment s' (e :: events) =? length (e :: events))%nat = false).
  { intros s' Hs'. apply Nat.eqb_neq. intros Heq. apply countSentiment_all in Heq.
    inversion Heq; inversion Hall; subst. congruence. }
  apply countSentiment_all in Hall. apply Nat.eqb_eq in Hall.
  destruct s.
  - by rewrite Hall.
  - rewrite (Hother good) by done. by rewrite Hall.
  - rewrite (Hother good), (Hother bad) by done. by rewrite Hall.
Qed.

Lemma line_color_uniform_witness :
  calculateLineColor
    [Event.mk "e1" "p1" "lunch" good "2024-01-01"; Event.mk "e2" "p1" "call" good "2024-01-02"]
  = "#22c55e".
Proof.
  destruct (line_color_uniform
              [Event.mk "e1" "p1" "lunch" good "2024-01-01";
               Event.mk "e2" "p1" "call" good "2024-01-02"] good) as [_ H].
  apply H.
  - discriminate.
  - repeat constructor.
Defined.

Lemma mathRound_between (x : R) (lo hi : Z) :
  (IZR lo <= x <= IZR hi)%R -> (lo <= mathRound x <= hi)%Z.
Proof.
  intros [Hlo Hhi]. pose proof (mathRound_spec x) as [H1 H2]. split.
  - assert (lo - 1 < mathRound x)%Z; [|lia]. apply lt_IZR. rewrite minus_IZR. lra.
  - assert (mathRound x < hi + 1)%Z; [|lia]. apply lt_IZR. rewrite plus_IZR. lra.
Qed.

Lemma div_nonneg (a b : R) : (0 <= a)%R -> (0 < b)%R -> (0 <= a / b)%R.
Proof.
  intros Ha Hb. apply Rmult_le_pos; [done|]. by apply Rlt_le, Rinv_0_lt_compat.
Qed.

Lemma mixedChannels_bounds (g b n total : nat) :
  (g + b + n = total)%nat -> (0 < total)%nat ->
  let '(red, green, blue) := mixedChannels g b n total in
  (34 <= red <= 239)%Z /\ (68 <= green <= 197)%Z /\ (68 <= blue <= 128)%Z.
Proof.
  intros Hsum Hpos. unfold mixedChannels. cbv zeta.
  assert (Ht : (0 < INR total)%R) by (apply lt_0_INR; lia).
  set (gw := (INR g / INR total)%R). set (bw := (INR b / INR total)%R).
  set (nw := (INR n / INR total)%R).
  assert (Hg : (0 <= gw)%R) by (apply div_nonneg; [apply pos_INR | done]).
  assert (Hb : (0 <= bw)%R) by (apply div_nonneg; [apply pos_INR | done]).
  assert (Hn : (0 <= nw)%R) by (apply div_nonneg; [apply pos_INR | done]).
  assert (Hone : (gw + bw + nw = 1)%R).
  { unfold gw, bw, nw. rewrite <- Hsum, !plus_INR. field.
    rewrite <- !plus_INR, Hsum. lra. }
  split; [|split]; apply mathRound_between; lra.
Qed.

(** X20. The line color of a person with events of different sentiments
    is an [rgb(r, g, b)] text whose channels are whole numbers between the
    channels of the three base colors: [r] in [[34, 239]], [g] in
    [[68, 197]] and [b] in [[68, 128]]. *)
Theorem line_color_mixed (events : list Event.t) (e1 e2 : Event.t) :
  e1 ∈ events -> e2 ∈ events -> Event.sentiment e1 <> Event.sentiment e2 ->
  exists red green blue,
    calculateLineColor events = rgb (red, green, blue)
    /\ (34 <= red <= 239)%Z /\ (68 <= green <= 197)%Z /\ (68 <= blue <= 128)%Z.
Proof.
  intros H1 H2 Hne. unfold calculateLineColor.
  assert (Hlen : (0 < length events)%nat).
  { destruct events; [by apply not_elem_of_nil in H1 | simpl; lia]. }
  replace (length events =? 0)%nat with false by (symmetry; apply Nat.eqb_neq; lia).
  assert (Hnot : forall s, (countSentiment s events =? length events)%nat = false).
  { intros s. apply Nat.eqb_neq. intros Heq. apply countSentiment_all in Heq.
    rewrite Forall_forall in Heq. rewrite (Heq e1 H1), (Heq e2 H2) in Hne. done. }
  rewrite !Hnot.
  pose proof (mixedChannels_bounds (countSentiment good events) (countSentiment bad events)
                (countSentiment neutral events) (length events)
                (countSentiment_total events) Hlen) as Hb.
  destruct (mixedChannels _ _ _ _) as [[red green] blue]. by exists red, green, blue.
Qed.

Lemma line_color_mixed_witness :
  exists red green blue,
    calculateLineColor
      [Event.mk "e1" "p1" "lunch" good "2024-01-01";
       Event.mk "e2" "p1" "quarrel" bad "2024-01-02"]
    = rgb (red, green, blue)
    /\ (34 <= red <= 239)%Z /\ (68 <= green <= 197)%Z /\ (68 <= blue <= 128)%Z.
Proof.
  apply (line_color_mixed _ (Event.mk "e1" "p1" "lunch" good "2024-01-01")
           (Event.mk "e2" "p1" "quarrel" bad "2024-01-02")).
  - apply list_elem_of_here.
  - apply list_elem_of_further, list_elem_of_here.
  - discriminate.
Defined.

(** X21. The line color depends on how many events of each sentiment
    there are, not on their order: reordering the events of a person does
    not change the color. *)
Theorem line_color_order_independent (events events' : list Event.t) :
  events ≡ₚ events' -> calculateLineColor events = calculateLineColor events'.
Proof.
  intros Hp. unfold calculateLineColor, countSentiment.
  assert (Hc : forall s, length (filter (fun e => Event.sentiment e = s) events)
                         = length (filter (fun e => Event.sentiment e = s) events')).
  { intros s. apply Permutation_length. by rewrite Hp. }
  by rewrite !Hc, (Permutation_length Hp).
Qed.

Lemma line_color_order_independent_witness :
  calculateLineColor
    [Event.mk "e1" "p1" "lunch" good "2024-01-01";
     Event.mk "e2" "p1" "quarrel" bad "2024-01-02"]
  = calculateLineColor
      [Event.mk "e2" "p1" "quarrel" bad "2024-01-02";
       Event.mk "e1" "p1" "lunch" good "2024-01-01"].
Proof. apply line_color_order_independent. apply perm_swap. Defined.

(** ** Building the graph *)

Lemma personNode_id existing position person :
  (forall n, existing = Some n -> Node.id n = Person.id person) ->
  Node.id (personNode existing position person) = Person.id person.
Proof.
  intros H. unfold personNode. destruct existing as [n|]; [|done]. simpl. by apply H.
Qed.

Lemma prevById_id prevNodes k n : mapById prevNodes !! k = Some n -> Node.id n = k.
Proof. intros H. by apply mapById_lookup in H as [_ ?]. Qed.

Lemma userNodeOf_id prevNodes userInitial :
  Node.id (userNodeOf (mapById prevNodes) userInitial) = "user-center".
Proof.
  unfold userNodeOf. destruct (mapById prevNodes !! "user-center") as [c|] eqn:Hc; [|done].
  simpl. by eapply prevById_id.
Qed.

Lemma extends_refl sourceId st : extends sourceId [] st st.
Proof.
  exists [], []. rewrite !app_nil_r. destruct st. by repeat split.
Qed.

Lemma extends_trans sourceId added added' st st' st'' :
  extends sourceId added st st' -> extends sourceId added' st' st'' ->
  extends sourceId (added ++ added') st st''.
Proof.
  intros (n1 & e1 & -> & Hn1 & He1 & Hf1) (n2 & e2 & -> & Hn2 & He2 & Hf2).
  exists (n1 ++ n2), (e1 ++ e2). simpl. rewrite !app_assoc, !fmap_app.
  split; [done|]. split; [by rewrite Hn1, Hn2|]. split; [by rewrite He1, He2|].
  by apply Forall_app.
Qed.

Lemma connectionEdge_spec edgeId sourceId sourceNode targetNode person allEvents :
  let e := connectionEdge edgeId sourceId sourceNode targetNode person allEvents in
  Edge.target e = Person.id person
  /\ Edge.source e = sourceId
  /\ exists hs ht, Edge.sourceHandle e = Some hs /\ Edge.targetHandle e = Some ht
       /\ hs ∈ renderedHandleIds /\ ht ∈ renderedHandleIds.
Proof.
  simpl. split; [done|]. split; [done|]. eexists _, _.
  split; [reflexivity|]. split; [reflexivity|].
  split; apply getHandleId_rendered, getHandleIndex_range.
Qed.

Lemma directStep_extends prevNodes saved allEvents userNode st person :
  extends "user-center" [person] st
    (directStep (mapById prevNodes) saved allEvents userNode st person).
Proof.
  unfold directStep. cbv zeta. eexists [_], [_]. split; [reflexivity|].
  split; [|split].
  - simpl. f_equal. apply personNode_id. intros n Hn. by eapply prevById_id.
  - done.
  - constructor; [|constructor].
    by destruct (connectionEdge_spec (String.append "edge-user-" (Person.id person))
                   "user-center" userNode
                   (personNode (mapById prevNodes !! Person.id person)
                      (directPosition (mapById prevNodes) saved person) person)
                   person allEvents) as (_ & ? & ?).
Qed.

Lemma direct_fold_extends prevNodes saved allEvents userNode people st :
  extends "user-center" people st
    (foldl (directStep (mapById prevNodes) saved allEvents userNode) st people).
Proof.
  revert st. induction people as [|p people IH]; intros st; simpl.
  - apply extends_refl.
  - eapply (extends_trans _ [p] people); [apply directStep_extends | apply IH].
Qed.

Lemma childStep_extends prevNodes saved allEvents introducerId introducerNode children
    st index person :
  extends introducerId [person] st
    (childStep (mapById prevNodes) saved allEvents introducerId introducerNode children
       st (index, person)).
Proof.
  unfold childStep. cbv zeta. eexists [_], [_]. split; [reflexivity|].
  split; [|split].
  - simpl. f_equal. apply personNode_id. intros n Hn. by eapply prevById_id.
  - done.
  - constructor; [|constructor].
    match goal with
    | |- context [connectionEdge ?a ?b ?c ?d ?e ?f] =>
        by destruct (connectionEdge_spec a b c d e f) as (_ & ? & ?)
    end.
Qed.

Lemma child_fold_extends prevNodes saved allEvents introducerId introducerNode children
    people start st :
  extends introducerId people st
    (foldl (childStep (mapById prevNodes) saved allEvents introducerId introducerNode children)
       st (zip (seq start (length people)) people)).
Proof.
  revert start st. induction people as [|p people IH]; intros start st; simpl.
  - apply extends_refl.
  - eapply (extends_trans _ [p] people); [apply childStep_extends | apply IH].
Qed.

Lemma graphInvariant_extends prevNodes sourceId added st st' :
  graphInvariant prevNodes st -> extends sourceId added st st' ->
  (added <> [] ->
   sourceId ∈ Node.id <$> st.1 \/ sourceId ∈ Node.id <$> prevNodes) ->
  graphInvariant prevNodes st'.
Proof.
  intros (center & rest & Hn & Hc & Ht & Hf) (n' & e' & -> & Hn' & He' & Hf') Hsrc.
  exists center, (rest ++ n'). simpl. rewrite Hn.
  split; [done|]. split; [done|]. split; [by rewrite !fmap_app, Ht, He', Hn'|].
  apply Forall_app. split.
  - eapply Forall_impl; [exact Hf|]. intros e [[Hs|Hs] Hh]; (split; [|done]).
    + left. rewrite <- Hn, fmap_app. apply elem_of_app. by left.
    + by right.
  - apply Forall_forall. intros e He. rewrite Forall_forall in Hf'.
    destruct (Hf' e He) as [Hs Hh]. split; [|done].
    assert (Hadded : added <> []).
    { intros ->. destruct e'; [by apply not_elem_of_nil in He | done]. }
    rewrite Hs. destruct (Hsrc Hadded) as [Hin|Hin]; [left|by right].
    rewrite <- Hn, fmap_app. apply elem_of_app. by left.
Qed.

Lemma find_by_id (nodes : list Node.t) k :
  match List.find (fun n => String.eqb (Node.id n) k) nodes with
  | Some n => n ∈ nodes /\ Node.id n = k
  | None => k ∉ Node.id <$> nodes
  end.
Proof.
  destruct (List.find _ nodes) as [n|] eqn:Hf.
  - apply List.find_some in Hf as [Hin Heq]. split.
    + by apply list_elem_of_In.
    + by apply String.eqb_eq.
  - intros Hin. apply list_elem_of_fmap in Hin as (n & -> & Hn).
    apply list_elem_of_In in Hn.
    pose proof (List.find_none _ _ Hf n Hn) as Hne. simpl in Hne.
    by rewrite String.eqb_refl in Hne.
Qed.

(** A group is placed as a whole or left out as a whole; it is placed
    when its introducer is among the nodes built so far. *)
Lemma introducerStep_extends prevNodes saved allEvents st introducerId children :
  exists added,
    extends introducerId added st
      (introducerStep (mapById prevNodes) saved allEvents st (introducerId, children))
    /\ (added = children \/ added = [])
    /\ (introducerId ∈ Node.id <$> st.1 -> added = children)
    /\ (added <> [] ->
        introducerId ∈ Node.id <$> st.1 \/ introducerId ∈ Node.id <$> prevNodes).
Proof.
  unfold introducerStep. cbv zeta.
  pose proof (find_by_id st.1 introducerId) as Hfind.
  destruct (List.find _ st.1) as [n|].
  - destruct Hfind as [Hin Hid]. exists children.
    split; [apply child_fold_extends|]. split; [by left|]. split; [done|].
    intros _. left. apply list_elem_of_fmap. by exists n.
  - destruct (mapById prevNodes !! introducerId) as [n|] eqn:Hprev.
    + exists children. split; [apply child_fold_extends|]. split; [by left|].
      split; [done|]. intros _. right.
      apply mapById_lookup in Hprev as [Hin Hid].
      apply list_elem_of_fmap. by exists n.
    + exists []. split; [apply extends_refl|]. split; [by right|].
      split; [done | done].
Qed.

Lemma introducer_fold_invariant prevNodes saved allEvents groups st :
  graphInvariant prevNodes st ->
  graphInvariant prevNodes
    (foldl (introducerStep (mapById prevNodes) saved allEvents) st groups).
Proof.
  revert st. induction groups as [|[k children] groups IH]; intros st Hst; [done|].
  simpl. apply IH.
  destruct (introducerStep_extends prevNodes saved allEvents st k children)
    as (added & Hext & _ & _ & Hsrc).
  by eapply graphInvariant_extends.
Qed.

Lemma buildGraph_invariant user prevNodes saved peopleList allEvents :
  graphInvariant prevNodes (buildGraph user prevNodes saved peopleList allEvents).
Proof.
  unfold buildGraph. cbv zeta. apply introducer_fold_invariant.
  set (userNode := userNodeOf (mapById prevNodes)
                     (getTwoLetterInitials (Some (userNameForInitials user)))).
  apply (graphInvariant_extends prevNodes "user-center"
           (filter (fun p => truthyString (Person.introducer_id p) = false) peopleList)
           ([userNode], [])).
  - exists userNode, [].
    split; [reflexivity|]. split; [apply userNodeOf_id|]. split; [done | constructor].
  - apply direct_fold_extends.
  - intros _. left. simpl. unfold userNode. rewrite userNodeOf_id. apply list_elem_of_here.
Qed.

Lemma updateNodesAndEdges_Some JSON_parse user storage prevNodes peopleList allEvents
    nodes edges :
  updateNodesAndEdges JSON_parse (Some user) storage prevNodes peopleList allEvents
  = Some (nodes, edges) ->
  exists saved,
    nodes = settleInitialLayout (buildGraph user prevNodes saved peopleList allEvents).1
    /\ edges = (buildGraph user prevNodes saved peopleList allEvents).2.
Proof. unfold updateNodesAndEdges. intros [= <- <-]. eauto. Qed.

Lemma settle_ids nodes : Node.id <$> settleInitialLayout nodes = Node.id <$> nodes.
Proof. apply frame_ids, settleInitialLayout_frame. Qed.

Lemma updateNodesAndEdges_empty_storage JSON_parse user prevNodes peopleList allEvents :
  updateNodesAndEdges JSON_parse (Some user) (Storage.mk ∅ true true) prevNodes peopleList
    allEvents
  = Some (settleInitialLayout (buildGraph user prevNodes ∅ peopleList allEvents).1,
          (buildGraph user prevNodes ∅ peopleList allEvents).2).
Proof.
  unfold updateNodesAndEdges, loadNodePositions, loadAttempt.
  by destruct (truthyId (Some (User.id user))).
Qed.

Lemma mapById_fallbackNodes : mapById fallbackNodes !! "user-center" = None.
Proof. reflexivity. Qed.

(** The edges of a first render with one direct connection and one person
    introduced by it. *)
Lemma first_render_edges :
  exists e1 e2,
    (buildGraph (User.mk "user_1" (Some "Ada") (Some "Lovelace") []) fallbackNodes ∅
       [examplePerson "p1" None; examplePerson "p2" (Some "p1")] []).2 = [e1; e2]
    /\ Edge.id e1 = "edge-user-p1" /\ Edge.id e2 = "edge-p1-p2".
Proof. eexists _, _. split; [reflexivity|]. split; reflexivity. Qed.

(** X22. In every render that [updateNodesAndEdges] produces, the first
    node is the center ["user-center"], and the edges are in one-to-one
    correspondence with the other nodes: the k-th edge points at the k-th
    contact node. *)
Theorem graph_one_edge_per_contact (JSON_parse : string -> Exc (gmap string XY.t))
    (user : User.t) (storage : Storage.t) (prevNodes : list Node.t)
    (peopleList : list Person.t) (allEvents : list Event.t)
    (nodes : list Node.t) (edges : list Edge.t) :
  updateNodesAndEdges JSON_parse (Some user) storage prevNodes peopleList allEvents
  = Some (nodes, edges) ->
  exists center contacts,
    nodes = center :: contacts
    /\ Node.id center = "user-center"
    /\ Edge.target <$> edges = Node.id <$> contacts.
Proof.
  intros H. apply updateNodesAndEdges_Some in H as (saved & -> & ->).
  destruct (buildGraph_invariant user prevNodes saved peopleList allEvents)
    as (center & rest & Hn & Hc & Ht & _).
  pose proof (settle_ids (buildGraph user prevNodes saved peopleList allEvents).1) as Hids.
  rewrite Hn in Hids. rewrite Hn.
  destruct (settleInitialLayout (center :: rest)) as [|center' contacts]; [done|].
  injection Hids as Hid Hrest. exists center', contacts.
  split; [done|]. split; [congruence|]. rewrite Ht. symmetry. exact Hrest.
Qed.

(** A first render: one direct connection and one person introduced by
    it. *)
Lemma graph_one_edge_per_contact_witness :
  let user := User.mk "user_1" (Some "Ada") (Some "Lovelace") [] in
  let people := [examplePerson "p1" None; examplePerson "p2" (Some "p1")] in
  exists center contacts,
    settleInitialLayout (buildGraph user fallbackNodes ∅ people []).1 = center :: contacts
    /\ Node.id center = "user-center"
    /\ Edge.target <$> (buildGraph user fallbackNodes ∅ people []).2 = Node.id <$> contacts.
Proof.
  intros user people.
  exact (graph_one_edge_per_contact (fun _ => Ok ∅) user (Storage.mk ∅ true true)
           fallbackNodes people [] _ _
           (updateNodesAndEdges_empty_storage _ user fallbackNodes people [])).
Defined.

(** X23. Every edge of a render that [updateNodesAndEdges] produces points
    at a node of that render, leaves from a node of that render or of the
    previous render, and is attached at both ends to handles that
    [PersonCircleNode] renders. *)
Theorem graph_edges_attached (JSON_parse : string -> Exc (gmap string XY.t))
    (user : User.t) (storage : Storage.t) (prevNodes : list Node.t)
    (peopleList : list Person.t) (allEvents : list Event.t)
    (nodes : list Node.t) (edges : list Edge.t) (edge : Edge.t) :
  updateNodesAndEdges JSON_parse (Some user) storage prevNodes peopleList allEvents
  = Some (nodes, edges) ->
  edge ∈ edges ->
  Edge.target edge ∈ Node.id <$> nodes
  /\ (Edge.source edge ∈ Node.id <$> nodes \/ Edge.source edge ∈ Node.id <$> prevNodes)
  /\ exists sourceHandle targetHandle,
       Edge.sourceHandle edge = Some sourceHandle
       /\ Edge.targetHandle edge = Some targetHandle
       /\ sourceHandle ∈ renderedHandleIds /\ targetHandle ∈ renderedHandleIds.
Proof.
  intros H He. apply updateNodesAndEdges_Some in H as (saved & -> & ->).
  destruct (buildGraph_invariant user prevNodes saved peopleList allEvents)
    as (center & rest & Hn & Hc & Ht & Hf).
  rewrite settle_ids. rewrite Forall_forall in Hf. destruct (Hf edge He) as [Hs Hh].
  split; [|done].
  rewrite Hn, fmap_cons. apply list_elem_of_further. rewrite <- Ht.
  apply list_elem_of_fmap. by exists edge.
Qed.

Lemma graph_edges_attached_witness :
  let user := User.mk "user_1" (Some "Ada") (Some "Lovelace") [] in
  let people := [examplePerson "p1" None; examplePerson "p2" (Some "p1")] in
  exists edge,
    Edge.id edge = "edge-p1-p2"
    /\ Edge.target edge
       ∈ Node.id <$> settleInitialLayout (buildGraph user fallbackNodes ∅ people []).1
    /\ (Edge.source edge
        ∈ Node.id <$> settleInitialLayout (buildGraph user fallbackNodes ∅ people []).1
        \/ Edge.source edge ∈ Node.id <$> fallbackNodes)
    /\ exists sourceHandle targetHandle,
         Edge.sourceHandle edge = Some sourceHandle
         /\ Edge.targetHandle edge = Some targetHandle
         /\ sourceHandle ∈ renderedHandleIds /\ targetHandle ∈ renderedHandleIds.
Proof.
  intros user people.
  destruct first_render_edges as (e1 & e2 & Hedges & _ & Hid2).
  exists e2. split; [exact Hid2|].
  refine (graph_edges_attached (fun _ => Ok ∅) user (Storage.mk ∅ true true)
            fallbackNodes people [] _ _ e2
            (updateNodesAndEdges_empty_storage _ user fallbackNodes people []) _).
  unfold user, people. rewrite Hedges. apply list_elem_of_further, list_elem_of_here.
Defined.

(** X24. The center node persists across renders: the first node of every
    render is ["user-center"]; without a center in the previous render it
    is a new node at the origin that cannot be dragged, and a center of
    the previous render that cannot be dragged keeps its position through
    the construction and the settle pass. *)
Theorem center_kept (JSON_parse : string -> Exc (gmap string XY.t))
    (user : User.t) (storage : Storage.t) (prevNodes : list Node.t)
    (peopleList : list Person.t) (allEvents : list Event.t)
    (nodes : list Node.t) (edges : list Edge.t) :
  updateNodesAndEdges JSON_parse (Some user) storage prevNodes peopleList allEvents
  = Some (nodes, edges) ->
  exists center,
    nodes !! 0%nat = Some center
    /\ Node.id center = "user-center"
    /\ match mapById prevNodes !! "user-center" with
       | Some previous =>
           Node.draggable previous <> Some true ->
           Node.position center = Node.position previous
           /\ Node.draggable center = Node.draggable previous
       | None =>
           Node.position center = XY.mk 0 0 /\ Node.draggable center = Some false
       end.
Proof.
  intros H. apply updateNodesAndEdges_Some in H as (saved & -> & ->).
  destruct (buildGraph_invariant user prevNodes saved peopleList allEvents)
    as (center & rest & Hn & Hc & _ & _).
  assert (Hcenter : center = userNodeOf (mapById prevNodes)
                               (getTwoLetterInitials (Some (userNameForInitials user)))).
  { revert Hn. unfold buildGraph. cbv zeta.
    set (userNode := userNodeOf _ _). intros Hn.
    set (people := filter _ peopleList) in Hn. set (groups := childrenByIntroducer _) in Hn.
    assert (Hhead : forall (st st' : list Node.t * list Edge.t) src added,
              extends src added st st' -> head st.1 = Some userNode ->
              head st'.1 = Some userNode).
    { intros st st' src added (n' & e' & -> & _) Hh. simpl.
      destruct st.1; [done|]. done. }
    assert (Hfold : forall gs st, head st.1 = Some userNode ->
              head (foldl (introducerStep (mapById prevNodes) saved allEvents) st gs).1
              = Some userNode).
    { induction gs as [|[k ch] gs IH]; intros st Hst; [done|]. simpl. apply IH.
      destruct (introducerStep_extends prevNodes saved allEvents st k ch)
        as (added & Hext & _).
      by eapply Hhead. }
    specialize (Hfold groups
                  (foldl (directStep (mapById prevNodes) saved allEvents userNode)
                     ([userNode], []) people)).
    rewrite Hn in Hfold. simpl in Hfold.
    assert (Some center = Some userNode) as [= ->]; [|done].
    apply Hfold. eapply Hhead; [apply direct_fold_extends | done]. }
  pose proof (settle_ids (buildGraph user prevNodes saved peopleList allEvents).1) as Hids.
  rewrite Hn in Hids |- *.
  destruct (mapById prevNodes !! "user-center") as [previous|] eqn:Hprev.
  - destruct (decide (Node.draggable previous = Some true)) as [Hd|Hd].
    + destruct (settleInitialLayout (center :: rest)) as [|c' r']; [done|].
      injection Hids as Hid _. exists c'. split; [done|]. split; [congruence|]. done.
    + exists center. split; [|split; [done|]].
      * apply settle_keeps_anchor; [done|]. unfold settleSkip. rewrite Hc. simpl.
        rewrite Hcenter. unfold userNodeOf. rewrite Hprev. simpl.
        by destruct (Node.draggable previous) as [[]|].
      * intros _. rewrite Hcenter. unfold userNodeOf. by rewrite Hprev.
  - exists center. split; [|split; [done|]].
    + apply settle_keeps_anchor; [done|]. rewrite Hcenter. unfold userNodeOf.
      by rewrite Hprev.
    + rewrite Hcenter. unfold userNodeOf. by rewrite Hprev.
Qed.

Lemma center_kept_witness :
  let user := User.mk "user_1" (Some "Ada") (Some "Lovelace") [] in
  let people := [examplePerson "p1" None; examplePerson "p2" (Some "p1")] in
  exists center,
    settleInitialLayout (buildGraph user fallbackNodes ∅ people []).1 !! 0%nat = Some center
    /\ Node.id center = "user-center"
    /\ Node.position center = XY.mk 0 0 /\ Node.draggable center = Some false.
Proof.
  intros user people.
  pose proof (center_kept (fun _ => Ok ∅) user (Storage.mk ∅ true true) fallbackNodes
                people [] _ _
                (updateNodesAndEdges_empty_storage _ user fallbackNodes people [])) as H.
  rewrite mapById_fallbackNodes in H. exact H.
Defined.

Lemma groupInsert_perm k p groups :
  concat (snd <$> groupInsert k p groups) ≡ₚ concat (snd <$> groups) ++ [p].
Proof.
  induction groups as [|[key children] groups IH]; simpl; [done|].
  destruct (String.eqb key k); simpl.
  - rewrite <- !app_assoc. apply Permutation_app_head, Permutation_app_comm.
  - rewrite IH. by rewrite app_assoc.
Qed.

Lemma groupStep_grouped groups p :
  grouped p ->
  groupStep groups p = groupInsert (default "" (Person.introducer_id p)) p groups.
Proof.
  intros [Ht Hne]. unfold groupStep. rewrite Ht. simpl.
  by rewrite bool_decide_eq_false_2.
Qed.

Lemma groupStep_not_grouped groups p : ~ grouped p -> groupStep groups p = groups.
Proof.
  intros Hn. unfold groupStep.
  destruct (truthyString (Person.introducer_id p)) eqn:Ht; [|done]. simpl.
  rewrite bool_decide_eq_true_2; [done|].
  destruct (decide (Person.introducer_id p = Some (Person.id p))); [done|].
  exfalso. apply Hn. by split.
Qed.

Lemma group_fold_perm l groups :
  Forall grouped l ->
  concat (snd <$> foldl groupStep groups l) ≡ₚ concat (snd <$> groups) ++ l.
Proof.
  revert groups. induction l as [|p l IH]; intros groups Hall; simpl.
  - by rewrite app_nil_r.
  - apply Forall_cons in Hall as [Hp Hl]. rewrite (IH _ Hl), (groupStep_grouped _ _ Hp).
    rewrite groupInsert_perm, <- app_assoc. done.
Qed.

Lemma groupInsert_invariant people k p groups :
  p ∈ people -> grouped p -> Person.introducer_id p = Some k ->
  groupInvariant people groups -> groupInvariant people (groupInsert k p groups).
Proof.
  intros Hin Hg Hk. unfold groupInvariant.
  induction groups as [|[key children] groups IH]; intros Hinv; simpl.
  - constructor; [|constructor]. split; [by exists p|]. simpl.
    constructor; [done | constructor].
  - apply Forall_cons in Hinv as [[Hkey Hch] Hrest].
    destruct (String.eqb key k) eqn:Heq.
    + apply String.eqb_eq in Heq as ->. constructor; [|done]. split; [done|].
      simpl in *. apply Forall_app. split; [done|]. constructor; [done | constructor].
    + constructor; [done | by apply IH].
Qed.

Lemma group_fold_invariant people l groups :
  l ⊆ people -> groupInvariant people groups ->
  groupInvariant people (foldl groupStep groups l).
Proof.
  revert groups. induction l as [|p l IH]; intros groups Hsub Hinv; [done|].
  simpl. apply IH.
  - intros q Hq. apply Hsub. by apply list_elem_of_further.
  - unfold groupStep.
    destruct (truthyString (Person.introducer_id p)) eqn:Ht; [|done]. simpl.
    case_bool_decide as Hself; [done|].
    destruct (Person.introducer_id p) as [k|] eqn:Hk; [|done]. simpl.
    apply groupInsert_invariant; [apply Hsub, list_elem_of_here| |done..].
    split; [by rewrite Hk | by rewrite Hk].
Qed.

Lemma childrenByIntroducer_invariant l :
  groupInvariant l (childrenByIntroducer l).
Proof. apply group_fold_invariant; [done | constructor]. Qed.

Lemma extends_ids sourceId added st st' :
  extends sourceId added st st' ->
  Node.id <$> st'.1 = (Node.id <$> st.1) ++ (Person.id <$> added).
Proof. intros (n' & e' & -> & Hn' & _). simpl. by rewrite fmap_app, Hn'. Qed.

Lemma introducer_fold_ids_all prevNodes saved allEvents groups st :
  (forall g, g ∈ groups -> g.1 ∈ Node.id <$> st.1) ->
  Node.id <$> (foldl (introducerStep (mapById prevNodes) saved allEvents) st groups).1
  = (Node.id <$> st.1) ++ (Person.id <$> concat (snd <$> groups)).
Proof.
  revert st. induction groups as [|[k children] groups IH]; intros st Hkeys.
  - simpl. by rewrite app_nil_r.
  - cbn [foldl]. rewrite fmap_cons. cbn [snd concat].
    destruct (introducerStep_extends prevNodes saved allEvents st k children)
      as (added & Hext & _ & Hall & _).
    rewrite (Hall (Hkeys (k, children) (list_elem_of_here _ _))) in Hext.
    apply extends_ids in Hext. rewrite IH.
    + rewrite Hext, fmap_app, app_assoc. done.
    + intros g Hg. rewrite Hext. apply elem_of_app. left.
      apply Hkeys. by apply list_elem_of_further.
Qed.

Lemma filter_split (f : Person.t -> bool) l :
  filter (fun p => f p = false) l ++ filter (fun p => f p = true) l ≡ₚ l.
Proof.
  induction l as [|p l IH]; [done|].
  destruct (f p) eqn:Hp.
  - rewrite (filter_cons_False (fun p => f p = false)) by congruence.
    rewrite (filter_cons_True (fun p => f p = true)) by done.
    rewrite <- Permutation_middle. by constructor.
  - rewrite (filter_cons_True (fun p => f p = false)) by done.
    rewrite (filter_cons_False (fun p => f p = true)) by congruence.
    simpl. by constructor.
Qed.

Lemma buildGraph_direct_ids prevNodes saved allEvents userNode people :
  Node.id userNode = "user-center" ->
  Node.id <$> (foldl (directStep (mapById prevNodes) saved allEvents userNode)
                 ([userNode], []) people).1
  = "user-center" :: (Person.id <$> people).
Proof.
  intros Hid.
  rewrite (extends_ids _ _ _ _
             (direct_fold_extends prevNodes saved allEvents userNode people ([userNode], []))).
  simpl. by rewrite Hid.
Qed.

(** X25. When every introduced person names as introducer a direct
    connection of the list, and not themself, the render has exactly one
    node per person besides the center: the node ids are a permutation of
    ["user-center"] and the person ids. *)
Theorem every_person_gets_a_node (JSON_parse : string -> Exc (gmap string XY.t))
    (user : User.t) (storage : Storage.t) (prevNodes : list Node.t)
    (peopleList : list Person.t) (allEvents : list Event.t)
    (nodes : list Node.t) (edges : list Edge.t) :
  updateNodesAndEdges JSON_parse (Some user) storage prevNodes peopleList allEvents
  = Some (nodes, edges) ->
  (forall p, p ∈ peopleList -> truthyString (Person.introducer_id p) = true ->
     Person.introducer_id p <> Some (Person.id p)
     /\ exists q, q ∈ peopleList
          /\ truthyString (Person.introducer_id q) = false
          /\ Person.introducer_id p = Some (Person.id q)) ->
  Node.id <$> nodes ≡ₚ "user-center" :: (Person.id <$> peopleList).
Proof.
  intros H Hintro. apply updateNodesAndEdges_Some in H as (saved & -> & _).
  rewrite settle_ids. unfold buildGraph. cbv zeta.
  set (userNode := userNodeOf _ _).
  set (direct := filter (fun p => truthyString (Person.introducer_id p) = false) peopleList).
  set (introduced := filter (fun p => truthyString (Person.introducer_id p) = true) peopleList).
  assert (Hdirect := buildGraph_direct_ids prevNodes saved allEvents userNode direct
                       (userNodeOf_id _ _)).
  rewrite introducer_fold_ids_all.
  - rewrite Hdirect. simpl. constructor. rewrite <- fmap_app. apply fmap_Permutation.
    rewrite <- (filter_split (fun p => truthyString (Person.introducer_id p)) peopleList).
    fold direct introduced. apply Permutation_app_head.
    unfold childrenByIntroducer. rewrite group_fold_perm; [done|].
    apply Forall_forall. intros p Hp. apply list_elem_of_filter in Hp as [Ht Hp].
    split; [done|]. by destruct (Hintro p Hp Ht).
  - intros g Hg. rewrite Hdirect.
    pose proof (childrenByIntroducer_invariant introduced) as Hinv.
    unfold groupInvariant in Hinv. rewrite Forall_forall in Hinv.
    destruct (Hinv g Hg) as [(q & Hq & Hkey) _].
    apply list_elem_of_filter in Hq as [Ht Hq].
    destruct (Hintro q Hq Ht) as [_ (d & Hd & Hdt & Hdk)].
    rewrite Hkey in Hdk. injection Hdk as ->.
    apply list_elem_of_further, list_elem_of_fmap. exists d. split; [done|].
    by apply list_elem_of_filter.
Qed.

Lemma every_person_gets_a_node_witness :
  let user := User.mk "user_1" (Some "Ada") (Some "Lovelace") [] in
  let people := [examplePerson "p1" None; examplePerson "p2" (Some "p1")] in
  Node.id <$> settleInitialLayout (buildGraph user fallbackNodes ∅ people []).1
  ≡ₚ "user-center" :: (Person.id <$> people).
Proof.
  intros user people.
  refine (every_person_gets_a_node (fun _ => Ok ∅) user (Storage.mk ∅ true true)
            fallbackNodes people [] _ _
            (updateNodesAndEdges_empty_storage _ user fallbackNodes people []) _).
  intros p Hp Ht. apply elem_of_cons in Hp as [-> | Hp]; [discriminate Ht|].
  apply list_elem_of_singleton in Hp as ->. split; [discriminate|].
  exists (examplePerson "p1" None). split; [apply list_elem_of_here|].
  split; reflexivity.
Defined.

Lemma introducerStep_placeable prevNodes saved allEvents people st k children :
  (forall id, id ∈ Node.id <$> st.1 ->
     id = "user-center"
     \/ exists q, q ∈ people /\ id = Person.id q /\ placeable prevNodes people q) ->
  Forall (fun q => q ∈ people /\ grouped q /\ Person.introducer_id q = Some k) children ->
  forall id,
    id ∈ Node.id <$> (introducerStep (mapById prevNodes) saved allEvents st (k, children)).1 ->
    id = "user-center"
    \/ exists q, q ∈ people /\ id = Person.id q /\ placeable prevNodes people q.
Proof.
  intros Hst Hch id.
  destruct (introducerStep_extends prevNodes saved allEvents st k children)
    as (added & Hext & Hadded & _ & Hsrc).
  rewrite (extends_ids _ _ _ _ Hext). intros Hid. apply elem_of_app in Hid as [Hid|Hid].
  { by apply Hst. }
  destruct Hadded as [-> | ->]; [|by apply not_elem_of_nil in Hid].
  apply list_elem_of_fmap in Hid as (q & -> & Hq).
  rewrite Forall_forall in Hch. destruct (Hch q Hq) as (Hin & Hg & Hk).
  right. exists q. split; [done|]. split; [done|]. right. split; [done|].
  exists k. split; [done|].
  destruct Hsrc as [Hk1|Hk2];
    [intros ->; by apply not_elem_of_nil in Hq | | by right].
  left. destruct (Hst k Hk1) as [-> | (q' & Hq' & -> & _)].
  - apply list_elem_of_here.
  - apply list_elem_of_further, list_elem_of_fmap. by exists q'.
Qed.

Lemma introducer_fold_placeable prevNodes saved allEvents people groups st :
  (forall id, id ∈ Node.id <$> st.1 ->
     id = "user-center"
     \/ exists q, q ∈ people /\ id = Person.id q /\ placeable prevNodes people q) ->
  Forall (fun g => Forall (fun q => q ∈ people /\ grouped q
                                    /\ Person.introducer_id q = Some g.1) g.2) groups ->
  forall id,
    id ∈ Node.id <$> (foldl (introducerStep (mapById prevNodes) saved allEvents) st groups).1 ->
    id = "user-center"
    \/ exists q, q ∈ people /\ id = Person.id q /\ placeable prevNodes people q.
Proof.
  revert st. induction groups as [|[k children] groups IH]; intros st Hst Hgroups.
  - done.
  - apply Forall_cons in Hgroups as [Hch Hgroups]. cbn [foldl].
    apply IH; [|done]. by apply introducerStep_placeable.
Qed.

Lemma buildGraph_placeable user prevNodes saved peopleList allEvents id :
  id ∈ Node.id <$> (buildGraph user prevNodes saved peopleList allEvents).1 ->
  id = "user-center"
  \/ exists q, q ∈ peopleList /\ id = Person.id q /\ placeable prevNodes peopleList q.
Proof.
  unfold buildGraph. cbv zeta. apply introducer_fold_placeable.
  - intros id'. rewrite buildGraph_direct_ids by apply userNodeOf_id.
    intros Hid. apply elem_of_cons in Hid as [->|Hid]; [by left|]. right.
    apply list_elem_of_fmap in Hid as (q & -> & Hq).
    apply list_elem_of_filter in Hq as [Ht Hq]. exists q. split; [done|].
    split; [done | by left].
  - pose proof (childrenByIntroducer_invariant
                  (filter (fun p => truthyString (Person.introducer_id p) = true)
                     peopleList)) as Hinv.
    unfold groupInvariant in Hinv. eapply Forall_impl; [exact Hinv|].
    intros g [_ Hch]. eapply Forall_impl; [exact Hch|].
    intros q (Hq & Hg & Hk). split; [|done].
    by apply list_elem_of_filter in Hq as [_ Hq].
Qed.

Lemma NoDup_fmap_eq (people : list Person.t) p q :
  NoDup (Person.id <$> people) -> p ∈ people -> q ∈ people ->
  Person.id p = Person.id q -> p = q.
Proof.
  induction people as [|r people IH]; intros Hnd Hp Hq Heq.
  - by apply not_elem_of_nil in Hp.
  - rewrite fmap_cons in Hnd. apply NoDup_cons in Hnd as [Hr Hnd].
    apply elem_of_cons in Hp as [->|Hp]; apply elem_of_cons in Hq as [->|Hq].
    + done.
    + exfalso. apply Hr. rewrite Heq. apply list_elem_of_fmap. by exists q.
    + exfalso. apply Hr. rewrite <- Heq. apply list_elem_of_fmap. by exists p.
    + by apply IH.
Qed.

(** X26. Who is left out of a render.  With distinct person ids, an
    introduced person gets no node when they are their own introducer, or
    when their introducer is neither the center, nor a person of the list,
    nor a node of the previous render. *)
Theorem unreachable_person_left_out (JSON_parse : string -> Exc (gmap string XY.t))
    (user : User.t) (storage : Storage.t) (prevNodes : list Node.t)
    (peopleList : list Person.t) (allEvents : list Event.t)
    (nodes : list Node.t) (edges : list Edge.t)
    (person : Person.t) (introducerId : string) :
  updateNodesAndEdges JSON_parse (Some user) storage prevNodes peopleList allEvents
  = Some (nodes, edges) ->
  NoDup (Person.id <$> peopleList) ->
  person ∈ peopleList ->
  Person.id person <> "user-center" ->
  Person.introducer_id person = Some introducerId ->
  introducerId <> "" ->
  (introducerId = Person.id person
   \/ ((introducerId ∉ "user-center" :: (Person.id <$> peopleList))
       /\ (introducerId ∉ Node.id <$> prevNodes))) ->
  (Person.id person ∉ Node.id <$> nodes)
  /\ (Person.id person ∉ Edge.target <$> edges).
Proof.
  intros H Hnd Hin Hcenter Hintro Hne Hcase.
  pose proof (graph_shape := buildGraph_invariant user prevNodes).
  apply updateNodesAndEdges_Some in H as (saved & -> & ->).
  rewrite settle_ids.
  assert (Hout : Person.id person
                 ∉ (Node.id <$> (buildGraph user prevNodes saved peopleList allEvents).1)).
  { intros Hid. apply buildGraph_placeable in Hid as [Hid | (q & Hq & Hid & Hplace)];
      [done|].
    assert (q = person) as -> by (by apply (NoDup_fmap_eq peopleList)).
    destruct Hplace as [Hdirect | [[_ Hself] (k & Hk & Hreach)]].
    - rewrite Hintro in Hdirect. simpl in Hdirect.
      apply negb_false_iff, String.eqb_eq in Hdirect. done.
    - rewrite Hintro in Hk, Hself. injection Hk as <-.
      destruct Hcase as [-> | [H1 H2]]; [done|]. by destruct Hreach. }
  split; [done|].
  destruct (graph_shape saved peopleList allEvents) as (center & rest & Hn & _ & Ht & _).
  rewrite Ht. intros Hid. apply Hout. rewrite Hn, fmap_cons.
  by apply list_elem_of_further.
Qed.

(** A person who is their own introducer, and a person whose introducer is
    unknown. *)
Lemma unreachable_person_left_out_witness :
  let user := User.mk "user_1" (Some "Ada") (Some "Lovelace") [] in
  let people :=
    [examplePerson "p1" None; examplePerson "p3" (Some "p3");
     examplePerson "p4" (Some "p9")] in
  ("p3" ∉ Node.id <$> settleInitialLayout (buildGraph user fallbackNodes ∅ people []).1)
  /\ ("p4" ∉ Node.id <$> settleInitialLayout (buildGraph user fallbackNodes ∅ people []).1).
Proof.
  intros user people.
  assert (Hnd : NoDup (Person.id <$> people)).
  { apply (bool_decide_unpack _). vm_compute. exact I. }
  split.
  - refine (proj1 (unreachable_person_left_out (fun _ => Ok ∅) user
                     (Storage.mk ∅ true true) fallbackNodes people [] _ _
                     (examplePerson "p3" (Some "p3")) "p3"
                     (updateNodesAndEdges_empty_storage _ user fallbackNodes people [])
                     Hnd _ _ eq_refl _ _)).
    + apply list_elem_of_further, list_elem_of_here.
    + discriminate.
    + discriminate.
    + left. reflexivity.
  - refine (proj1 (unreachable_person_left_out (fun _ => Ok ∅) user
                     (Storage.mk ∅ true true) fallbackNodes people [] _ _
                     (examplePerson "p4" (Some "p9")) "p9"
                     (updateNodesAndEdges_empty_storage _ user fallbackNodes people [])
                     Hnd _ _ eq_refl _ _)).
    + apply list_elem_of_further, list_elem_of_further, list_elem_of_here.
    + discriminate.
    + discriminate.
    + right. split.
      * apply (bool_decide_unpack _). vm_compute. exact I.
      * apply (bool_decide_unpack _). vm_compute. exact I.
Defined.

(** ** Initials *)

Lemma append_cons a s t : String.append (String a s) t = String a (String.append s t).
Proof. reflexivity. Qed.

Lemma append_nil_l t : String.append "" t = t.
Proof. reflexivity. Qed.

Lemma append_nil_r s : String.append s "" = s.
Proof. induction s as [|a s IH]; [done|]. by rewrite append_cons, IH. Qed.

Lemma append_assoc s t u :
  String.append (String.append s t) u = String.append s (String.append t u).
Proof. induction s as [|a s IH]; [done|]. by rewrite !append_cons, IH. Qed.

Lemma rev_app_append s t : String.rev_app s t = String.append (String.rev_app s "") t.
Proof.
  revert t. induction s as [|a s IH]; intros t; [done|]. simpl.
  rewrite (IH (String a t)), (IH (String a "")), append_assoc. done.
Qed.

Lemma rev_app_app s1 s2 t :
  String.rev_app (String.append s1 s2) t = String.rev_app s2 (String.rev_app s1 t).
Proof.
  revert t. induction s1 as [|a s1 IH]; intros t; [done|].
  rewrite append_cons. simpl. apply IH.
Qed.

Lemma rev_app_rev_app s t u :
  String.rev_app (String.rev_app s t) u = String.rev_app t (String.append s u).
Proof.
  revert t u. induction s as [|a s IH]; intros t u; [done|]. simpl.
  rewrite IH. done.
Qed.

Lemma rev_rev s : String.rev (String.rev s) = s.
Proof. unfold String.rev. rewrite rev_app_rev_app. simpl. apply append_nil_r. Qed.

Lemma forallChars_rev_app f s t :
  forallChars f s = true -> forallChars f t = true ->
  forallChars f (String.rev_app s t) = true.
Proof.
  revert t. induction s as [|a s IH]; intros t Hs Ht; [done|]. simpl in *.
  apply andb_true_iff in Hs as [Ha Hs]. apply IH; [done|]. simpl. by rewrite Ha.
Qed.

Lemma rev_app_nonempty s t : t <> "" -> String.rev_app s t <> "".
Proof. revert t. induction s as [|a s IH]; intros t Ht; [done|]. simpl. by apply IH. Qed.

Lemma rev_cons_nonempty c cur : String.rev (String c cur) <> "".
Proof. unfold String.rev. simpl. by apply rev_app_nonempty. Qed.

Lemma trimStart_split s :
  exists sp, s = String.append sp (trimStart s) /\ allSpace sp = true.
Proof.
  induction s as [|a s (sp & Hs & Hsp)]; [by exists ""|]. simpl.
  destruct (Ascii.is_space a) eqn:Ha.
  - exists (String a sp). rewrite append_cons, <- Hs. split; [done|].
    unfold allSpace in *. simpl. by rewrite Ha.
  - by exists "".
Qed.

Lemma trimEnd_split s :
  exists sp, s = String.append (trimEnd s) sp /\ allSpace sp = true.
Proof.
  destruct (trimStart_split (String.rev s)) as (sp & Hs & Hsp).
  exists (String.rev sp). split.
  - rewrite <- (rev_rev s) at 1. rewrite Hs at 1. unfold trimEnd, String.rev.
    rewrite rev_app_app. apply rev_app_append.
  - unfold String.rev. by apply forallChars_rev_app.
Qed.

Lemma words_go_trimStart s :
  String.words_go None (trimStart s) = String.words_go None s.
Proof.
  induction s as [|a s IH]; [done|]. simpl.
  destruct (Ascii.is_space a) eqn:Ha; [by rewrite IH|]. simpl. by rewrite Ha.
Qed.

Lemma words_go_allSpace cur sp :
  allSpace sp = true -> String.words_go cur sp = option_list (String.rev <$> cur).
Proof.
  revert cur. induction sp as [|a sp IH]; intros cur Hsp; [done|].
  unfold allSpace in *. simpl in *. apply andb_true_iff in Hsp as [Ha Hsp].
  rewrite Ha, (IH None Hsp). simpl. by rewrite app_nil_r.
Qed.

Lemma words_go_append_space cur t sp :
  allSpace sp = true ->
  String.words_go cur (String.append t sp) = String.words_go cur t.
Proof.
  intros Hsp. revert cur. induction t as [|a t IH]; intros cur.
  - rewrite append_nil_l. by apply words_go_allSpace.
  - rewrite append_cons. simpl. by rewrite !IH.
Qed.

Lemma words_trim s : String.words (trim s) = String.words s.
Proof.
  unfold trim, String.words.
  destruct (trimEnd_split (trimStart s)) as (sp & Hs & Hsp).
  rewrite <- (words_go_trimStart s). rewrite Hs at 2.
  by rewrite words_go_append_space.
Qed.

Lemma split_words s :
  (forall inSeparator,
     filter (fun part => part <> "") (splitWhitespaceGo "" inSeparator s)
     = String.words_go None s)
  /\ (forall c cur,
        filter (fun part => part <> "") (splitWhitespaceGo (String c cur) false s)
        = String.words_go (Some (String c cur)) s).
Proof.
  induction s as [|a s [IH1 IH2]]; split.
  - intros b. simpl. by rewrite filter_cons_False by (intros H; by apply H).
  - intros c cur. simpl. rewrite filter_cons_True; [done|].
    apply rev_cons_nonempty.
  - intros b. simpl. destruct (Ascii.is_space a).
    + destruct b; [apply IH1|]. simpl.
      rewrite filter_cons_False by (intros H; by apply H). apply IH1.
    + apply IH2.
  - intros c cur. simpl. destruct (Ascii.is_space a).
    + rewrite filter_cons_True by apply rev_cons_nonempty. by rewrite IH1.
    + apply IH2.
Qed.

Lemma words_go_wf cur s :
  match cur with Some c => c <> "" /\ noSpace c = true | None => True end ->
  Forall (fun w => w <> "" /\ noSpace w = true) (String.words_go cur s).
Proof.
  assert (Hcur : forall cur,
            match cur with Some c => c <> "" /\ noSpace c = true | None => True end ->
            Forall (fun w => w <> "" /\ noSpace w = true)
              (option_list (String.rev <$> cur))).
  { intros [c|] H; [|constructor]. destruct H as [Hc Hn]. repeat constructor.
    - destruct c; [done|]. apply rev_cons_nonempty.
    - by apply forallChars_rev_app. }
  revert cur. induction s as [|a s IH]; intros cur H; simpl; [by apply Hcur|].
  destruct (Ascii.is_space a) eqn:Ha.
  - apply Forall_app. split; [by apply Hcur | by apply IH].
  - apply IH. destruct cur as [c|]; simpl.
    + destruct H as [Hc Hn]. split; [done|]. unfold noSpace in *. simpl. by rewrite Ha.
    + split; [done|]. unfold noSpace. simpl. by rewrite Ha.
Qed.

Lemma trim_one a :
  Ascii.is_space a = false -> trim (String a "") = String a "".
Proof.
  intros Ha. unfold trim, trimEnd, String.rev.
  do 3 (cbn [trimStart String.rev_app]; rewrite ?Ha). done.
Qed.

Lemma trim_two a b :
  Ascii.is_space a = false -> Ascii.is_space b = false ->
  trim (String a (String b "")) = String a (String b "").
Proof.
  intros Ha Hb. unfold trim, trimEnd, String.rev.
  do 3 (cbn [trimStart String.rev_app]; rewrite ?Ha, ?Hb). done.
Qed.

Lemma noSpace_cons a s :
  noSpace (String a s) = true -> Ascii.is_space a = false /\ noSpace s = true.
Proof.
  unfold noSpace. simpl. intros H. apply andb_true_iff in H as [Ha Hs].
  by apply negb_true_iff in Ha.
Qed.

(** X27. What [getTwoLetterInitials] computes, on ASCII names: with the
    words of the name (its maximal runs without white space), the label is
    ["?"] when there is no word, the first two characters of a single word,
    and otherwise the first characters of the first two words, in upper
    case. *)
Theorem initials_of_words (name : option string) :
  getTwoLetterInitials name
  = match String.words (default "" name) with
    | [] => "?"
    | [word] => toUpperCase (String.substring 0 2 word)
    | first :: second :: _ =>
        toUpperCase
          (String.append (String.substring 0 1 first) (String.substring 0 1 second))
    end.
Proof.
  unfold getTwoLetterInitials. cbv zeta.
  set (s := default "" name).
  destruct (String.eqb (trim s) "") eqn:Hempty.
  - apply String.eqb_eq in Hempty. rewrite <- (words_trim s), Hempty. done.
  - unfold splitWhitespace. rewrite (proj1 (split_words (trim s)) false).
    change (String.words_go None (trim s)) with (String.words (trim s)).
    rewrite words_trim.
    pose proof (words_go_wf None s I) as Hwf.
    change (String.words_go None s) with (String.words s) in Hwf.
    destruct (String.words s) as [|w1 [|w2 rest]]; [done| |].
    + apply Forall_cons in Hwf as [[Hw1 Hn1] _].
      destruct w1 as [|a [|b w1]]; [done| |].
      * apply noSpace_cons in Hn1 as [Ha _]. simpl.
        unfold charAt. simpl. rewrite append_nil_r, trim_one by done. done.
      * apply noSpace_cons in Hn1 as [Ha Hn1]. apply noSpace_cons in Hn1 as [Hb _].
        simpl. unfold charAt. simpl. rewrite append_cons, append_nil_l.
        rewrite trim_two by done. by destruct w1.
    + apply Forall_cons in Hwf as [[Hw1 Hn1] Hwf].
      apply Forall_cons in Hwf as [[Hw2 Hn2] _].
      destruct w1 as [|a w1]; [done|]. destruct w2 as [|b w2]; [done|].
      apply noSpace_cons in Hn1 as [Ha _]. apply noSpace_cons in Hn2 as [Hb _].
      simpl. unfold charAt. simpl.
      destruct w1, w2; simpl; rewrite append_cons, append_nil_l, trim_two by done;
        done.
Qed.

Lemma upperChar_idempotent a : upperChar (upperChar a) = upperChar a.
Proof. by destruct a as [[] [] [] [] [] [] [] []]. Qed.

Lemma upperChar_not_space a :
  Ascii.is_space a = false -> Ascii.is_space (upperChar a) = false.
Proof. by destruct a as [[] [] [] [] [] [] [] []]. Qed.

Lemma toUpperCase_idempotent s : toUpperCase (toUpperCase s) = toUpperCase s.
Proof.
  induction s as [|a s IH]; [done|]. simpl. by rewrite upperChar_idempotent, IH.
Qed.

Lemma toUpperCase_length s : String.length (toUpperCase s) = String.length s.
Proof. induction s as [|a s IH]; [done|]. simpl. by rewrite IH. Qed.

Lemma toUpperCase_noSpace s : noSpace s = true -> noSpace (toUpperCase s) = true.
Proof.
  induction s as [|a s IH]; [done|]. intros H. apply noSpace_cons in H as [Ha Hs].
  unfold noSpace in *. simpl. by rewrite (upperChar_not_space a Ha), IH.
Qed.

Lemma charAt_length k s : (String.length (charAt k s) <= 1)%nat.
Proof. unfold charAt. destruct (String.get k s); simpl; lia. Qed.

Lemma append_length s t :
  String.length (String.append s t) = (String.length s + String.length t)%nat.
Proof. induction s as [|a s IH]; [done|]. rewrite append_cons. simpl. by rewrite IH. Qed.

(** Trimming a string of at most two characters leaves no white space. *)
Lemma trim_short x :
  (String.length x <= 2)%nat ->
  noSpace (trim x) = true /\ (String.length (trim x) <= 2)%nat.
Proof.
  destruct x as [|a [|b [|c x]]]; simpl; intros Hlen; try lia.
  - split; [done | simpl; lia].
  - unfold trim, trimEnd, String.rev, noSpace.
    destruct (Ascii.is_space a) eqn:Ha;
      repeat (cbn [trimStart String.rev_app forallChars String.length]; rewrite ?Ha);
      split; (done || lia).
  - unfold trim, trimEnd, String.rev, noSpace.
    destruct (Ascii.is_space a) eqn:Ha, (Ascii.is_space b) eqn:Hb;
      repeat (cbn [trimStart String.rev_app forallChars String.length]; rewrite ?Ha, ?Hb);
      split; (done || lia).
Qed.

Lemma label_shape x :
  (String.length x <= 2)%nat ->
  (1 <= String.length (toUpperCase (orQuestionMark (trim x))) <= 2)%nat
  /\ noSpace (toUpperCase (orQuestionMark (trim x))) = true
  /\ toUpperCase (toUpperCase (orQuestionMark (trim x)))
     = toUpperCase (orQuestionMark (trim x)).
Proof.
  intros Hlen. destruct (trim_short x Hlen) as [Hns Hl].
  split; [|split; [|apply toUpperCase_idempotent]].
  - rewrite toUpperCase_length. unfold orQuestionMark.
    destruct (trim x) as [|a t]; simpl in *; lia.
  - apply toUpperCase_noSpace. unfold orQuestionMark.
    by destruct (trim x) as [|a t].
Qed.

(** X28. The label that [getTwoLetterInitials] returns is never empty, has
    at most two characters, contains no white space and no lower-case
    ASCII letter (upper-casing it again changes nothing). *)
Theorem initials_shape (name : option string) :
  (1 <= String.length (getTwoLetterInitials name) <= 2)%nat
  /\ noSpace (getTwoLetterInitials name) = true
  /\ toUpperCase (getTwoLetterInitials name) = getTwoLetterInitials name.
Proof.
  assert (Hpair : forall i j p q,
            (String.length (String.append (charAt i p) (charAt j q)) <= 2)%nat).
  { intros i j p q. rewrite append_length.
    pose proof (charAt_length i p). pose proof (charAt_length j q). lia. }
  unfold getTwoLetterInitials. cbv zeta.
  destruct (String.eqb (trim (default "" name)) "").
  - split; [simpl; lia | done].
  - destruct (2 <=? _)%nat; apply label_shape, Hpair.
Qed.
